(** * memberlist: the membership state machine and failure detector of state.go

    A shallow embedding of [state.go].  The Go struct [Memberlist] becomes a
    record that is threaded through every operation; records reached through
    [*NodeState] pointers live in an explicit heap, so that the mapping
    [nodeMap] and the slice [nodes] alias the same record exactly as in the
    source.  Calls that leave the process (broadcast queue, notification
    channels, logger, timers) are returned as a list of effects.  Values the
    environment decides ([time.Now()], random numbers, what the network
    returns) are explicit arguments. *)

From Stdlib Require Import ZArith Lia Bool.
From stdpp Require Import base tactics option list gmap strings fin_maps.

Local Open Scope Z_scope.

(** ** Data model *)

(** [const ( StateAlive = iota; StateSuspect; StateDead )]; the field
    [State] is a Go [int]. *)
Definition StateAlive : Z := 0.
Definition StateSuspect : Z := 1.
Definition StateDead : Z := 2.

(** [net.IP] and [[]byte] *)
Abbreviation bytes := (list Byte.byte).

(** [type Node struct] *)
Record Node := mkNode {
  Name : string;
  Addr : bytes;
  Meta : bytes
}.

(** [type NodeState struct]: [Node] is embedded, so its fields are reached
    through the coercion.  [Incarnation] is a [uint32], [StateChange] a
    [time.Time] (a clock reading). *)
Record NodeState := mkNodeState {
  toNode :> Node;
  Incarnation : Z;
  State : Z;
  StateChange : Z
}.

(** A [*NodeState] is an index into the heap of allocated records. *)
Abbreviation ptr := nat.

(** The messages of the state machine. *)
Module alive.
Record t := mk { Incarnation : Z; Node : string; Addr : bytes; Meta : bytes }.
End alive.

Module suspect.
Record t := mk { Incarnation : Z; Node : string }.
End suspect.

Module dead.
Record t := mk { Incarnation : Z; Node : string }.
End dead.

(** A record of a remote state transfer, as [mergeState] reads it. *)
Module pushNodeState.
Record t := mk {
  Name : string; Addr : bytes; Meta : bytes; Incarnation : Z; State : Z
}.
End pushNodeState.

(** The configuration fields that [state.go] reads.  Durations are
    [time.Duration] (signed nanoseconds), counts are [int]. *)
Module Config.
Record t := mk {
  Name : string;
  UDPPort : Z;
  ProbeInterval : Z;
  RTT : Z;
  IndirectChecks : Z;
  GossipInterval : Z;
  GossipNodes : Z;
  PushPullInterval : Z;
  SuspicionMult : Z
}.
End Config.

(** The three periodic handlers that [schedule] can hand to [triggerFunc]. *)
Inductive activity := Probe | PushPull | Gossip.

(** A running ticker together with the handler its goroutine triggers. *)
Record ticker := mkTicker { period : Z; fires : activity }.

(** The callback stored in an [ackHandler]: the closure built by
    [setAckChannel] (a non-blocking send of [true] on the channel) or the
    caller's function given to [setAckHandler]. *)
Inductive handlerFn :=
| SendTrue (ch : nat)
| UserFn (f : nat).

(** [type ackHandler struct]; the timer is named by its index in the table
    of timers created by [time.AfterFunc]. *)
Record ackHandler := mkAckHandler { handler : handlerFn; timer : nat }.

(** A timer made by [time.AfterFunc] is armed until it is stopped or it
    expires; once expired, the runtime has started the goroutine of its
    closure and [Stop] comes too late; the closure then runs once. *)
Inductive timerStatus := Armed | Expired | Stopped | Fired.

(** A reap timer: its status and what its closure captured ([seqNo], and
    the channel for the timers of [setAckChannel]). *)
Record reapTimer := mkReapTimer {
  status : timerStatus;
  reapSeq : Z;
  reapCh : option nat
}.

(** [type Memberlist struct], restricted to the fields of [state.go]. *)
Record Memberlist := mkMemberlist {
  config : Config.t;
  leave : bool;
  sequenceNum : Z;
  incarnation : Z;
  nodeMap : gmap string ptr;
  nodes : list ptr;
  heap : list NodeState;
  probeIndex : nat;
  tickers : list ticker;
  ackHandlers : gmap Z ackHandler;
  timers : list reapTimer;
  chans : nat
}.

(** ** Effects *)

Inductive message :=
| aliveMsg (a : alive.t)
| suspectMsg (s : suspect.t)
| deadMsg (d : dead.t).

Inductive notifyCh := JoinCh | LeaveCh.

Inductive effect :=
| Broadcast (name : string) (msg : message)
| Notify (ch : notifyCh) (n : Node)
| AfterSuspicion (state : ptr) (changeTime : Z)
| SendPing (to : bytes) (seqNo : Z)
| SendIndirectPing (to : bytes) (seqNo : Z) (target : bytes)
| TrySend (ch : nat) (v : bool)
| CallUser (f : nat)
| AckInvoked (reg : nat)
| AckReaped (reg : nat)
| Log (line : string).

(** ** Field updates *)

Definition set_leave (b : bool) (m : Memberlist) : Memberlist :=
  mkMemberlist (config m) b (sequenceNum m) (incarnation m) (nodeMap m)
    (nodes m) (heap m) (probeIndex m) (tickers m) (ackHandlers m) (timers m)
    (chans m).

Definition set_sequenceNum (n : Z) (m : Memberlist) : Memberlist :=
  mkMemberlist (config m) (leave m) n (incarnation m) (nodeMap m)
    (nodes m) (heap m) (probeIndex m) (tickers m) (ackHandlers m) (timers m)
    (chans m).

Definition set_incarnation (n : Z) (m : Memberlist) : Memberlist :=
  mkMemberlist (config m) (leave m) (sequenceNum m) n (nodeMap m)
    (nodes m) (heap m) (probeIndex m) (tickers m) (ackHandlers m) (timers m)
    (chans m).

Definition set_nodeMap (nm : gmap string ptr) (m : Memberlist) : Memberlist :=
  mkMemberlist (config m) (leave m) (sequenceNum m) (incarnation m) nm
    (nodes m) (heap m) (probeIndex m) (tickers m) (ackHandlers m) (timers m)
    (chans m).

Definition set_nodes (ns : list ptr) (m : Memberlist) : Memberlist :=
  mkMemberlist (config m) (leave m) (sequenceNum m) (incarnation m) (nodeMap m)
    ns (heap m) (probeIndex m) (tickers m) (ackHandlers m) (timers m)
    (chans m).

Definition set_heap (h : list NodeState) (m : Memberlist) : Memberlist :=
  mkMemberlist (config m) (leave m) (sequenceNum m) (incarnation m) (nodeMap m)
    (nodes m) h (probeIndex m) (tickers m) (ackHandlers m) (timers m)
    (chans m).

Definition set_probeIndex (i : nat) (m : Memberlist) : Memberlist :=
  mkMemberlist (config m) (leave m) (sequenceNum m) (incarnation m) (nodeMap m)
    (nodes m) (heap m) i (tickers m) (ackHandlers m) (timers m)
    (chans m).

Definition set_tickers (ts : list ticker) (m : Memberlist) : Memberlist :=
  mkMemberlist (config m) (leave m) (sequenceNum m) (incarnation m) (nodeMap m)
    (nodes m) (heap m) (probeIndex m) ts (ackHandlers m) (timers m)
    (chans m).

Definition set_ackHandlers (hs : gmap Z ackHandler) (m : Memberlist) : Memberlist :=
  mkMemberlist (config m) (leave m) (sequenceNum m) (incarnation m) (nodeMap m)
    (nodes m) (heap m) (probeIndex m) (tickers m) hs (timers m)
    (chans m).

Definition set_timers (ts : list reapTimer) (m : Memberlist) : Memberlist :=
  mkMemberlist (config m) (leave m) (sequenceNum m) (incarnation m) (nodeMap m)
    (nodes m) (heap m) (probeIndex m) (tickers m) (ackHandlers m) ts
    (chans m).

Definition set_chans (n : nat) (m : Memberlist) : Memberlist :=
  mkMemberlist (config m) (leave m) (sequenceNum m) (incarnation m) (nodeMap m)
    (nodes m) (heap m) (probeIndex m) (tickers m) (ackHandlers m) (timers m)
    n.

(** Reading through a [*NodeState]. *)
Abbreviation deref m p := (@lookup nat NodeState (list NodeState) _ p (heap m)).

(** Writing through a [*NodeState]. *)
Definition store (p : ptr) (st : NodeState) (m : Memberlist) : Memberlist :=
  set_heap (<[p := st]> (heap m)) m.

Definition with_Incarnation (inc : Z) (st : NodeState) : NodeState :=
  mkNodeState (toNode st) inc (State st) (StateChange st).

Definition with_State (s : Z) (t : Z) (st : NodeState) : NodeState :=
  mkNodeState (toNode st) (Incarnation st) s t.

(** ** Counters *)

Definition uint32_add1 (x : Z) : Z := (x + 1) mod 2 ^ 32.

(** [nextSeqNo]: [atomic.AddUint32(&m.sequenceNum, 1)] returns the new value. *)
Definition nextSeqNo (m : Memberlist) : Z * Memberlist :=
  let n := uint32_add1 (sequenceNum m) in (n, set_sequenceNum n m).

(** [nextIncarnation]: [atomic.AddUint32(&m.incarnation, 1)]. *)
Definition nextIncarnation (m : Memberlist) : Z * Memberlist :=
  let n := uint32_add1 (incarnation m) in (n, set_incarnation n m).

(** ** What the environment decides *)

(** The readings a call takes from outside the program: [time.Now()] and
    one draw of the random number generator. *)
Record env := mkEnv { now : Z; rand : nat }.

(** Modelled from the spec: [randomOffset] is declared outside [state.go];
    the node table section says a new record is appended at the tail and
    swapped with a uniformly random earlier index.  The draw is reduced to
    such an index; with no earlier index the record stays where it is. *)
Definition randomOffset (draw : nat) (n : nat) : nat :=
  match n with
  | O => O
  | S _ => (draw mod n)%nat
  end.

(** [l[i], l[j] = l[j], l[i]] *)
Definition swap {A} (l : list A) (i j : nat) : list A :=
  match l !! i, l !! j with
  | Some x, Some y => <[i := y]> (<[j := x]> l)
  | _, _ => l
  end.

(** ** The state machine *)

(** The block of [aliveNode] for a name never seen before: the new record
    (state Dead, zero incarnation and zero time), its entry in the mapping,
    and its place in the sequence. *)
Definition aliveNode_create (e : env) (a : alive.t) (m : Memberlist)
  : ptr * Memberlist :=
  let state :=
    mkNodeState (mkNode (alive.Node a) (alive.Addr a) (alive.Meta a))
      0 StateDead 0 in
  let p := length (heap m) in
  let m' := set_nodeMap (<[alive.Node a := p]> (nodeMap m))
              (set_heap (heap m ++ [state]) m) in
  let n := length (nodes m') in
  let offset := randomOffset (rand e) n in
  (p, set_nodes (swap (nodes m' ++ [p]) offset n) m').

(** [aliveNode] *)
Definition aliveNode (e : env) (a : alive.t) (m : Memberlist)
  : Memberlist * list effect :=
  let '(p, m1) :=
    match nodeMap m !! alive.Node a with
    | Some p => (p, m)
    | None => aliveNode_create e a m
    end in
  match deref m1 p with
  | None => (m1, [])
  | Some state =>
      if alive.Incarnation a <=? Incarnation state then (m1, [])
      else
        let oldState := State state in
        let state1 := with_Incarnation (alive.Incarnation a) state in
        let state2 :=
          if negb (State state1 =? StateAlive)
          then with_State StateAlive (now e) state1 else state1 in
        (store p state2 m1,
         Broadcast (alive.Node a) (aliveMsg a)
           :: (if oldState =? StateDead
               then [Notify JoinCh (toNode state2)] else []))
  end.

(** [suspectNode].  The closure handed to [time.AfterFunc] captures the
    pointer [state] and [changeTime]; its duration comes from
    [suspicionTimeout], which only decides when the closure runs. *)
Definition suspectNode (e : env) (s : suspect.t) (m : Memberlist)
  : Memberlist * list effect :=
  match nodeMap m !! suspect.Node s with
  | None => (m, [])
  | Some p =>
      match deref m p with
      | None => (m, [])
      | Some state =>
          if suspect.Incarnation s <? Incarnation state then (m, [])
          else if negb (State state =? StateAlive) then (m, [])
          else if String.eqb (Name state) (Config.Name (config m)) then
            let '(inc, m1) := nextIncarnation m in
            let a := alive.mk inc (Name state) (Addr state) (Meta state) in
            (store p (with_Incarnation inc state) m1,
             [Broadcast (suspect.Node s) (aliveMsg a)])
          else
            let changeTime := now e in
            let state' :=
              with_State StateSuspect changeTime
                (with_Incarnation (suspect.Incarnation s) state) in
            (store p state' m,
             [Broadcast (suspect.Node s) (suspectMsg s);
              AfterSuspicion p changeTime])
      end
  end.

(** [deadNode] *)
Definition deadNode (e : env) (d : dead.t) (m : Memberlist)
  : Memberlist * list effect :=
  match nodeMap m !! dead.Node d with
  | None => (m, [])
  | Some p =>
      match deref m p with
      | None => (m, [])
      | Some state =>
          if dead.Incarnation d <? Incarnation state then (m, [])
          else if State state =? StateDead then (m, [])
          else if String.eqb (Name state) (Config.Name (config m))
                  && negb (leave m) then
            let '(inc, m1) := nextIncarnation m in
            let a := alive.mk inc (Name state) (Addr state) (Meta state) in
            (store p (with_Incarnation inc state) m1,
             [Broadcast (dead.Node d) (aliveMsg a)])
          else
            let state' :=
              with_State StateDead (now e)
                (with_Incarnation (dead.Incarnation d) state) in
            (store p state' m,
             [Broadcast (dead.Node d) (deadMsg d);
              Notify LeaveCh (toNode state')])
      end
  end.

(** [suspectTimeout] *)
Definition suspectTimeout (e : env) (n : ptr) (m : Memberlist)
  : Memberlist * list effect :=
  match deref m n with
  | None => (m, [])
  | Some st => deadNode e (dead.mk (Incarnation st) (Name st)) m
  end.

(** The closure armed by [suspectNode], run when its timer fires. *)
Definition suspicionFire (e : env) (state : ptr) (changeTime : Z)
    (m : Memberlist) : Memberlist * list effect :=
  match deref m state with
  | None => (m, [])
  | Some st =>
      if (State st =? StateSuspect) && (StateChange st =? changeTime)
      then suspectTimeout e state m
      else (m, [])
  end.

(** [mergeState]: one environment reading per remote record, for the call
    of the state machine that record may cause. *)
Fixpoint mergeState (remote : list (env * pushNodeState.t)) (m : Memberlist)
  : Memberlist * list effect :=
  match remote with
  | [] => (m, [])
  | (e, r) :: rest =>
      let agree :=
        match nodeMap m !! pushNodeState.Name r with
        | Some p =>
            match deref m p with
            | Some local => State local =? pushNodeState.State r
            | None => false
            end
        | None => false
        end in
      let '(m1, out) :=
        if agree then (m, [])
        else if pushNodeState.State r =? StateAlive then
          aliveNode e
            (alive.mk (pushNodeState.Incarnation r) (pushNodeState.Name r)
               (pushNodeState.Addr r) (pushNodeState.Meta r)) m
        else if pushNodeState.State r =? StateSuspect then
          suspectNode e
            (suspect.mk (pushNodeState.Incarnation r) (pushNodeState.Name r)) m
        else if pushNodeState.State r =? StateDead then
          deadNode e
            (dead.mk (pushNodeState.Incarnation r) (pushNodeState.Name r)) m
        else (m, []) in
      let '(m2, out') := mergeState rest m1 in
      (m2, out ++ out')
  end.

(** ** The reset sweep *)

Definition isDead (h : list NodeState) (p : ptr) : bool :=
  match h !! p with
  | Some st => State st =? StateDead
  | None => false
  end.

(** Modelled from the spec: [moveDeadNodes] is declared outside [state.go];
    the reset sweep section says it partitions the sequence so that live
    records precede Dead records, and [resetNodes] reads its result as the
    index of the first Dead record.  The order inside each part is free; the
    model keeps it. *)
Definition moveDeadNodes (h : list NodeState) (ns : list ptr)
  : list ptr * nat :=
  let live := filter (λ p, isDead h p = false) ns in
  let dead := filter (λ p, isDead h p = true) ns in
  (live ++ dead, length live).

(** Modelled from the spec: [shuffleNodes] is declared outside [state.go];
    the reset sweep section says the remaining live records are shuffled
    uniformly.  The model exchanges position [i] with the position that the
    [i]-th random draw selects among [0..i]. *)
Definition shuffleNodes (draws : nat → nat) (ns : list ptr) : list ptr :=
  foldl (λ acc i, swap acc i (draws i mod S i)%nat) ns (seq 0 (length ns)).

(** The loop of [resetNodes] that deregisters the records of the Dead tail
    [ds]: [delete(m.nodeMap, m.nodes[i].Name)] for each of them. *)
Definition deregister (h : list NodeState) (nm : gmap string ptr)
    (ds : list ptr) : gmap string ptr :=
  foldl (λ acc p,
           match @lookup nat NodeState (list NodeState) _ p h with
           | Some st => delete (Name st) acc
           | None => acc
           end) nm ds.

(** [resetNodes] *)
Definition resetNodes (draws : nat → nat) (m : Memberlist) : Memberlist :=
  let '(ns, deadIdx) := moveDeadNodes (heap m) (nodes m) in
  let nm := deregister (heap m) (nodeMap m) (drop deadIdx ns) in
  set_nodes (shuffleNodes draws (take deadIdx ns)) (set_nodeMap nm m).

(** ** The ack registry *)

(** [setAckChannel] *)
Definition setAckChannel (seqNo : Z) (ch : nat) (timeout : Z)
    (m : Memberlist) : Memberlist :=
  let t := length (timers m) in
  let ah := mkAckHandler (SendTrue ch) t in
  set_timers (timers m ++ [mkReapTimer Armed seqNo (Some ch)])
    (set_ackHandlers (<[seqNo := ah]> (ackHandlers m)) m).

(** [setAckHandler] *)
Definition setAckHandler (seqNo : Z) (f : nat) (timeout : Z)
    (m : Memberlist) : Memberlist :=
  let t := length (timers m) in
  let ah := mkAckHandler (UserFn f) t in
  set_timers (timers m ++ [mkReapTimer Armed seqNo None])
    (set_ackHandlers (<[seqNo := ah]> (ackHandlers m)) m).

(** [Stop] of a [time.Timer]: an armed timer will not fire any more. *)
Definition stopTimer (t : nat) (m : Memberlist) : Memberlist :=
  match timers m !! t with
  | Some tm =>
      match status tm with
      | Armed =>
          set_timers
            (<[t := mkReapTimer Stopped (reapSeq tm) (reapCh tm)]> (timers m)) m
      | _ => m
      end
  | None => m
  end.

(** Running the stored callback. *)
Definition runHandler (h : handlerFn) : list effect :=
  match h with
  | SendTrue ch => [TrySend ch true]
  | UserFn f => [CallUser f]
  end.

(** [invokeAckHandler] *)
Definition invokeAckHandler (seqNo : Z) (m : Memberlist)
  : Memberlist * list effect :=
  let found := ackHandlers m !! seqNo in
  let m1 := set_ackHandlers (delete seqNo (ackHandlers m)) m in
  match found with
  | None => (m1, [])
  | Some ah =>
      (stopTimer (timer ah) m1, AckInvoked (timer ah) :: runHandler (handler ah))
  end.

(** Timer [t] expires: the runtime starts the goroutine of its closure. *)
Definition timerExpires (t : nat) (m : Memberlist) : Memberlist :=
  match timers m !! t with
  | Some tm =>
      match status tm with
      | Armed =>
          set_timers
            (<[t := mkReapTimer Expired (reapSeq tm) (reapCh tm)]> (timers m)) m
      | _ => m
      end
  | None => m
  end.

(** The closure given to [time.AfterFunc] by [setAckChannel] and
    [setAckHandler], run in its goroutine once timer [t] has expired. *)
Definition reapClosure (t : nat) (m : Memberlist) : Memberlist * list effect :=
  match timers m !! t with
  | Some tm =>
      match status tm with
      | Expired =>
          let m1 :=
            set_timers
              (<[t := mkReapTimer Fired (reapSeq tm) (reapCh tm)]> (timers m)) m in
          (set_ackHandlers (delete (reapSeq tm) (ackHandlers m1)) m1,
           AckReaped t ::
             match reapCh tm with
             | Some ch => [TrySend ch false]
             | None => []
             end)
      | _ => (m, [])
      end
  | None => (m, [])
  end.

(** An armed timer [t] expires and its closure runs at once. *)
Definition reapFire (t : nat) (m : Memberlist) : Memberlist * list effect :=
  match timers m !! t with
  | Some tm =>
      match status tm with
      | Armed => reapClosure t (timerExpires t m)
      | _ => (m, [])
      end
  | None => (m, [])
  end.

(** ** The probe tick *)

(** What the network does during one [probeNode]: whether sending the ping
    fails, what arrives on the ack channel before [RTT] elapses, the peers
    [kRandomNodes] picks (with whether sending to each fails), the value
    received in the second wait, and the readings of [suspectNode]. *)
Record probeEnv := mkProbeEnv {
  pingFails : bool;
  directAck : option bool;
  kNodes : list (ptr * bool);
  indirectAck : bool;
  penv : env
}.

(** [probeNode] *)
Definition probeNode (pe : probeEnv) (node : ptr) (m : Memberlist)
  : Memberlist * list effect :=
  match deref m node with
  | None => (m, [])
  | Some target =>
      let '(seqNo, m1) := nextSeqNo m in
      let ackCh := chans m1 in
      let m2 :=
        setAckChannel seqNo ackCh (Config.ProbeInterval (config m))
          (set_chans (S ackCh) m1) in
      if pingFails pe then (m2, [Log "[ERR] Failed to send ping"])
      else
        let out1 := [SendPing (Addr target) seqNo] in
        match directAck pe with
        | Some true => (m2, out1)
        | _ =>
            let out2 :=
              flat_map
                (λ '(peer, failed),
                   match deref m2 peer with
                   | Some st =>
                       SendIndirectPing (Addr st) seqNo (Addr target)
                         :: (if failed : bool
                             then [Log "[ERR] Failed to send indirect ping"]
                             else [])
                   | None => []
                   end)
                (kNodes pe) in
            if indirectAck pe then (m2, out1 ++ out2)
            else
              match deref m2 node with
              | None => (m2, out1 ++ out2)
              | Some cur =>
                  let '(m3, out3) :=
                    suspectNode (penv pe)
                      (suspect.mk (Incarnation cur) (Name cur)) m2 in
                  (m3, out1 ++ out2 ++ out3)
              end
        end
  end.

(** The wrap-around case of [probe]: [m.resetNodes(); m.probeIndex = 0]. *)
Definition wrapAround (draws : nat → nat) (m : Memberlist) : Memberlist :=
  set_probeIndex 0 (resetNodes draws m).

(** The loop of [probe] up to the call of [probeNode]: the state it leaves
    and the record it selected, if any.  [draws k] feeds the shuffle of a
    reset made when [numCheck = k].  [None] only when the fuel runs out. *)
Fixpoint probeLoop (fuel : nat) (draws : nat → nat → nat) (numCheck : nat)
    (m : Memberlist) : option (Memberlist * option ptr) :=
  match fuel with
  | O => None
  | S fuel' =>
      if (length (nodes m) <=? numCheck)%nat then Some (m, None)
      else if (length (nodes m) <=? probeIndex m)%nat then
        probeLoop fuel' draws (S numCheck) (wrapAround (draws numCheck) m)
      else
        match nodes m !! probeIndex m with
        | None => Some (m, None)
        | Some node =>
            let skip :=
              match deref m node with
              | Some st =>
                  if String.eqb (Name st) (Config.Name (config m)) then true
                  else if State st =? StateDead then true
                  else false
              | None => false
              end in
            if skip then
              probeLoop fuel' draws (S numCheck)
                (set_probeIndex (S (probeIndex m)) m)
            else Some (m, Some node)
        end
  end.

(** [probe] *)
Definition probe (draws : nat → nat → nat) (pe : probeEnv) (m : Memberlist)
  : option (Memberlist * list effect) :=
  match probeLoop (S (length (nodes m))) draws 0 m with
  | None => None
  | Some (m', None) => Some (m', [])
  | Some (m', Some node) => Some (probeNode pe node m')
  end.

(** ** Push/pull *)

(** [pushPullNode]; [reply] is what [sendAndReceiveState(addr)] returns: the
    remote states, or an error. *)
Definition pushPullNode (addr : bytes)
    (reply : list (env * pushNodeState.t) + string) (m : Memberlist)
  : Memberlist * list effect * option string :=
  match reply with
  | inr err => (m, [], None)
  | inl remote =>
      let '(m', out) := mergeState remote m in (m', out, None)
  end.

(** [pushPull]; [picked] is what [kRandomNodes(1, excludes, m.nodes)]
    returns. *)
Definition pushPull (picked : list ptr)
    (reply : list (env * pushNodeState.t) + string) (m : Memberlist)
  : Memberlist * list effect :=
  match picked with
  | [] => (m, [])
  | p :: _ =>
      match deref m p with
      | None => (m, [])
      | Some node =>
          let '(m', out, err) := pushPullNode (Addr node) reply m in
          match err with
          | Some e =>
              (m', out ++ [Log ("[ERR] Push/Pull with " +:+ Name node
                                  +:+ " failed: " +:+ e)])
          | None => (m', out)
          end
      end
  end.

(** ** The scheduler *)

(** [time.NewTicker] panics unless the period is positive. *)
Definition NewTicker (d : Z) : option Z :=
  if 0 <? d then Some d else None.

(** [schedule]; [None] is a panic. *)
Definition schedule (m : Memberlist) : option Memberlist :=
  m1 ← (if 0 <? Config.ProbeInterval (config m) then
          t ← NewTicker (Config.ProbeInterval (config m));
          Some (set_tickers (tickers m ++ [mkTicker t Probe]) m)
        else Some m);
  m2 ← (if 0 <? Config.PushPullInterval (config m1) then
          t ← NewTicker (Config.PushPullInterval (config m1));
          Some (set_tickers (tickers m1 ++ [mkTicker t PushPull]) m1)
        else Some m1);
  if 0 <? Config.GossipNodes (config m2) then
    t ← NewTicker (Config.GossipInterval (config m2));
    Some (set_tickers (tickers m2 ++ [mkTicker t Gossip]) m2)
  else Some m2.

(** ** The node as a machine driven by events *)

(** Everything that can happen to a [Memberlist]: messages delivered by the
    network layer, timers firing, the periodic ticks, registrations of ack
    handlers, the start of a voluntary leave (the flag [m.leave] is set by
    the caller of the state machine), and calls of [nextSeqNo] and
    [nextIncarnation] from the rest of the package.  A reap timer either
    fires with its closure running at once ([ReapTimer]), or expires
    ([TimerExpires]) and has its closure run later ([ReapRuns]). *)
Inductive event :=
| InAlive (e : env) (a : alive.t)
| InSuspect (e : env) (s : suspect.t)
| InDead (e : env) (d : dead.t)
| InMerge (remote : list (env * pushNodeState.t))
| SuspicionTimer (e : env) (state : ptr) (changeTime : Z)
| ProbeTick (draws : nat → nat → nat) (pe : probeEnv)
| PushPullTick (picked : list ptr) (reply : list (env * pushNodeState.t) + string)
| AckChannel (seqNo : Z) (ch : nat) (timeout : Z)
| AckHandler (seqNo : Z) (f : nat) (timeout : Z)
| InAck (seqNo : Z)
| ReapTimer (t : nat)
| TimerExpires (t : nat)
| ReapRuns (t : nat)
| Leaving
| TakeSeqNo
| TakeIncarnation.

Definition step (ev : event) (m : Memberlist) : Memberlist * list effect :=
  match ev with
  | InAlive e a => aliveNode e a m
  | InSuspect e s => suspectNode e s m
  | InDead e d => deadNode e d m
  | InMerge remote => mergeState remote m
  | SuspicionTimer e state changeTime => suspicionFire e state changeTime m
  | ProbeTick draws pe => default (m, []) (probe draws pe m)
  | PushPullTick picked reply => pushPull picked reply m
  | AckChannel seqNo ch timeout => (setAckChannel seqNo ch timeout m, [])
  | AckHandler seqNo f timeout => (setAckHandler seqNo f timeout m, [])
  | InAck seqNo => invokeAckHandler seqNo m
  | ReapTimer t => reapFire t m
  | TimerExpires t => (timerExpires t m, [])
  | ReapRuns t => reapClosure t m
  | Leaving => (set_leave true m, [])
  | TakeSeqNo => ((nextSeqNo m).2, [])
  | TakeIncarnation => ((nextIncarnation m).2, [])
  end.

(** Running a sequence of events, collecting the effects in order. *)
Fixpoint run (evs : list event) (m : Memberlist) : Memberlist * list effect :=
  match evs with
  | [] => (m, [])
  | ev :: rest =>
      let '(m1, out) := step ev m in
      let '(m2, out') := run rest m1 in
      (m2, out ++ out')
  end.

(** A node that knows nobody yet. *)
Definition init (c : Config.t) : Memberlist :=
  mkMemberlist c false 0 0 ∅ [] [] 0%nat [] ∅ [] 0%nat.

Definition reachable (m : Memberlist) : Prop :=
  ∃ c evs, m = (run evs (init c)).1.

(** ** Invariants of the node table *)

(** I1, on the three components of the table: every entry of the mapping
    points to a record of that name which the sequence lists, every listed
    record is the mapping's entry for its name, and no record is listed
    twice. *)
Record I1t (nm : gmap string ptr) (ns : list ptr) (h : list NodeState) : Prop := {
  map_points : ∀ k p, nm !! k = Some p → ∃ st : NodeState, h !! p = Some st ∧ Name st = k;
  map_listed : ∀ k p, nm !! k = Some p → p ∈ ns;
  listed_mapped : ∀ p, p ∈ ns → ∃ st : NodeState, h !! p = Some st ∧ nm !! Name st = Some p;
  listed_once : NoDup ns
}.

Definition I1 (m : Memberlist) : Prop := I1t (nodeMap m) (nodes m) (heap m).

(** No record that carries the local node's name is ever Suspect. *)
Definition self_never_suspect (c : Config.t) (h : list NodeState) : Prop :=
  ∀ p (st : NodeState), h !! p = Some st → Name st = Config.Name c →
    State st ≠ StateSuspect.

(** Records only hold the three declared states. *)
Definition states_known (h : list NodeState) : Prop :=
  ∀ p (st : NodeState), h !! p = Some st →
    State st = StateAlive ∨ State st = StateSuspect ∨ State st = StateDead.

Record Inv (m : Memberlist) : Prop := {
  inv_I1 : I1 m;
  inv_self : self_never_suspect (config m) (heap m);
  inv_states : states_known (heap m)
}.

(** Two states with the same configuration and the same node table. *)
Definition table_same (m m' : Memberlist) : Prop :=
  config m' = config m ∧ nodeMap m' = nodeMap m ∧ nodes m' = nodes m ∧
  heap m' = heap m.

(** ** Refutation *)

(** What a refutation of a rumour about the record [st] at [p] looks like
    from outside: one Alive about ourselves with the next incarnation is
    queued, the record and the counter carry that incarnation, and nothing
    else of the record (its [State] in particular) or of the table moves. *)
Definition refutes (m : Memberlist) (p : ptr) (st : NodeState)
    (r : Memberlist * list effect) : Prop :=
  let inc := Incarnation st + 1 in
  r.2 = [Broadcast (Name st)
           (aliveMsg (alive.mk inc (Name st) (Addr st) (Meta st)))] ∧
  deref r.1 p = Some (mkNodeState (toNode st) inc (State st) (StateChange st)) ∧
  incarnation r.1 = inc ∧
  nodeMap r.1 = nodeMap m ∧ nodes r.1 = nodes m.

(** Example tables for a node called ["self"]. *)
Definition exConfig : Config.t :=
  Config.mk "self" 7946 1000 20 3 200 3 30000 5.

Definition exSelf (inc state : Z) : NodeState :=
  mkNodeState (mkNode "self" [] []) inc state 1.

(** The node has announced itself: it took incarnation 1 from its counter
    and fed an Alive about itself to the state machine. *)
Definition exStarted : Memberlist :=
  (run [TakeIncarnation;
        InAlive (mkEnv 1 0) (alive.mk 1 "self" [] [])] (init exConfig)).1.

(** A peer still remembers an older run of this node and gossips an Alive
    about ["self"] with incarnation 5. *)
Definition exStale : Memberlist :=
  (run [InAlive (mkEnv 10 0) (alive.mk 5 "self" [] [])] exStarted).1.

(** The node has left: [m.leave] is set and its own record is Dead. *)
Definition exLeft : Memberlist :=
  (run [Leaving; InDead (mkEnv 10 0) (dead.mk 1 "self")] exStarted).1.

(** The incarnation the local view stores for [name]. *)
Definition incarnationOf (name : string) (m : Memberlist) : option Z :=
  p ← nodeMap m !! name; Incarnation <$> deref m p.

(** A table with a peer ["b"] that was seen alive and then suspected. *)
Definition exPeers : Memberlist :=
  (run [InAlive (mkEnv 10 0) (alive.mk 1 "self" [] []);
        InAlive (mkEnv 11 0) (alive.mk 7 "b" [] []);
        InSuspect (mkEnv 12 0) (suspect.mk 7 "b")] (init exConfig)).1.

Definition exB : NodeState := mkNodeState (mkNode "b" [] []) 7 StateSuspect 12.

(** ** Time *)

(** The clock readings an event takes. *)
Definition stamps (ev : event) : list Z :=
  match ev with
  | InAlive e _ | InSuspect e _ | InDead e _ | SuspicionTimer e _ _ => [now e]
  | InMerge remote | PushPullTick _ (inl remote) => (λ x, now x.1) <$> remote
  | ProbeTick _ pe => [now (penv pe)]
  | _ => []
  end.

(** How the heap may change while the clock reads one of [ts]: records are
    never freed, keep their identity, and a record whose [State] or
    [StateChange] moved carries one of the readings as its [StateChange]. *)
Definition evolves (ts : list Z) (h h' : list NodeState) : Prop :=
  ∀ p (st : NodeState), h !! p = Some st →
    ∃ st' : NodeState, h' !! p = Some st' ∧ toNode st' = toNode st ∧
      ((State st' = State st ∧ StateChange st' = StateChange st)
       ∨ StateChange st' ∈ ts).

(** The two-node table before ["b"] is suspected, and what follows a
    suspicion that ["b"] refutes. *)
Definition exTwo : Memberlist :=
  (run [InAlive (mkEnv 10 0) (alive.mk 1 "self" [] []);
        InAlive (mkEnv 11 0) (alive.mk 7 "b" [] [])] (init exConfig)).1.

Definition exRefuted : list event :=
  [InAlive (mkEnv 13 0) (alive.mk 8 "b" [] []);
   InSuspect (mkEnv 14 0) (suspect.mk 8 "b")].

(** The table of the reset scenario: ["a"] and ["b"] alive, ["x"] and
    ["y"] dead, ["c"] suspected. *)
Definition exSweep : Memberlist :=
  (run [InAlive (mkEnv 10 0) (alive.mk 1 "a" [] []);
        InAlive (mkEnv 11 0) (alive.mk 1 "x" [] []);
        InAlive (mkEnv 12 0) (alive.mk 1 "b" [] []);
        InAlive (mkEnv 13 0) (alive.mk 1 "y" [] []);
        InAlive (mkEnv 14 0) (alive.mk 1 "c" [] []);
        InDead (mkEnv 15 0) (dead.mk 1 "x");
        InDead (mkEnv 16 0) (dead.mk 1 "y");
        InSuspect (mkEnv 17 0) (suspect.mk 1 "c")] (init exConfig)).1.

(** A table with two live peers, and a probe whose ping is acknowledged. *)
Definition exThree : Memberlist :=
  (run [InAlive (mkEnv 10 0) (alive.mk 1 "self" [] []);
        InAlive (mkEnv 11 0) (alive.mk 1 "b" [] []);
        InAlive (mkEnv 12 0) (alive.mk 1 "c" [] [])] (init exConfig)).1.

Definition exAcked : probeEnv :=
  mkProbeEnv false (Some true) [] true (mkEnv 20 0).

(** ** Which activities run *)

(** A ticker among [ts] triggers the handler of activity [a]. *)
Definition armed (a : activity) (ts : list ticker) : Prop :=
  ∃ t, t ∈ ts ∧ fires t = a.

(** The period the configuration gives an activity. *)
Definition interval (c : Config.t) (a : activity) : Z :=
  match a with
  | Probe => Config.ProbeInterval c
  | PushPull => Config.PushPullInterval c
  | Gossip => Config.GossipInterval c
  end.

Definition exNoGossipNodes : Config.t :=
  Config.mk "self" 7946 1000 20 3 200 0 30000 5.

Definition exNoGossipInterval : Config.t :=
  Config.mk "self" 7946 1000 20 3 0 3 30000 5.

(** ** Counting what happens to a registration *)

(** A registration is named by the index of the reap timer created for it.
    [AckInvoked reg] marks a call of its handler by [invokeAckHandler],
    [AckReaped reg] a run of its reap timer. *)
Definition isInvoked (reg : nat) (x : effect) : bool :=
  match x with
  | AckInvoked r => Nat.eqb r reg
  | _ => false
  end.

Definition isReaped (reg : nat) (x : effect) : bool :=
  match x with
  | AckReaped r => Nat.eqb r reg
  | _ => false
  end.

Definition invocations (reg : nat) (log : list effect) : nat :=
  length (List.filter (isInvoked reg) log).

Definition reaps (reg : nat) (log : list effect) : nat :=
  length (List.filter (isReaped reg) log).

Definition uses (reg : nat) (log : list effect) : nat :=
  (invocations reg log + reaps reg log)%nat.

(** Effects that are no use of any registration. *)
Definition ackFree (x : effect) : bool :=
  match x with
  | AckInvoked _ | AckReaped _ => false
  | _ => true
  end.

(** The registry and the log of effects agree, whatever the order of
    events: an entry's timer was created for the entry's sequence number and
    the entry's handler was not called yet; the closure of a timer that is
    armed or has just expired has not run yet; a registration not made yet
    was not used; no handler was called twice and no closure ran twice. *)
Record ack_sound (hs : gmap Z ackHandler) (ts : list reapTimer)
    (log : list effect) : Prop := {
  sound_entries : ∀ seqNo ah, hs !! seqNo = Some ah →
    ∃ tm, ts !! timer ah = Some tm ∧ reapSeq tm = seqNo
          ∧ invocations (timer ah) log = 0%nat;
  sound_pending : ∀ t tm, ts !! t = Some tm →
    status tm = Armed ∨ status tm = Expired → reaps t log = 0%nat;
  sound_fresh : ∀ t, (length ts ≤ t)%nat → uses t log = 0%nat;
  sound_once : ∀ t, (invocations t log ≤ 1)%nat ∧ (reaps t log ≤ 1)%nat
}.

(** The timers [ts'] are the timers [ts] with some of them stopped, expired
    or done: same timers, and no closure that could not run any more can run
    again. *)
Definition timers_settle (ts ts' : list reapTimer) : Prop :=
  length ts' = length ts ∧
  ∀ t tm', ts' !! t = Some tm' →
    ∃ tm, ts !! t = Some tm ∧ reapSeq tm' = reapSeq tm ∧
          (status tm' = Armed ∨ status tm' = Expired →
           status tm = Armed ∨ status tm = Expired).

(** An event other than a timer expiring with its closure left for later. *)
Definition prompt (ev : event) : Prop :=
  match ev with
  | TimerExpires _ => False
  | _ => True
  end.

(** The registry and the log of effects agree, when every closure runs as
    its timer expires: every entry's timer is armed and was created for the
    entry's sequence number; no timer is left expired; an armed timer's
    registration was never used, nor one not made yet; none was used twice. *)
Record ack_ok (hs : gmap Z ackHandler) (ts : list reapTimer)
    (log : list effect) : Prop := {
  ack_entries : ∀ seqNo ah, hs !! seqNo = Some ah →
    ∃ tm, ts !! timer ah = Some tm ∧ status tm = Armed ∧ reapSeq tm = seqNo;
  ack_prompt : ∀ t tm, ts !! t = Some tm → status tm ≠ Expired;
  ack_armed : ∀ t tm, ts !! t = Some tm → status tm = Armed → uses t log = 0%nat;
  ack_fresh : ∀ t, (length ts ≤ t)%nat → uses t log = 0%nat;
  ack_once : ∀ t, (uses t log ≤ 1)%nat
}.

(** An operation that neither touches the registry nor uses a registration. *)
Definition ack_neutral (m : Memberlist) (r : Memberlist * list effect) : Prop :=
  ackHandlers r.1 = ackHandlers m ∧ timers r.1 = timers m ∧
  Forall (λ x, ackFree x = true) r.2.

(** A node waiting for the ack of sequence number 7 on channel 0. *)
Definition exWaiting : Memberlist := setAckChannel 7 0%nat 1000 (init exConfig).

(** The reap timer of [exWaiting] expires, but the ack arrives before the
    timer's closure gets to run. *)
Definition exLateAck : list event :=
  [AckChannel 7 0%nat 1000; TimerExpires 0%nat; InAck 7; ReapRuns 0%nat].

(** ** Messages that can revive a record *)

(** The event delivers an Alive about [name] with an incarnation of at
    least 1, directly or as a record of a state transfer. *)
Definition aliveAbout (name : string) (ev : event) : Prop :=
  match ev with
  | InAlive _ a => alive.Node a = name ∧ 1 ≤ alive.Incarnation a
  | InMerge remote | PushPullTick _ (inl remote) =>
      Exists (λ x, pushNodeState.Name x.2 = name
                   ∧ pushNodeState.State x.2 = StateAlive
                   ∧ 1 ≤ pushNodeState.Incarnation x.2) remote
  | _ => False
  end.

(** ** Incarnations of the peers *)

(** How the heap may change for the node called [self]: records are never
    freed, keep their identity, and the incarnation of a record about
    another node does not decrease. *)
Definition grows (self : string) (h h' : list NodeState) : Prop :=
  ∀ p (st : NodeState), h !! p = Some st →
    ∃ st' : NodeState, h' !! p = Some st' ∧ toNode st' = toNode st ∧
      (Name st ≠ self → Incarnation st ≤ Incarnation st').

(** ** Sequence numbers in a row *)

(** The values that [n] successive calls of [nextSeqNo] return. *)
Fixpoint drawSeqNos (n : nat) (m : Memberlist) : list Z :=
  match n with
  | O => []
  | S n' => let '(s, m') := nextSeqNo m in s :: drawSeqNos n' m'
  end.

(** ** What a message is about *)

(** The event delivers an Alive about [name] with an incarnation above
    [inc], directly or as a record of a state transfer. *)
Definition newerAlive (name : string) (inc : Z) (ev : event) : Prop :=
  match ev with
  | InAlive _ a => alive.Node a = name ∧ inc < alive.Incarnation a
  | InMerge remote | PushPullTick _ (inl remote) =>
      Exists (λ x, pushNodeState.Name x.2 = name
                   ∧ pushNodeState.State x.2 = StateAlive
                   ∧ inc < pushNodeState.Incarnation x.2) remote
  | _ => False
  end.

(** ** The local node's own record *)

(** An event other than the start of a voluntary leave. *)
Definition staying (ev : event) : Prop :=
  match ev with
  | Leaving => False
  | _ => True
  end.

(** How the heap may change while the node [self] is not leaving: an Alive
    record of the node itself stays allocated, keeps its identity and stays
    Alive. *)
Definition keeps_self_alive (self : string) (h h' : list NodeState) : Prop :=
  ∀ p (st : NodeState), h !! p = Some st →
    Name st = self → State st = StateAlive →
    ∃ st' : NodeState, h' !! p = Some st' ∧ toNode st' = toNode st ∧
      State st' = StateAlive.

(** ** Join and leave notifications *)

(** The channel on which the effect notifies about the node [name], if it
    is such a notification. *)
Definition notified (name : string) (x : effect) : option notifyCh :=
  match x with
  | Notify ch nd => if String.eqb (Name nd) name then Some ch else None
  | _ => None
  end.

(** A listener on [JoinCh] and [LeaveCh] that keeps track of whether
    [name] is a member reads a log: a join is in turn for a non-member, a
    leave for a member.  The result is the membership after the log, or
    [None] if a notification came out of turn. *)
Fixpoint membership (name : string) (joined : bool) (log : list effect)
  : option bool :=
  match log with
  | [] => Some joined
  | x :: rest =>
      match notified name x with
      | None => membership name joined rest
      | Some JoinCh => if joined then None else membership name true rest
      | Some LeaveCh => if joined then membership name false rest else None
      end
  end.

(** The table holds a record for [name] that is not Dead. *)
Definition isMember (name : string) (m : Memberlist) : bool :=
  match nodeMap m !! name with
  | Some p =>
      match deref m p with
      | Some st => negb (State st =? StateDead)
      | None => false
      end
  | None => false
  end.

(** A node joins, is suspected, dies, is swept from the table by the
    second of two probe ticks, and joins again. *)
Definition exComeAndGo : list event :=
  [InAlive (mkEnv 10 0) (alive.mk 1 "b" [] []);
   InSuspect (mkEnv 11 0) (suspect.mk 1 "b");
   SuspicionTimer (mkEnv 12 0) 0%nat 11;
   ProbeTick (λ _ _, 0%nat) exAcked;
   ProbeTick (λ _ _, 0%nat) exAcked;
   InAlive (mkEnv 13 0) (alive.mk 2 "b" [] [])].

(** ** State transfers *)

(** The local table holds a record for the name of the remote record [r],
    in the same State. *)
Definition agrees (m : Memberlist) (r : pushNodeState.t) : Prop :=
  ∃ (p : ptr) (local : NodeState),
    nodeMap m !! pushNodeState.Name r = Some p ∧ deref m p = Some local ∧
    State local = pushNodeState.State r.

(** A remote view that has ["b"] alive with incarnation 9, as [exTwo] has
    it with incarnation 7. *)
Definition exRemote : list (env * pushNodeState.t) :=
  [(mkEnv 20 0, pushNodeState.mk "b" [] [] 9 StateAlive);
   (mkEnv 21 0, pushNodeState.mk "self" [] [] 4 StateAlive)].

(** ** What a probe leaves behind *)


(** A probe whose ping and indirect pings stay unanswered. *)
Definition exSilent : probeEnv :=
  mkProbeEnv false None [(1%nat, false)] false (mkEnv 20 0).

(** ** Stopping the tickers *)

(** What [deschedule] does outside the struct: [t.Stop()] on a ticker, and
    a send on [m.stopTick], on which one goroutine running [triggerFunc]
    returns. *)
Inductive stopEffect :=
| StopTicker (t : ticker)
| SendStopTick.

(** [deschedule] *)
Definition deschedule (m : Memberlist) : Memberlist * list stopEffect :=
  (set_tickers [] m,
   flat_map (λ t, [StopTicker t; SendStopTick]) (tickers m)).

(** The tickers that one call of [schedule] creates under the
    configuration [c], each with a goroutine running [triggerFunc]. *)
Definition started (c : Config.t) : list ticker :=
  (if 0 <? Config.ProbeInterval c
   then [mkTicker (Config.ProbeInterval c) Probe] else [])
  ++ (if 0 <? Config.PushPullInterval c
      then [mkTicker (Config.PushPullInterval c) PushPull] else [])
  ++ (if 0 <? Config.GossipNodes c
      then [mkTicker (Config.GossipInterval c) Gossip] else []).

(** The stop signals among the effects of [deschedule]. *)
Definition stopSignals (out : list stopEffect) : nat :=
  length (List.filter (λ x, match x with SendStopTick => true | _ => false end)
            out).

(** ** Entries of the registry and their timers *)

(** Every entry of the registry has a reap timer that was created for the
    entry's sequence number and whose closure is still to run. *)
Definition entries_pending (hs : gmap Z ackHandler) (ts : list reapTimer)
  : Prop :=
  ∀ seqNo ah, hs !! seqNo = Some ah →
    ∃ tm, ts !! timer ah = Some tm ∧ reapSeq tm = seqNo ∧
          (status tm = Armed ∨ status tm = Expired).

(** ** Broadcasts *)

(** The effect queues a broadcast under the name [name]. *)
Definition broadcastFor (name : string) (x : effect) : bool :=
  match x with
  | Broadcast n _ => String.eqb n name
  | _ => false
  end.

(** ** Gossip *)

(** What [gossip] does outside the struct: the compound message made of
    [msgs], handed to [rawSendMsg] for an address and a port, and a line of
    the log. *)
Inductive gossipEffect :=
| RawSend (to : bytes) (port : Z) (msgs : list bytes)
| GossipLog (line : string).

(** The loop of [gossip] over the records that [kRandomNodes] picked, from
    its [i]-th iteration on: [pending i] is what the call of
    [getBroadcasts] in that iteration returns, and [fails i] tells whether
    [rawSendMsg] then returns an error. *)
Fixpoint gossipLoop (port : Z) (pending : nat → list bytes)
    (fails : nat → bool) (i : nat) (kNodes : list NodeState)
  : list gossipEffect :=
  match kNodes with
  | [] => []
  | node :: rest =>
      let msgs := pending i in
      if (length msgs =? 0)%nat then []
      else
        RawSend (Addr node) port msgs
          :: (if fails i
              then [GossipLog "[ERR] Failed to send gossip"] else [])
          ++ gossipLoop port pending fails (S i) rest
  end.

(** [gossip]; [kNodes] is what
    [kRandomNodes(m.config.GossipNodes, excludes, m.nodes)] returns. *)
Definition gossip (kNodes : list NodeState) (pending : nat → list bytes)
    (fails : nat → bool) (m : Memberlist) : list gossipEffect :=
  gossipLoop (Config.UDPPort (config m)) pending fails 0 kNodes.

(** The compound messages sent, in order: address and parts. *)
Fixpoint sends (out : list gossipEffect) : list (bytes * list bytes) :=
  match out with
  | [] => []
  | RawSend to _ msgs :: rest => (to, msgs) :: sends rest
  | GossipLog _ :: rest => sends rest
  end.

(** ** Records outside the table *)

(** Every record that is not Dead is the mapping's entry for its name: the
    records that the sweep has dropped from the table are Dead. *)
Definition owned (m : Memberlist) : Prop :=
  ∀ (p : ptr) (st : NodeState), deref m p = Some st →
    State st ≠ StateDead → nodeMap m !! Name st = Some p.

(** * Properties *)

(** ** Exchanging two positions permutes a list *)

Section swap.
Context {A : Type}.
Implicit Types (l : list A) (i j : nat).

Lemma swap_length l i j : length (swap l i j) = length l.
Proof.
  unfold swap. repeat case_match; rewrite ?length_insert; done.
Qed.

Lemma insert_head_Permutation l j (a y : A) :
  l !! j = Some y → y :: <[j := a]> l ≡ₚ a :: l.
Proof.
  revert j. induction l as [|b l IH]; intros [|j] Hj; simplify_eq/=.
  - apply perm_swap.
  - rewrite perm_swap. rewrite (IH _ Hj). apply perm_swap.
Qed.

Lemma swap_Permutation l i j : swap l i j ≡ₚ l.
Proof.
  revert i j. induction l as [|a l IH]; intros i j; [done|].
  unfold swap. destruct i as [|i], j as [|j]; simpl.
  - done.
  - destruct (l !! j) as [y|] eqn:Hj; [|done]. by apply insert_head_Permutation.
  - destruct (l !! i) as [x|] eqn:Hi; [|done]. by apply insert_head_Permutation.
  - specialize (IH i j). unfold swap in IH.
    destruct (l !! i), (l !! j); try done. by constructor.
Qed.

Lemma elem_of_swap l i j x : x ∈ swap l i j ↔ x ∈ l.
Proof. by rewrite swap_Permutation. Qed.

Lemma NoDup_swap l i j : NoDup (swap l i j) ↔ NoDup l.
Proof. by rewrite swap_Permutation. Qed.
End swap.

Lemma shuffleNodes_Permutation draws ns : shuffleNodes draws ns ≡ₚ ns.
Proof.
  unfold shuffleNodes. generalize (seq 0 (length ns)).
  intros ixs. revert ns. induction ixs as [|i ixs IH]; intros ns; [done|].
  simpl. rewrite IH. apply swap_Permutation.
Qed.

Lemma I1t_store nm ns h (p : ptr) (st st' : NodeState) :
  I1t nm ns h → h !! p = Some st → Name st' = Name st →
  I1t nm ns (<[p := st']> h).
Proof.
  intros [H1 H2 H3 H4] Hp Hn. split; auto.
  - intros k q Hk. destruct (H1 k q Hk) as (sq & Hq & Hkq).
    destruct (decide (p = q)) as [->|Hne].
    + exists st'. rewrite list_lookup_insert_eq by (by eapply lookup_lt_Some).
      split; [done|]. congruence.
    + exists sq. by rewrite list_lookup_insert_ne.
  - intros q Hq. destruct (H3 q Hq) as (sq & Hsq & Hm).
    destruct (decide (p = q)) as [->|Hne].
    + exists st'. rewrite list_lookup_insert_eq by (by eapply lookup_lt_Some).
      split; [done|]. rewrite Hn. congruence.
    + exists sq. by rewrite list_lookup_insert_ne.
Qed.

Lemma I1t_fresh nm ns h :
  I1t nm ns h → length h ∉ ns.
Proof.
  intros [_ _ H3 _] Hin. destruct (H3 _ Hin) as (st & Hst & _).
  apply lookup_lt_Some in Hst. lia.
Qed.

Lemma I1t_create nm ns h (st : NodeState) i j :
  I1t nm ns h → nm !! Name st = None →
  I1t (<[Name st := length h]> nm) (swap (ns ++ [length h]) i j) (h ++ [st]).
Proof.
  intros HI Hnone. pose proof (I1t_fresh _ _ _ HI) as Hfresh.
  destruct HI as [H1 H2 H3 H4]. split.
  - intros k q. rewrite lookup_insert. case_decide as Hk; intros Hq; simplify_eq.
    + exists st. split; [|done]. by rewrite lookup_app_r, Nat.sub_diag.
    + destruct (H1 k q Hq) as (sq & Hsq & Hkq). exists sq. split; [|done].
      by apply lookup_app_l_Some.
  - intros k q. rewrite lookup_insert, elem_of_swap, elem_of_app, list_elem_of_singleton.
    case_decide; intros Hq; simplify_eq; eauto.
  - intros q. rewrite elem_of_swap, elem_of_app, list_elem_of_singleton.
    intros [Hq| ->].
    + destruct (H3 q Hq) as (sq & Hsq & Hm). exists sq.
      split; [by apply lookup_app_l_Some|].
      rewrite lookup_insert_ne; [done|]. intros Heq. congruence.
    + exists st. split; [by rewrite lookup_app_r, Nat.sub_diag|].
      by rewrite lookup_insert_eq.
  - rewrite NoDup_swap. apply NoDup_app. split_and!; [done| |apply NoDup_singleton].
    intros x Hx Hx'. apply list_elem_of_singleton in Hx'. by subst.
Qed.

Lemma self_never_suspect_store c h (p : ptr) (st' : NodeState) :
  self_never_suspect c h →
  (Name st' = Config.Name c → State st' ≠ StateSuspect) →
  self_never_suspect c (<[p := st']> h).
Proof.
  intros Hh Hst q sq Hq Hself.
  apply list_lookup_insert_Some in Hq as [(-> & -> & _)|[_ Hq]]; eauto.
Qed.

Lemma self_never_suspect_app c h (st : NodeState) :
  self_never_suspect c h →
  (Name st = Config.Name c → State st ≠ StateSuspect) →
  self_never_suspect c (h ++ [st]).
Proof.
  intros Hh Hst q sq Hq Hself.
  apply lookup_app_Some in Hq as [Hq|[_ Hq]]; [by eauto|].
  apply list_lookup_singleton_Some in Hq as [_ ->]. auto.
Qed.

Lemma states_known_store h (p : ptr) (st' : NodeState) :
  states_known h →
  State st' = StateAlive ∨ State st' = StateSuspect ∨ State st' = StateDead →
  states_known (<[p := st']> h).
Proof.
  intros Hh Hst q sq Hq.
  apply list_lookup_insert_Some in Hq as [(-> & -> & _)|[_ Hq]]; eauto.
Qed.

Lemma states_known_app h (st : NodeState) :
  states_known h →
  State st = StateAlive ∨ State st = StateSuspect ∨ State st = StateDead →
  states_known (h ++ [st]).
Proof.
  intros Hh Hst q sq Hq.
  apply lookup_app_Some in Hq as [Hq|[_ Hq]]; [by eauto|].
  apply list_lookup_singleton_Some in Hq as [_ ->]. auto.
Qed.

Lemma Inv_init c : Inv (init c).
Proof.
  split.
  - split; simpl; try done.
    + intros p Hp. by apply elem_of_nil in Hp.
    + constructor.
  - intros p st Hp. done.
  - intros p st Hp. done.
Qed.

Lemma Inv_store m (p : ptr) (st st' : NodeState) :
  Inv m → deref m p = Some st → toNode st' = toNode st →
  (Name st' = Config.Name (config m) → State st' ≠ StateSuspect) →
  State st' = StateAlive ∨ State st' = StateSuspect ∨ State st' = StateDead →
  Inv (store p st' m).
Proof.
  intros [H1 H2 H3] Hp Hn Hs Hk. split; simpl.
  - eapply I1t_store; eauto. by rewrite Hn.
  - by apply self_never_suspect_store.
  - by apply states_known_store.
Qed.

Lemma Inv_create e a m :
  Inv m → nodeMap m !! alive.Node a = None →
  Inv (aliveNode_create e a m).2.
Proof.
  intros [H1 H2 H3] Hnone. split; simpl.
  - by apply (I1t_create _ _ _
      (mkNodeState (mkNode (alive.Node a) (alive.Addr a) (alive.Meta a)) 0 StateDead 0)).
  - apply self_never_suspect_app; [done|]. simpl. done.
  - apply states_known_app; [done|]. simpl. auto.
Qed.

Lemma Inv_set_incarnation n m : Inv (set_incarnation n m) ↔ Inv m.
Proof. split; intros [H1 H2 H3]; by split. Qed.

Lemma create_deref e a m :
  deref (aliveNode_create e a m).2 (aliveNode_create e a m).1
  = Some (mkNodeState (mkNode (alive.Node a) (alive.Addr a) (alive.Meta a)) 0 StateDead 0).
Proof. simpl. by rewrite lookup_app_r, Nat.sub_diag. Qed.

Lemma aliveNode_Inv e a m : Inv m → Inv (aliveNode e a m).1.
Proof.
  intros HI. unfold aliveNode.
  destruct (nodeMap m !! alive.Node a) as [p|] eqn:Hm.
  - destruct (deref m p) as [st|] eqn:Hp; [|done].
    case_match; [done|]. simpl.
    eapply Inv_store; eauto.
    + by case_match.
    + case_match; simpl; [done|]. intros _.
      destruct (State st =? StateAlive) eqn:E; [|done]. apply Z.eqb_eq in E.
      rewrite E. done.
    + case_match; simpl; auto. destruct (State st =? StateAlive) eqn:E; [|done].
      apply Z.eqb_eq in E. auto.
  - pose proof (Inv_create e a m HI Hm) as HI'.
    pose proof (create_deref e a m) as Hd.
    destruct (aliveNode_create e a m) as [p m1]. simpl in *.
    rewrite Hd. case_match; [done|]. simpl.
    eapply Inv_store; eauto; simpl; auto.
Qed.

Lemma suspectNode_Inv e s m : Inv m → Inv (suspectNode e s m).1.
Proof.
  intros HI. unfold suspectNode, nextIncarnation.
  destruct (nodeMap m !! suspect.Node s) as [p|] eqn:Hm; [|done].
  destruct (deref m p) as [st|] eqn:Hp; [|done].
  repeat case_match; try done; simpl.
  - eapply Inv_store; [by apply Inv_set_incarnation|done|done|..]; simpl.
    + intros _ Hs. destruct (State st =? StateAlive) eqn:E; [|done].
      apply Z.eqb_eq in E. rewrite E in Hs. done.
    + destruct (State st =? StateAlive) eqn:E; [|done]. apply Z.eqb_eq in E. auto.
  - eapply Inv_store; eauto; simpl; auto.
    intros Hn. rewrite Hn, String.eqb_refl in *. done.
Qed.

Lemma deadNode_Inv e d m : Inv m → Inv (deadNode e d m).1.
Proof.
  intros HI. unfold deadNode, nextIncarnation.
  destruct (nodeMap m !! dead.Node d) as [p|] eqn:Hm; [|done].
  destruct (deref m p) as [st|] eqn:Hp; [|done].
  repeat case_match; try done; simpl.
  - eapply Inv_store; [by apply Inv_set_incarnation|done|done|..]; simpl.
    + intros Hn. eapply inv_self; eauto.
    + eapply inv_states; eauto.
  - eapply Inv_store; eauto; simpl; auto.
Qed.

(** ** The reset sweep keeps the table well formed *)

Lemma deregister_lookup h ds nm k (q : ptr) :
  deregister h nm ds !! k = Some q ↔
  nm !! k = Some q ∧ ∀ p (st : NodeState), p ∈ ds → h !! p = Some st → Name st ≠ k.
Proof.
  unfold deregister. revert nm. induction ds as [|d ds IH]; intros nm; simpl.
  - split; [intros H; split; [done|]|by intros [H _]].
    intros p st Hp. by apply elem_of_nil in Hp.
  - rewrite IH. destruct (h !! d) as [sd|] eqn:Hd.
    + rewrite lookup_delete_Some. split.
      * intros [[Hne Hk] Hall]. split; [done|].
        intros p st Hp Hst. apply elem_of_cons in Hp as [->|Hp]; [congruence|eauto].
      * intros [Hk Hall]. split_and!; [|done|].
        -- eapply Hall; [left|done].
        -- intros p st Hp. apply Hall. by right.
    + split; intros [Hk Hall]; (split; [done|]); intros p st Hp Hst.
      * apply elem_of_cons in Hp as [->|Hp]; [congruence|eauto].
      * eapply Hall; [by right|done].
Qed.

Lemma resetNodes_nodes draws m :
  nodes (resetNodes draws m) ≡ₚ filter (λ p, isDead (heap m) p = false) (nodes m).
Proof.
  unfold resetNodes, moveDeadNodes. simpl.
  rewrite shuffleNodes_Permutation. by rewrite take_app_length.
Qed.

Lemma resetNodes_nodeMap draws m :
  nodeMap (resetNodes draws m)
  = deregister (heap m) (nodeMap m) (filter (λ p, isDead (heap m) p = true) (nodes m)).
Proof.
  unfold resetNodes, moveDeadNodes, deregister. simpl. by rewrite drop_app_length.
Qed.

Lemma resetNodes_lookup draws m k (q : ptr) :
  I1 m →
  nodeMap (resetNodes draws m) !! k = Some q ↔
  nodeMap m !! k = Some q ∧ isDead (heap m) q = false.
Proof.
  intros [H1 H2 H3 H4]. rewrite resetNodes_nodeMap, deregister_lookup.
  split; intros [Hk Hall]; (split; [done|]).
  - destruct (isDead (heap m) q) eqn:Hq; [|done]. exfalso.
    destruct (H1 _ _ Hk) as (st & Hst & Hn).
    eapply (Hall q st); [|done..]. apply list_elem_of_filter. eauto.
  - intros p st Hp Hst Hn. apply list_elem_of_filter in Hp as [Hdead Hp].
    destruct (H3 _ Hp) as (st' & Hst' & Hm). simplify_eq. congruence.
Qed.

Lemma resetNodes_I1 draws m : I1 m → I1 (resetNodes draws m).
Proof.
  intros HI. pose proof HI as [H1 H2 H3 H4]. split.
  - intros k p Hk. apply resetNodes_lookup in Hk as [Hk _]; [|done]. eauto.
  - intros k p Hk. apply resetNodes_lookup in Hk as [Hk Hl]; [|done].
    rewrite resetNodes_nodes. apply list_elem_of_filter. eauto.
  - intros p. rewrite resetNodes_nodes. intros [Hl Hp]%list_elem_of_filter.
    destruct (H3 _ Hp) as (st & Hst & Hm). exists st. split; [done|].
    by apply resetNodes_lookup.
  - rewrite resetNodes_nodes. by apply NoDup_filter.
Qed.

Lemma resetNodes_Inv draws m : Inv m → Inv (resetNodes draws m).
Proof.
  intros [H1 H2 H3]. split; [by apply resetNodes_I1|done..].
Qed.

Lemma Inv_frame m m' :
  config m' = config m → nodeMap m' = nodeMap m → nodes m' = nodes m →
  heap m' = heap m → Inv m → Inv m'.
Proof.
  intros Hc Hm Hn Hh [H1 H2 H3]. split; unfold I1; rewrite ?Hc, ?Hm, ?Hn, ?Hh; done.
Qed.

Lemma suspectTimeout_Inv e n m : Inv m → Inv (suspectTimeout e n m).1.
Proof. intros HI. unfold suspectTimeout. case_match; [by apply deadNode_Inv|done]. Qed.

Lemma suspicionFire_Inv e p t m : Inv m → Inv (suspicionFire e p t m).1.
Proof.
  intros HI. unfold suspicionFire. repeat case_match; try done.
  by apply suspectTimeout_Inv.
Qed.

Lemma mergeState_Inv remote m : Inv m → Inv (mergeState remote m).1.
Proof.
  revert m. induction remote as [|[e r] rest IH]; intros m HI; [done|].
  simpl.
  match goal with |- context [if ?a then (m, []) else ?b] =>
    assert (Inv (if a then (m, []) else b).1) as HI1;
    [|destruct (if a then (m, []) else b) as [m1 out1]] end.
  { repeat case_match; simpl; auto using aliveNode_Inv, suspectNode_Inv, deadNode_Inv. }
  specialize (IH m1 HI1). destruct (mergeState rest m1). done.
Qed.

Lemma probeNode_Inv pe node m : Inv m → Inv (probeNode pe node m).1.
Proof.
  intros HI. unfold probeNode, nextSeqNo.
  destruct (deref m node) as [target|]; [|done]. simpl.
  set (m2 := setAckChannel _ _ _ _).
  assert (Inv m2) as HI2 by (by eapply Inv_frame; [..|exact HI]).
  destruct (pingFails pe); [done|].
  destruct (directAck pe) as [[]|]; try done.
  all: destruct (indirectAck pe); [exact HI2|].
  all: destruct (deref m node) as [cur|]; [|exact HI2].
  all: pose proof (suspectNode_Inv (penv pe)
         (suspect.mk (Incarnation cur) (Name cur)) m2 HI2) as HI3.
  all: destruct (suspectNode _ _ m2); exact HI3.
Qed.


Lemma probeLoop_Inv fuel draws k m m' sel :
  Inv m → probeLoop fuel draws k m = Some (m', sel) → Inv m'.
Proof.
  revert k m. induction fuel as [|fuel IH]; intros k m HI; simpl; [done|].
  repeat case_match; intros ?; simplify_eq; try done.
  - eapply IH; [|done]. eapply Inv_frame; [..|by apply (resetNodes_Inv (draws k))]; done.
  - eapply IH; [|done]. by eapply Inv_frame; [..|exact HI].
  - eapply IH; [|done]. by eapply Inv_frame; [..|exact HI].
Qed.

Lemma probe_Inv draws pe m r : Inv m → probe draws pe m = Some r → Inv r.1.
Proof.
  intros HI. unfold probe.
  destruct (probeLoop _ _ _ _) as [[m' [node|]]|] eqn:Hl; intros ?; simplify_eq.
  - apply probeNode_Inv. by eapply probeLoop_Inv.
  - by eapply probeLoop_Inv.
Qed.

Lemma pushPull_Inv picked reply m : Inv m → Inv (pushPull picked reply m).1.
Proof.
  intros HI. unfold pushPull, pushPullNode.
  destruct picked as [|p ?]; [done|]. destruct (deref m p); [|done].
  destruct reply as [remote|err]; [|done].
  pose proof (mergeState_Inv remote m HI). destruct (mergeState remote m). done.
Qed.

Lemma table_same_refl m : table_same m m.
Proof. by split_and!. Qed.

Lemma invokeAckHandler_same seqNo m : table_same m (invokeAckHandler seqNo m).1.
Proof. unfold invokeAckHandler, stopTimer. repeat case_match; by split_and!. Qed.

Lemma timerExpires_same t m : table_same m (timerExpires t m).
Proof. unfold timerExpires. repeat case_match; by split_and!. Qed.

Lemma reapClosure_same t m : table_same m (reapClosure t m).1.
Proof. unfold reapClosure. repeat case_match; by split_and!. Qed.

Lemma reapFire_same t m : table_same m (reapFire t m).1.
Proof.
  unfold reapFire. repeat case_match; try apply table_same_refl.
  destruct (reapClosure_same t (timerExpires t m)) as (Hc & Hm & Hn & Hh).
  destruct (timerExpires_same t m) as (Hc' & Hm' & Hn' & Hh').
  split_and!; congruence.
Qed.

(** The events that leave the table alone. *)
Local Ltac same_table :=
  first [ apply invokeAckHandler_same | apply reapFire_same
        | apply reapClosure_same | apply timerExpires_same
        | apply table_same_refl | by split_and! ].

Lemma Inv_same m m' : table_same m m' → Inv m → Inv m'.
Proof. intros (? & ? & ? & ?). by apply Inv_frame. Qed.

Lemma step_Inv ev m : Inv m → Inv (step ev m).1.
Proof.
  intros HI. destruct ev; simpl; try (apply (Inv_same m); [same_table|done]).
  - by apply aliveNode_Inv.
  - by apply suspectNode_Inv.
  - by apply deadNode_Inv.
  - by apply mergeState_Inv.
  - by apply suspicionFire_Inv.
  - destruct (probe draws pe m) as [r|] eqn:Hp; [by eapply probe_Inv|done].
  - by apply pushPull_Inv.
Qed.

Lemma run_Inv evs m : Inv m → Inv (run evs m).1.
Proof.
  revert m. induction evs as [|ev evs IH]; intros m HI; [done|].
  simpl. pose proof (step_Inv ev m HI) as H1. destruct (step ev m) as [m1 out].
  specialize (IH m1 H1). destruct (run evs m1). done.
Qed.

Lemma reachable_Inv m : reachable m → Inv m.
Proof. intros (c & evs & ->). apply run_Inv, Inv_init. Qed.

(** ** Refutation (C1, C2) *)

Lemma uint32_add1_small x : 0 ≤ x < 2 ^ 32 - 1 → uint32_add1 x = x + 1.
Proof. intros H. unfold uint32_add1. apply Z.mod_small. lia. Qed.

Lemma refute_result m (p : ptr) (st : NodeState) name :
  deref m p = Some st →
  incarnation m = Incarnation st →
  0 ≤ Incarnation st < 2 ^ 32 - 1 →
  name = Name st →
  refutes m p st
    (store p (with_Incarnation (uint32_add1 (incarnation m)) st)
       (set_incarnation (uint32_add1 (incarnation m)) m),
     [Broadcast name
        (aliveMsg (alive.mk (uint32_add1 (incarnation m)) (Name st) (Addr st) (Meta st)))]).
Proof.
  intros Hp Hc Hr ->. rewrite Hc, uint32_add1_small by done.
  unfold refutes; simpl. split_and!; try done.
  apply list_lookup_insert_eq. by eapply lookup_lt_Some.
Qed.

(** C1, as amended.  A Suspect about the local node that finds its record
    Alive, and a Dead about it that finds the record not Dead while no leave
    was initiated, with an incarnation not below the record's, are refuted:
    provided the counter [m.incarnation] agrees with the record's incarnation
    (and is not the last [uint32]), an Alive with the record's previous
    incarnation plus one is broadcast, the record and the counter take that
    incarnation, and the record's State does not change. *)
Theorem refutation e m (p : ptr) (st : NodeState) :
  nodeMap m !! Config.Name (config m) = Some p →
  deref m p = Some st →
  Name st = Config.Name (config m) →
  incarnation m = Incarnation st →
  0 ≤ Incarnation st < 2 ^ 32 - 1 →
  (∀ s, suspect.Node s = Config.Name (config m) →
        Incarnation st ≤ suspect.Incarnation s →
        State st = StateAlive →
        refutes m p st (suspectNode e s m)) ∧
  (∀ d, dead.Node d = Config.Name (config m) →
        Incarnation st ≤ dead.Incarnation d →
        leave m = false →
        State st ≠ StateDead →
        refutes m p st (deadNode e d m)).
Proof.
  intros Hm Hp Hn Hc Hr. split.
  - intros s Hs Hi Ha. unfold suspectNode, nextIncarnation.
    rewrite Hs, Hm, Hp.
    destruct (Z.ltb_spec (suspect.Incarnation s) (Incarnation st)); [lia|].
    rewrite Ha. simpl. rewrite Hn, String.eqb_refl. rewrite <- Hn.
    apply refute_result; auto.
  - intros d Hd Hi Hl Ha. unfold deadNode, nextIncarnation.
    rewrite Hd, Hm, Hp.
    destruct (Z.ltb_spec (dead.Incarnation d) (Incarnation st)); [lia|].
    destruct (Z.eqb_spec (State st) StateDead); [done|].
    rewrite Hn, String.eqb_refl, Hl. simpl. rewrite <- Hn.
    apply refute_result; auto.
Qed.

(** The theorem applied to a node that has just announced itself. *)
Lemma refutation_witness :
  refutes exStarted 0%nat (exSelf 1 StateAlive)
    (suspectNode (mkEnv 11 0) (suspect.mk 4 "self") exStarted) ∧
  refutes exStarted 0%nat (exSelf 1 StateAlive)
    (deadNode (mkEnv 11 0) (dead.mk 1 "self") exStarted).
Proof.
  destruct (refutation (mkEnv 11 0) exStarted 0%nat (exSelf 1 StateAlive))
    as [Hs Hd]; [reflexivity | reflexivity | reflexivity | reflexivity
                | simpl; lia | ].
  split.
  - apply Hs; [reflexivity | simpl; lia | reflexivity].
  - apply Hd; [reflexivity | simpl; lia | reflexivity | discriminate].
Defined.

(** C1 as stated fails.  On [exStale] the record of the local node is Alive
    with incarnation 5 while the counter is 1: a Suspect or a Dead with
    incarnation 5 is answered with an Alive of incarnation 2, not 6.  On
    [exLeft] the record is Dead: a Suspect about the local node is ignored. *)
Lemma refutation_as_stated_fails :
  (nodeMap exStale !! "self" = Some 0%nat ∧
   deref exStale 0%nat = Some (exSelf 5 StateAlive) ∧
   leave exStale = false ∧
   (suspectNode (mkEnv 11 0) (suspect.mk 5 "self") exStale).2
     = [Broadcast "self" (aliveMsg (alive.mk 2 "self" [] []))] ∧
   (deadNode (mkEnv 11 0) (dead.mk 5 "self") exStale).2
     = [Broadcast "self" (aliveMsg (alive.mk 2 "self" [] []))] ∧
   ¬ refutes exStale 0%nat (exSelf 5 StateAlive)
       (suspectNode (mkEnv 11 0) (suspect.mk 5 "self") exStale) ∧
   ¬ refutes exStale 0%nat (exSelf 5 StateAlive)
       (deadNode (mkEnv 11 0) (dead.mk 5 "self") exStale)) ∧
  (nodeMap exLeft !! "self" = Some 0%nat ∧
   deref exLeft 0%nat = Some (mkNodeState (mkNode "self" [] []) 1 StateDead 10) ∧
   suspectNode (mkEnv 11 0) (suspect.mk 1 "self") exLeft = (exLeft, []) ∧
   ¬ refutes exLeft 0%nat (mkNodeState (mkNode "self" [] []) 1 StateDead 10)
       (suspectNode (mkEnv 11 0) (suspect.mk 1 "self") exLeft)).
Proof.
  split; split_and!; try reflexivity.
  - intros (H & _). vm_compute in H. discriminate.
  - intros (H & _). vm_compute in H. discriminate.
  - intros (H & _). vm_compute in H. discriminate.
Qed.

(** C2, evaluated where it fails.  The local view's incarnation for ["self"]
    is 1; an Alive with incarnation 5 raises it to 5; the refutation of the
    Suspect that follows lowers it to 2. *)
Theorem stale_refutation_lowers_incarnation :
  let ev1 := InAlive (mkEnv 10 0) (alive.mk 5 "self" [] []) in
  let ev2 := InSuspect (mkEnv 11 0) (suspect.mk 5 "self") in
  incarnationOf "self" exStarted = Some 1 ∧
  incarnationOf "self" (run [ev1] exStarted).1 = Some 5 ∧
  incarnationOf "self" (run [ev1; ev2] exStarted).1 = Some 2.
Proof. split_and!; reflexivity. Qed.

(** ** Tie-break at equal incarnation (C3) *)

Lemma with_Incarnation_same (st : NodeState) : with_Incarnation (Incarnation st) st = st.
Proof. by destruct st. Qed.

(** C3.  In every state the node can reach, at equal incarnation: a Suspect
    changes nothing for a record that is Suspect or Dead; a Dead turns a
    Suspect record into a Dead one (and is re-broadcast, with a Leave
    notification); an Alive whose incarnation does not exceed the stored one
    changes nothing. *)
Theorem tie_break e m name (p : ptr) (st : NodeState) :
  reachable m →
  nodeMap m !! name = Some p →
  deref m p = Some st →
  (State st = StateSuspect ∨ State st = StateDead →
   ∀ s, suspect.Node s = name → suspect.Incarnation s = Incarnation st →
        suspectNode e s m = (m, [])) ∧
  (State st = StateSuspect →
   ∀ d, dead.Node d = name → dead.Incarnation d = Incarnation st →
        deadNode e d m =
          (store p (with_State StateDead (now e) st) m,
           [Broadcast name (deadMsg d); Notify LeaveCh (toNode st)])) ∧
  (∀ a, alive.Node a = name → alive.Incarnation a ≤ Incarnation st →
        aliveNode e a m = (m, [])).
Proof.
  intros Hreach Hm Hp. apply reachable_Inv in Hreach as [HI Hself Hknown].
  split_and!.
  - intros Hs s Hn Hi. unfold suspectNode. rewrite Hn, Hm, Hp, Hi, Z.ltb_irrefl.
    destruct Hs as [-> | ->]; done.
  - intros Hs d Hn Hi. unfold deadNode. rewrite Hn, Hm, Hp, Hi, Z.ltb_irrefl, Hs.
    simpl. destruct (String.eqb_spec (Name st) (Config.Name (config m))) as [Heq|Hne].
    + by destruct (Hself p st Hp Heq).
    + simpl. by rewrite with_Incarnation_same.
  - intros a Hn Hi. unfold aliveNode. rewrite Hn, Hm, Hp.
    destruct (Z.leb_spec (alive.Incarnation a) (Incarnation st)); [done|lia].
Qed.

(** The theorem applied to the suspected peer of [exPeers]. *)
Lemma tie_break_witness :
  suspectNode (mkEnv 20 0) (suspect.mk 7 "b") exPeers = (exPeers, []) ∧
  deadNode (mkEnv 20 0) (dead.mk 7 "b") exPeers =
    (store 1%nat (with_State StateDead 20 exB) exPeers,
     [Broadcast "b" (deadMsg (dead.mk 7 "b")); Notify LeaveCh (toNode exB)]) ∧
  aliveNode (mkEnv 20 0) (alive.mk 7 "b" [] []) exPeers = (exPeers, []).
Proof.
  destruct (tie_break (mkEnv 20 0) exPeers "b" 1%nat exB) as (Hs & Hd & Ha).
  - eexists exConfig, _. reflexivity.
  - reflexivity.
  - reflexivity.
  - split_and!.
    + apply Hs; [left|..]; reflexivity.
    + apply Hd; reflexivity.
    + apply Ha; [reflexivity | simpl; lia].
Defined.

(** ** The suspicion timer (C4) *)

Lemma evolves_refl ts h : evolves ts h h.
Proof. intros p st Hp. exists st. auto. Qed.

Lemma evolves_trans ts1 ts2 h1 h2 h3 :
  evolves ts1 h1 h2 → evolves ts2 h2 h3 → evolves (ts1 ++ ts2) h1 h3.
Proof.
  intros H12 H23 p st Hp.
  destruct (H12 p st Hp) as (st2 & Hp2 & Hn2 & Hc2).
  destruct (H23 p st2 Hp2) as (st3 & Hp3 & Hn3 & Hc3).
  exists st3. split_and!; [done|congruence|].
  destruct Hc3 as [[Hs Ht]|Hin]; [|right; apply elem_of_app; by right].
  destruct Hc2 as [[Hs' Ht']|Hin]; [left; split; congruence|].
  right. rewrite Ht. apply elem_of_app. by left.
Qed.

Lemma evolves_mono ts ts' h h' : ts ⊆ ts' → evolves ts h h' → evolves ts' h h'.
Proof.
  intros Hsub H p st Hp. destruct (H p st Hp) as (st' & ? & ? & Hc).
  exists st'. split_and!; [done..|]. destruct Hc; [by left|right]. set_solver.
Qed.

Lemma evolves_store ts h (p : ptr) (st st' : NodeState) :
  h !! p = Some st → toNode st' = toNode st →
  (State st' = State st ∧ StateChange st' = StateChange st)
    ∨ StateChange st' ∈ ts →
  evolves ts h (<[p := st']> h).
Proof.
  intros Hp Hn Hc q sq Hq. destruct (decide (p = q)) as [->|Hne].
  - exists st'. rewrite list_lookup_insert_eq by (by eapply lookup_lt_Some).
    simplify_eq. done.
  - exists sq. rewrite list_lookup_insert_ne by done. auto.
Qed.

Lemma evolves_app ts h l : evolves ts h (h ++ l).
Proof.
  intros p st Hp. exists st. split; [by apply lookup_app_l_Some|auto].
Qed.

Lemma aliveNode_evolves e a m :
  evolves [now e] (heap m) (heap (aliveNode e a m).1).
Proof.
  unfold aliveNode.
  destruct (nodeMap m !! alive.Node a) as [p|] eqn:Hm.
  - destruct (deref m p) as [st|] eqn:Hp; [|apply evolves_refl].
    case_match; [apply evolves_refl|]. simpl.
    eapply evolves_store; [done|by case_match|].
    case_match; simpl; [right; set_solver|left; done].
  - pose proof (create_deref e a m) as Hd.
    assert (evolves [] (heap m) (heap (aliveNode_create e a m).2)) as Hc
      by apply evolves_app.
    destruct (aliveNode_create e a m) as [p m1]. simpl in Hd, Hc.
    rewrite Hd. simpl.
    case_match; [by eapply evolves_mono; [|exact Hc]; set_solver|].
    simpl. apply (evolves_trans [] [now e] _ _ _ Hc).
    eapply evolves_store; [done|done|]. right. simpl. set_solver.
Qed.

Lemma suspectNode_evolves e s m :
  evolves [now e] (heap m) (heap (suspectNode e s m).1).
Proof.
  unfold suspectNode, nextIncarnation.
  destruct (nodeMap m !! suspect.Node s) as [p|]; [|apply evolves_refl].
  destruct (deref m p) as [st|] eqn:Hp; [|apply evolves_refl].
  repeat case_match; try apply evolves_refl; simpl.
  - eapply evolves_store; [done|done|]. by left.
  - eapply evolves_store; [done|done|]. right. simpl. set_solver.
Qed.

Lemma deadNode_evolves e d m :
  evolves [now e] (heap m) (heap (deadNode e d m).1).
Proof.
  unfold deadNode, nextIncarnation.
  destruct (nodeMap m !! dead.Node d) as [p|]; [|apply evolves_refl].
  destruct (deref m p) as [st|] eqn:Hp; [|apply evolves_refl].
  repeat case_match; try apply evolves_refl; simpl.
  - eapply evolves_store; [done|done|]. by left.
  - eapply evolves_store; [done|done|]. right. simpl. set_solver.
Qed.

Lemma suspicionFire_evolves e p t m :
  evolves [now e] (heap m) (heap (suspicionFire e p t m).1).
Proof.
  unfold suspicionFire, suspectTimeout.
  repeat case_match; try apply evolves_refl. apply deadNode_evolves.
Qed.

Lemma mergeState_evolves remote m :
  evolves ((λ x, now x.1) <$> remote) (heap m) (heap (mergeState remote m).1).
Proof.
  revert m. induction remote as [|[e r] rest IH]; intros m; [apply evolves_refl|].
  simpl.
  match goal with |- context [if ?a then (m, []) else ?b] =>
    assert (evolves [now e] (heap m) (heap (if a then (m, []) else b).1)) as H1;
    [|destruct (if a then (m, []) else b) as [m1 out1]] end.
  { repeat case_match; simpl;
      auto using evolves_refl, aliveNode_evolves, suspectNode_evolves, deadNode_evolves. }
  specialize (IH m1). destruct (mergeState rest m1). simpl in *.
  apply (evolves_trans [now e] _ _ _ _ H1 IH).
Qed.

Lemma probeNode_evolves pe node m :
  evolves [now (penv pe)] (heap m) (heap (probeNode pe node m).1).
Proof.
  unfold probeNode, nextSeqNo.
  destruct (deref m node) as [target|]; [|apply evolves_refl]. simpl.
  set (m2 := setAckChannel _ _ _ _).
  destruct (pingFails pe); [apply evolves_refl|].
  destruct (directAck pe) as [[]|]; try apply evolves_refl.
  all: destruct (indirectAck pe); [apply evolves_refl|].
  all: destruct (deref m node) as [cur|]; [|apply evolves_refl].
  all: pose proof (suspectNode_evolves (penv pe)
         (suspect.mk (Incarnation cur) (Name cur)) m2) as H3.
  all: destruct (suspectNode _ _ m2); exact H3.
Qed.

Lemma probeLoop_heap fuel draws k m m' sel :
  probeLoop fuel draws k m = Some (m', sel) → heap m' = heap m.
Proof.
  revert k m. induction fuel as [|fuel IH]; intros k m; simpl; [done|].
  repeat case_match; intros ?; simplify_eq; try done.
  all: match goal with H : probeLoop _ _ _ _ = _ |- _ => apply IH in H end; done.
Qed.

Lemma pushPull_evolves picked reply m :
  evolves (stamps (PushPullTick picked reply)) (heap m)
    (heap (pushPull picked reply m).1).
Proof.
  unfold pushPull, pushPullNode.
  destruct picked as [|p ?]; [apply evolves_refl|].
  destruct (deref m p); [|apply evolves_refl].
  destruct reply as [remote|err]; [|apply evolves_refl].
  pose proof (mergeState_evolves remote m). destruct (mergeState remote m). done.
Qed.

Lemma evolves_same ts m m' : table_same m m' → evolves ts (heap m) (heap m').
Proof. intros (_ & _ & _ & ->). apply evolves_refl. Qed.

Lemma step_evolves ev m : evolves (stamps ev) (heap m) (heap (step ev m).1).
Proof.
  destruct ev; simpl; try (apply evolves_same; same_table).
  - apply aliveNode_evolves.
  - apply suspectNode_evolves.
  - apply deadNode_evolves.
  - apply mergeState_evolves.
  - apply suspicionFire_evolves.
  - unfold probe.
    destruct (probeLoop _ _ _ _) as [[m' [node|]]|] eqn:Hl; simpl;
      try apply evolves_refl.
    + rewrite <- (probeLoop_heap _ _ _ _ _ _ Hl). apply probeNode_evolves.
    + rewrite (probeLoop_heap _ _ _ _ _ _ Hl). apply evolves_refl.
  - apply pushPull_evolves.
Qed.

Lemma run_app evs1 evs2 m :
  (run (evs1 ++ evs2) m).1 = (run evs2 (run evs1 m).1).1.
Proof.
  revert m. induction evs1 as [|ev evs1 IH]; intros m; [done|].
  simpl. destruct (step ev m) as [m1 o1]. specialize (IH m1).
  destruct (run (evs1 ++ evs2) m1), (run evs1 m1). done.
Qed.

Lemma run_evolves evs m :
  evolves (concat (stamps <$> evs)) (heap m) (heap (run evs m).1).
Proof.
  revert m. induction evs as [|ev evs IH]; intros m; [apply evolves_refl|].
  simpl. pose proof (step_evolves ev m) as H1.
  destruct (step ev m) as [m1 o1]. specialize (IH m1).
  destruct (run evs m1) as [m2 o2]. simpl in *.
  apply (evolves_trans _ _ _ _ _ H1 IH).
Qed.

Lemma not_stamped t evs :
  Forall (λ ev, t ∉ stamps ev) evs → t ∉ concat (stamps <$> evs).
Proof.
  induction 1 as [|ev evs Hev _ IH]; simpl; [apply not_elem_of_nil|].
  rewrite elem_of_app. tauto.
Qed.

(** C4.  A Suspect accepted for a peer's record arms a timer that captures
    the record and the time [t] written to [StateChange].  Whatever happens
    afterwards, when the timer fires it hands [Dead] with the record's
    current incarnation and name to [deadNode] if the record is Suspect with
    [StateChange = t], and does nothing otherwise.  If the record left the
    Suspect state in between (all later clock readings differing from [t]),
    the timer does nothing, even when the record is Suspect again. *)
Theorem suspicion_timer e s m (p : ptr) (st : NodeState) :
  nodeMap m !! suspect.Node s = Some p →
  deref m p = Some st →
  State st = StateAlive →
  Incarnation st ≤ suspect.Incarnation s →
  Name st ≠ Config.Name (config m) →
  let armed := suspectNode e s m in
  let t := now e in
  armed.2 = [Broadcast (suspect.Node s) (suspectMsg s); AfterSuspicion p t] ∧
  deref armed.1 p
    = Some (mkNodeState (toNode st) (suspect.Incarnation s) StateSuspect t) ∧
  ∀ evs e', ∃ cur : NodeState,
    let m' := (run evs armed.1).1 in
    deref m' p = Some cur ∧
    (State cur = StateSuspect ∧ StateChange cur = t →
     suspicionFire e' p t m'
       = deadNode e' (dead.mk (Incarnation cur) (Name cur)) m') ∧
    (¬ (State cur = StateSuspect ∧ StateChange cur = t) →
     suspicionFire e' p t m' = (m', [])) ∧
    (Forall (λ ev, t ∉ stamps ev) evs →
     (∃ evs1 evs2 (mid : NodeState),
        evs = evs1 ++ evs2 ∧
        deref (run evs1 armed.1).1 p = Some mid ∧ State mid ≠ StateSuspect) →
     suspicionFire e' p t m' = (m', [])).
Proof.
  intros Hm Hp Ha Hi Hn armed t.
  assert (armed = (store p (mkNodeState (toNode st) (suspect.Incarnation s)
                              StateSuspect t) m,
                   [Broadcast (suspect.Node s) (suspectMsg s);
                    AfterSuspicion p t])) as Harmed.
  { unfold armed, suspectNode. rewrite Hm, Hp, Ha.
    destruct (Z.ltb_spec (suspect.Incarnation s) (Incarnation st)); [lia|].
    simpl. destruct (String.eqb_spec (Name st) (Config.Name (config m))); [done|].
    reflexivity. }
  assert (deref armed.1 p
          = Some (mkNodeState (toNode st) (suspect.Incarnation s) StateSuspect t))
    as Hp1.
  { rewrite Harmed. simpl. apply list_lookup_insert_eq. by eapply lookup_lt_Some. }
  split_and!; [by rewrite Harmed|done|].
  intros evs e'.
  destruct (run_evolves evs armed.1 p _ Hp1) as (cur & Hcur & _ & _).
  exists cur. simpl.
  assert (¬ (State cur = StateSuspect ∧ StateChange cur = t) →
          suspicionFire e' p t (run evs armed.1).1 = ((run evs armed.1).1, []))
    as Hnoop.
  { intros Hnot. unfold suspicionFire. rewrite Hcur.
    destruct (Z.eqb_spec (State cur) StateSuspect);
      destruct (Z.eqb_spec (StateChange cur) t); simpl; tauto. }
  split_and!; [exact Hcur| |exact Hnoop|].
  - intros [Hs Ht]. unfold suspicionFire, suspectTimeout.
    rewrite Hcur, Hs, Ht, !Z.eqb_refl. reflexivity.
  - intros Hstamps (evs1 & evs2 & mid & -> & Hmid & Hmoved).
    apply Hnoop. intros [_ Ht].
    apply Forall_app in Hstamps as [Hst1 Hst2].
    apply not_stamped in Hst1, Hst2.
    destruct (run_evolves evs1 armed.1 p _ Hp1) as (mid' & Hmid' & _ & Hc1).
    assert (mid' = mid) as -> by congruence. simpl in Hc1.
    assert (StateChange mid ≠ t) as Hne.
    { destruct Hc1 as [[Hs _]|Hin]; [done|]. by intros <-. }
    rewrite run_app in Hcur.
    destruct (run_evolves evs2 (run evs1 armed.1).1 p _ Hmid)
      as (cur' & Hcur' & _ & Hc2).
    assert (cur' = cur) as -> by congruence.
    destruct Hc2 as [[_ Hsame]|Hin]; [congruence|]. by rewrite Ht in Hin.
Qed.

(** The theorem applied to the suspicion of ["b"]: left alone, the timer
    declares ["b"] dead; after a refutation and a new suspicion it is idle. *)
Lemma suspicion_timer_witness :
  let armed := (suspectNode (mkEnv 12 0) (suspect.mk 7 "b") exTwo).1 in
  suspicionFire (mkEnv 99 0) 1%nat 12 armed
    = deadNode (mkEnv 99 0) (dead.mk 7 "b") armed ∧
  suspicionFire (mkEnv 99 0) 1%nat 12 (run exRefuted armed).1
    = ((run exRefuted armed).1, []).
Proof.
  destruct (suspicion_timer (mkEnv 12 0) (suspect.mk 7 "b") exTwo 1%nat
              (mkNodeState (mkNode "b" [] []) 7 StateAlive 11))
    as (_ & _ & Hall);
    [reflexivity | reflexivity | reflexivity | simpl; lia | discriminate |].
  split.
  - destruct (Hall [] (mkEnv 99 0)) as (cur & Hcur & Hfire & _).
    vm_compute in Hcur. injection Hcur as <-.
    apply Hfire. split; reflexivity.
  - destruct (Hall exRefuted (mkEnv 99 0)) as (cur & _ & _ & _ & Hmoved).
    apply Hmoved.
    + repeat constructor; simpl; by intros [=]%list_elem_of_singleton.
    + exists [InAlive (mkEnv 13 0) (alive.mk 8 "b" [] [])],
             [InSuspect (mkEnv 14 0) (suspect.mk 8 "b")],
             (mkNodeState (mkNode "b" [] []) 8 StateAlive 13).
      split_and!; [reflexivity | reflexivity | discriminate].
Defined.

(** ** The reset sweep (C5) *)

(** C5.  On a table that satisfies I1, the wrap-around case of [probe]
    ([resetNodes], then [probeIndex = 0]) leaves in the sequence exactly the
    records that were not Dead, removes every Dead record from the sequence
    and its name from the mapping, keeps I1, so that the mapping and the
    sequence hold the same names, and leaves [probeIndex] at 0. *)
Theorem reset_correct draws m :
  I1 m →
  let m' := wrapAround draws m in
  nodes m' ≡ₚ filter (λ p, isDead (heap m) p = false) (nodes m) ∧
  heap m' = heap m ∧
  (∀ k (q : ptr), nodeMap m' !! k = Some q ↔
                  nodeMap m !! k = Some q ∧ isDead (heap m) q = false) ∧
  (∀ (p : ptr) (st : NodeState),
     p ∈ nodes m → deref m p = Some st → State st = StateDead →
     (p ∉ nodes m') ∧ nodeMap m' !! Name st = None) ∧
  I1 m' ∧
  (∀ k, is_Some (nodeMap m' !! k) ↔
        ∃ (p : ptr) (st : NodeState),
          p ∈ nodes m' ∧ deref m' p = Some st ∧ Name st = k) ∧
  probeIndex m' = 0%nat.
Proof.
  intros HI m'.
  assert (nodes m' ≡ₚ filter (λ p, isDead (heap m) p = false) (nodes m)) as Hn
    by apply resetNodes_nodes.
  assert (∀ k (q : ptr), nodeMap m' !! k = Some q ↔
            nodeMap m !! k = Some q ∧ isDead (heap m) q = false) as Hl
    by (intros; by apply resetNodes_lookup).
  assert (I1 m') as HI' by (by apply (resetNodes_I1 draws)).
  split_and!; try done.
  - intros p st Hp Hst Hd.
    assert (isDead (heap m) p = true) as Hdead.
    { unfold isDead. rewrite Hst. by apply Z.eqb_eq. }
    split.
    + rewrite Hn, list_elem_of_filter. intros [Hlive _]. congruence.
    + destruct (nodeMap m' !! Name st) as [q|] eqn:Hq; [|done].
      apply Hl in Hq as [Hq Hlive].
      destruct (listed_mapped _ _ _ HI p Hp) as (st' & Hst' & Hm).
      congruence.
  - intros k. split.
    + intros [q Hq]. destruct (map_points _ _ _ HI' k q Hq) as (st & Hst & Hk).
      exists q, st. split_and!; [|done..]. by eapply (map_listed _ _ _ HI').
    + intros (p & st & Hp & Hst & Hk).
      destruct (listed_mapped _ _ _ HI' p Hp) as (st' & Hst' & Hm).
      exists p. congruence.
Qed.

(** The theorem applied to the reset scenario: three records stay. *)
Lemma reset_correct_witness :
  let m' := wrapAround (λ _, 1%nat) exSweep in
  nodes m' ≡ₚ [4%nat; 0%nat; 2%nat] ∧
  length (nodes m') = 3%nat ∧
  nodeMap m' !! "x" = None ∧ nodeMap m' !! "y" = None ∧
  nodeMap m' !! "a" = Some 0%nat ∧ nodeMap m' !! "b" = Some 2%nat ∧
  nodeMap m' !! "c" = Some 4%nat ∧
  I1 m' ∧ probeIndex m' = 0%nat.
Proof.
  assert (I1 exSweep) as HI.
  { apply inv_I1, reachable_Inv. eexists exConfig, _. reflexivity. }
  destruct (reset_correct (λ _, 1%nat) exSweep HI)
    as (Hn & _ & Hl & Hd & HI' & _ & Hidx).
  split_and!; [exact Hn | by rewrite Hn | | | | | | exact HI' | exact Hidx].
  - apply (Hd 1%nat (mkNodeState (mkNode "x" [] []) 1 StateDead 15));
      [apply list_elem_of_lookup; by exists 2%nat | reflexivity | reflexivity].
  - apply (Hd 3%nat (mkNodeState (mkNode "y" [] []) 1 StateDead 16));
      [apply list_elem_of_lookup; by exists 4%nat | reflexivity | reflexivity].
  - apply Hl. split; reflexivity.
  - apply Hl. split; reflexivity.
  - apply Hl. split; reflexivity.
Defined.

(** ** The probe tick (C6) *)

Lemma wrapAround_length draws m :
  (length (nodes (wrapAround draws m)) ≤ length (nodes m))%nat.
Proof.
  change (nodes (wrapAround draws m)) with (nodes (resetNodes draws m)).
  rewrite (Permutation_length (resetNodes_nodes draws m)). apply length_filter.
Qed.

(** The loop of [probe] returns within [len(nodes)] further iterations. *)
Lemma probeLoop_returns fuel draws k m :
  (length (nodes m) - k < fuel)%nat → is_Some (probeLoop fuel draws k m).
Proof.
  revert k m. induction fuel as [|fuel IH]; intros k m Hf; [lia|].
  simpl. destruct (Nat.leb_spec (length (nodes m)) k); [done|].
  destruct (Nat.leb_spec (length (nodes m)) (probeIndex m)).
  - apply IH. pose proof (wrapAround_length (draws k) m). lia.
  - destruct (nodes m !! probeIndex m); [|done].
    case_match; [|done]. apply IH. simpl. lia.
Qed.

Lemma probe_returns draws pe m : is_Some (probe draws pe m).
Proof.
  unfold probe.
  destruct (probeLoop_returns (S (length (nodes m))) draws 0%nat m) as [[m' sel] ->];
    [lia|]. by destruct sel.
Qed.

(** The record the loop selects is the one at [probeIndex], which is left
    where it is; it is neither the local node nor Dead. *)
Lemma probeLoop_selected fuel draws k m m' (node : ptr) :
  probeLoop fuel draws k m = Some (m', Some node) →
  (probeIndex m' < length (nodes m'))%nat ∧
  nodes m' !! probeIndex m' = Some node ∧
  match deref m' node with
  | Some st => Name st ≠ Config.Name (config m') ∧ State st ≠ StateDead
  | None => True
  end.
Proof.
  revert k m. induction fuel as [|fuel IH]; intros k m; simpl; [done|].
  destruct (Nat.leb_spec (length (nodes m)) k); [done|].
  destruct (Nat.leb_spec (length (nodes m)) (probeIndex m)); [by apply IH|].
  destruct (nodes m !! probeIndex m) as [q|] eqn:Hq; [|done].
  destruct (deref m q) as [st|] eqn:Hst.
  - destruct (String.eqb_spec (Name st) (Config.Name (config m))); [by apply IH|].
    destruct (Z.eqb_spec (State st) StateDead); [by apply IH|].
    intros [= <- <-]. rewrite Hst. done.
  - intros [= <- <-]. rewrite Hst. done.
Qed.

Lemma suspectNode_frame e s m :
  let m' := (suspectNode e s m).1 in
  config m' = config m ∧ nodes m' = nodes m ∧ probeIndex m' = probeIndex m ∧
  nodeMap m' = nodeMap m.
Proof.
  unfold suspectNode, nextIncarnation. repeat case_match; simpl; done.
Qed.

Lemma suspectNode_never_kills e s m (p : ptr) (st : NodeState) :
  deref m p = Some st →
  ∃ st' : NodeState, deref (suspectNode e s m).1 p = Some st' ∧
    toNode st' = toNode st ∧
    (State st' = State st ∨ State st' = StateSuspect).
Proof.
  intros Hp. unfold suspectNode, nextIncarnation.
  destruct (nodeMap m !! suspect.Node s) as [q|]; [|eauto].
  destruct (deref m q) as [sq|] eqn:Hq; [|eauto].
  repeat case_match; eauto; simpl.
  all: destruct (decide (q = p)) as [->|Hne];
    [rewrite list_lookup_insert_eq by (by eapply lookup_lt_Some);
     simplify_eq; eauto
    |rewrite list_lookup_insert_ne by done; eauto].
Qed.

Lemma probeNode_frame pe node m :
  let m' := (probeNode pe node m).1 in
  config m' = config m ∧ nodes m' = nodes m ∧ probeIndex m' = probeIndex m.
Proof.
  unfold probeNode, nextSeqNo.
  destruct (deref m node) as [target|]; [|done]. simpl.
  set (m2 := setAckChannel _ _ _ _).
  destruct (pingFails pe); [done|].
  destruct (directAck pe) as [[]|]; try done.
  all: destruct (indirectAck pe); [done|].
  all: destruct (deref m node) as [cur|]; [|done].
  all: pose proof (suspectNode_frame (penv pe)
         (suspect.mk (Incarnation cur) (Name cur)) m2) as H3.
  all: destruct (suspectNode _ _ m2); simpl in *; by destruct H3 as (? & ? & ? & ?).
Qed.

Lemma probeNode_never_kills pe node m (p : ptr) (st : NodeState) :
  deref m p = Some st →
  ∃ st' : NodeState, deref (probeNode pe node m).1 p = Some st' ∧
    toNode st' = toNode st ∧
    (State st' = State st ∨ State st' = StateSuspect).
Proof.
  intros Hp. unfold probeNode, nextSeqNo.
  destruct (deref m node) as [target|]; [|eauto]. simpl.
  set (m2 := setAckChannel _ _ _ _).
  destruct (pingFails pe); [eauto|].
  destruct (directAck pe) as [[]|]; eauto.
  all: destruct (indirectAck pe); [eauto|].
  all: destruct (deref m node) as [cur|]; [|eauto].
  all: pose proof (suspectNode_never_kills (penv pe)
         (suspect.mk (Incarnation cur) (Name cur)) m2 p st Hp) as H3.
  all: destruct (suspectNode _ _ m2); exact H3.
Qed.

(** C6, where it fails.  When a tick selects a record, [probe] returns with
    [probeIndex] still at that record's position, and [probeNode] can mark
    the record Suspect but not Dead: the next tick selects the same record
    again instead of its successor. *)
Theorem probe_repeats_target draws draws' pe m m' (node : ptr) :
  probeLoop (S (length (nodes m))) draws 0 m = Some (m', Some node) →
  ∃ r, probe draws pe m = Some r ∧
       nodes r.1 !! probeIndex r.1 = Some node ∧
       probeLoop (S (length (nodes r.1))) draws' 0 r.1 = Some (r.1, Some node).
Proof.
  intros Hl. unfold probe. rewrite Hl. eexists. split; [done|].
  apply probeLoop_selected in Hl as (Hlt & Hsel & Hst).
  destruct (probeNode_frame pe node m') as (Hc & Hn & Hi).
  set (r := probeNode pe node m') in *. simpl in *.
  rewrite Hn, Hi. split; [done|].
  destruct (Nat.leb_spec (length (nodes m')) 0); [lia|].
  destruct (Nat.leb_spec (length (nodes m')) (probeIndex m')); [lia|].
  rewrite Hsel.
  destruct (deref m' node) as [st|] eqn:Hd.
  - destruct (probeNode_never_kills pe node m' node st Hd) as (st' & Hd' & Ht & Hs).
    fold r in Hd'. rewrite Hd', Hc, Ht.
    destruct Hst as [Hne Hnd].
    destruct (String.eqb_spec (Name st) (Config.Name (config m'))); [done|].
    destruct (Z.eqb_spec (State st') StateDead) as [Heq|]; [|done].
    destruct Hs as [Hs|Hs]; rewrite Hs in Heq; done.
  - assert (r = (m', [])) as -> by (unfold r, probeNode; by rewrite Hd).
    simpl. by rewrite Hd.
Qed.

(** On [exThree] the sequence is c, self, b: both ticks probe c (the record
    at position 0), and b is not reached. *)
Lemma probe_repeats_target_witness :
  ∃ r, probe (λ _ _, 0%nat) exAcked exThree = Some r ∧
       nodes r.1 !! probeIndex r.1 = Some 2%nat ∧
       probeLoop (S (length (nodes r.1))) (λ _ _, 0%nat) 0 r.1
         = Some (r.1, Some 2%nat).
Proof.
  apply (probe_repeats_target (λ _ _, 0%nat) (λ _ _, 0%nat) exAcked
           exThree exThree 2%nat).
  reflexivity.
Defined.

(** ** The scheduler (C7) *)

Lemma armed_app a ts1 ts2 : armed a (ts1 ++ ts2) ↔ armed a ts1 ∨ armed a ts2.
Proof.
  unfold armed. split.
  - intros (t & [Ht|Ht]%elem_of_app & Hf); eauto.
  - intros [(t & Ht & Hf)|(t & Ht & Hf)]; exists t; rewrite elem_of_app; auto.
Qed.

Lemma armed_nil a : ¬ armed a [].
Proof. intros (t & Ht & _). by apply elem_of_nil in Ht. Qed.

Lemma armed_singleton a t : armed a [t] ↔ fires t = a.
Proof.
  unfold armed. split.
  - by intros (t' & ->%list_elem_of_singleton & Hf).
  - intros Hf. exists t. by rewrite list_elem_of_singleton.
Qed.

(** C7, as amended.  Whenever [schedule] does not panic in [time.NewTicker]
    (no gossip nodes configured, or a positive gossip interval), the tickers
    it adds are: one for probing exactly when [ProbeInterval > 0], one for
    push/pull exactly when [PushPullInterval > 0], and one for gossip exactly
    when [GossipNodes > 0]; each runs with the interval configured for its
    activity. *)
Theorem schedule_arms m :
  let c := config m in
  Config.GossipNodes c ≤ 0 ∨ 0 < Config.GossipInterval c →
  ∃ new,
    schedule m = Some (set_tickers (tickers m ++ new) m) ∧
    (armed Probe new ↔ 0 < Config.ProbeInterval c) ∧
    (armed PushPull new ↔ 0 < Config.PushPullInterval c) ∧
    (armed Gossip new ↔ 0 < Config.GossipNodes c) ∧
    (∀ t, t ∈ new → period t = interval c (fires t)).
Proof.
  intros c Hg.
  exists ((if 0 <? Config.ProbeInterval c then [mkTicker (Config.ProbeInterval c) Probe] else [])
          ++ (if 0 <? Config.PushPullInterval c then [mkTicker (Config.PushPullInterval c) PushPull] else [])
          ++ (if 0 <? Config.GossipNodes c then [mkTicker (Config.GossipInterval c) Gossip] else [])).
  split_and!.
  - subst c. destruct m as [c lv sq inc nm ns h pi ts ah tm ch].
    unfold schedule, NewTicker, set_tickers. simpl in *.
    destruct (Z.ltb_spec 0 (Config.ProbeInterval c)); simpl;
      destruct (Z.ltb_spec 0 (Config.PushPullInterval c)); simpl;
      destruct (Z.ltb_spec 0 (Config.GossipNodes c)); simpl;
      try (destruct (Z.ltb_spec 0 (Config.GossipInterval c)); [|lia]); simpl;
      rewrite <- ?app_assoc, ?app_nil_r; reflexivity.
  - rewrite !armed_app.
    destruct (Z.ltb_spec 0 (Config.ProbeInterval c));
      destruct (0 <? Config.PushPullInterval c);
      destruct (0 <? Config.GossipNodes c);
      rewrite ?armed_singleton; simpl;
      pose proof (armed_nil Probe); intuition (try discriminate; try lia).
  - rewrite !armed_app.
    destruct (0 <? Config.ProbeInterval c);
      destruct (Z.ltb_spec 0 (Config.PushPullInterval c));
      destruct (0 <? Config.GossipNodes c);
      rewrite ?armed_singleton; simpl;
      pose proof (armed_nil PushPull); intuition (try discriminate; try lia).
  - rewrite !armed_app.
    destruct (0 <? Config.ProbeInterval c);
      destruct (0 <? Config.PushPullInterval c);
      destruct (Z.ltb_spec 0 (Config.GossipNodes c));
      rewrite ?armed_singleton; simpl;
      pose proof (armed_nil Gossip); intuition (try discriminate; try lia).
  - intros t. rewrite !elem_of_app.
    destruct (0 <? Config.ProbeInterval c);
      destruct (0 <? Config.PushPullInterval c);
      destruct (0 <? Config.GossipNodes c);
      rewrite ?list_elem_of_singleton, ?elem_of_nil; intuition (subst; done).
Qed.

(** The theorem applied to the example configuration. *)
Lemma schedule_arms_witness :
  ∃ new,
    schedule (init exConfig)
      = Some (set_tickers (tickers (init exConfig) ++ new) (init exConfig)) ∧
    (armed Probe new ↔ 0 < Config.ProbeInterval exConfig) ∧
    (armed PushPull new ↔ 0 < Config.PushPullInterval exConfig) ∧
    (armed Gossip new ↔ 0 < Config.GossipNodes exConfig) ∧
    (∀ t, t ∈ new → period t = interval exConfig (fires t)).
Proof.
  apply (schedule_arms (init exConfig)). right. simpl. lia.
Defined.

(** C7 as stated fails: with [GossipInterval = 200] but [GossipNodes = 0],
    [schedule] arms probing and push/pull and no gossip ticker. *)
Lemma schedule_as_stated_fails :
  ∃ m', schedule (init exNoGossipNodes) = Some m' ∧
        Config.GossipInterval exNoGossipNodes ≠ 0 ∧
        ¬ armed Gossip (tickers m').
Proof.
  eexists. split_and!; [reflexivity | discriminate |].
  intros (t & Ht & Hf). simpl in Ht.
  apply elem_of_cons in Ht as [->|Ht]; [discriminate|].
  apply elem_of_cons in Ht as [->|Ht]; [discriminate|].
  by apply elem_of_nil in Ht.
Qed.

(** With [GossipNodes > 0] and [GossipInterval = 0] the gossip branch hands
    a zero period to [time.NewTicker]. *)
Lemma schedule_zero_gossip_interval_panics :
  schedule (init exNoGossipInterval) = None.
Proof. reflexivity. Qed.

(** ** The ack registry (C8) *)

Lemma invocations_app reg l1 l2 :
  invocations reg (l1 ++ l2) = (invocations reg l1 + invocations reg l2)%nat.
Proof. unfold invocations. by rewrite List.filter_app, length_app. Qed.

Lemma reaps_app reg l1 l2 :
  reaps reg (l1 ++ l2) = (reaps reg l1 + reaps reg l2)%nat.
Proof. unfold reaps. by rewrite List.filter_app, length_app. Qed.

Lemma uses_app reg l1 l2 : uses reg (l1 ++ l2) = (uses reg l1 + uses reg l2)%nat.
Proof. unfold uses. rewrite invocations_app, reaps_app. lia. Qed.

Lemma uses_ackFree reg out :
  Forall (λ x, ackFree x = true) out → uses reg out = 0%nat.
Proof.
  induction 1 as [|x out Hx _ IH]; [done|].
  change (x :: out) with ([x] ++ out). rewrite uses_app, IH.
  by destruct x.
Qed.

Lemma uses_zero reg out :
  uses reg out = 0%nat → invocations reg out = 0%nat ∧ reaps reg out = 0%nat.
Proof. unfold uses. lia. Qed.

(** What one call of a handler, and one run of a closure, add to the log. *)
Lemma invoked_counts reg ah :
  invocations reg (AckInvoked (timer ah) :: runHandler (handler ah))
    = (if decide (timer ah = reg) then 1%nat else 0%nat) ∧
  reaps reg (AckInvoked (timer ah) :: runHandler (handler ah)) = 0%nat.
Proof.
  unfold invocations, reaps. simpl.
  destruct (handler ah); simpl;
    (case_decide; [subst; by rewrite Nat.eqb_refl|];
     by destruct (Nat.eqb_spec (timer ah) reg)).
Qed.

Lemma reaped_counts reg t (ch : option nat) :
  invocations reg
    (AckReaped t :: match ch with Some c => [TrySend c false] | None => [] end)
    = 0%nat ∧
  reaps reg
    (AckReaped t :: match ch with Some c => [TrySend c false] | None => [] end)
    = (if decide (t = reg) then 1%nat else 0%nat).
Proof.
  unfold invocations, reaps. simpl.
  destruct ch; simpl;
    (case_decide; [subst; by rewrite Nat.eqb_refl|];
     by destruct (Nat.eqb_spec t reg)).
Qed.

(** *** The invariant of all runs *)

Lemma ack_sound_init : ack_sound ∅ [] [].
Proof.
  split; try done.
  intros t. unfold invocations, reaps. simpl. lia.
Qed.

Lemma ack_sound_quiet hs ts log out :
  Forall (λ x, ackFree x = true) out → ack_sound hs ts log →
  ack_sound hs ts (log ++ out).
Proof.
  intros Hq [H1 H2 H3 H4].
  assert (∀ t, invocations t out = 0%nat ∧ reaps t out = 0%nat) as Hz
    by (intros t; by apply uses_zero, uses_ackFree).
  split.
  - intros k ah Hk. destruct (H1 _ _ Hk) as (tm & ? & ? & Hi). exists tm.
    split_and!; [done..|]. rewrite invocations_app, Hi. by destruct (Hz (timer ah)).
  - intros t tm Ht Hs. rewrite reaps_app, (H2 _ _ Ht Hs). by destruct (Hz t).
  - intros t Ht. rewrite uses_app, (H3 _ Ht). by apply uses_ackFree.
  - intros t. rewrite invocations_app, reaps_app.
    destruct (Hz t) as [-> ->], (H4 t). lia.
Qed.

Lemma ack_sound_register hs ts log seqNo h ch :
  ack_sound hs ts log →
  ack_sound (<[seqNo := mkAckHandler h (length ts)]> hs)
    (ts ++ [mkReapTimer Armed seqNo ch]) log.
Proof.
  intros [H1 H2 H3 H4].
  assert (uses (length ts) log = 0%nat) as Hnew by (by apply H3).
  apply uses_zero in Hnew as [Hni Hnr].
  split; [| | |done].
  - intros k ah. rewrite lookup_insert. case_decide as Hk.
    + intros [= <-]. subst. exists (mkReapTimer Armed k ch). simpl.
      rewrite lookup_app_r by lia. by rewrite Nat.sub_diag.
    + intros Hah. destruct (H1 _ _ Hah) as (tm & Htm & ? & ?).
      exists tm. split; [|done]. by apply lookup_app_l_Some.
  - intros t tm Ht Hs. apply lookup_app_Some in Ht as [Ht|[Hge Ht]]; [eauto|].
    apply list_lookup_singleton_Some in Ht as [Ht _].
    assert (t = length ts) as -> by lia. done.
  - intros t. rewrite length_app. simpl. intros Ht. apply H3. lia.
Qed.

Lemma timers_settle_refl ts : timers_settle ts ts.
Proof. split; [done|]. intros t tm Ht. exists tm. auto. Qed.

Lemma timers_settle_insert ts t tm st :
  ts !! t = Some tm →
  (st = Armed ∨ st = Expired → status tm = Armed ∨ status tm = Expired) →
  timers_settle ts (<[t := mkReapTimer st (reapSeq tm) (reapCh tm)]> ts).
Proof.
  intros Htm Hst. split; [apply length_insert|].
  intros r tr Hr.
  apply list_lookup_insert_Some in Hr as [(-> & <- & _)|[Hne Hr]].
  - exists tm. auto.
  - exists tr. auto.
Qed.

Lemma ack_sound_timers hs ts ts' log :
  ack_sound hs ts log → timers_settle ts ts' → ack_sound hs ts' log.
Proof.
  intros [H1 H2 H3 H4] [Hlen Hts]. split; [| | |done].
  - intros k ah Hk. destruct (H1 _ _ Hk) as (tk & Htk & Hsk & Hik).
    destruct (lookup_lt_is_Some_2 ts' (timer ah)) as [tk' Htk'];
      [rewrite Hlen; by eapply lookup_lt_Some|].
    destruct (Hts _ _ Htk') as (tk'' & Htk'' & Hs' & _).
    exists tk'. split_and!; [done|congruence|done].
  - intros t tm' Ht Hs. destruct (Hts _ _ Ht) as (tm0 & Ht0 & _ & Hst). eauto.
  - intros t. rewrite Hlen. apply H3.
Qed.

Lemma ack_sound_invoke hs ts log seqNo ah :
  ack_sound hs ts log →
  hs !! seqNo = Some ah →
  ack_sound (delete seqNo hs) ts
    (log ++ AckInvoked (timer ah) :: runHandler (handler ah)).
Proof.
  intros [H1 H2 H3 H4] Hah.
  destruct (H1 _ _ Hah) as (tm & Htm & Hseq & Hzero).
  split.
  - intros k ah' [Hne Hk]%lookup_delete_Some.
    destruct (H1 _ _ Hk) as (tk & Htk & Hsk & Hik).
    exists tk. split_and!; [done..|].
    rewrite invocations_app, Hik.
    destruct (invoked_counts (timer ah') ah) as [-> _].
    case_decide as Heq; [|done]. rewrite Heq in Htm. congruence.
  - intros t tm' Ht Hs. rewrite reaps_app, (H2 _ _ Ht Hs).
    by destruct (invoked_counts t ah) as [_ ->].
  - intros t Ht. rewrite uses_app, (H3 _ Ht).
    unfold uses. destruct (invoked_counts t ah) as [-> ->].
    case_decide as Heq; [|done]. subst. apply lookup_lt_Some in Htm. lia.
  - intros t. rewrite invocations_app, reaps_app.
    destruct (invoked_counts t ah) as [-> ->]. destruct (H4 t).
    case_decide as Heq; [|lia]. subst. lia.
Qed.

Lemma ack_sound_closure hs ts log t tm :
  ack_sound hs ts log →
  ts !! t = Some tm → status tm = Armed ∨ status tm = Expired →
  ack_sound (delete (reapSeq tm) hs)
    (<[t := mkReapTimer Fired (reapSeq tm) (reapCh tm)]> ts)
    (log ++ AckReaped t ::
       match reapCh tm with Some ch => [TrySend ch false] | None => [] end).
Proof.
  intros [H1 H2 H3 H4] Htm Hpending.
  split.
  - intros k ah' [Hne Hk]%lookup_delete_Some.
    destruct (H1 _ _ Hk) as (tk & Htk & Hsk & Hik).
    exists tk. split_and!; [|done|].
    + rewrite list_lookup_insert_ne; [done|].
      intros Heq. rewrite Heq in Htm. congruence.
    + rewrite invocations_app, Hik.
      by destruct (reaped_counts (timer ah') t (reapCh tm)) as [-> _].
  - intros r tr Hr Hs. rewrite reaps_app.
    destruct (reaped_counts r t (reapCh tm)) as [_ ->].
    apply list_lookup_insert_Some in Hr as [(-> & <- & _)|[Hne Hr]].
    + simpl in Hs. by destruct Hs.
    + case_decide; [done|]. rewrite (H2 _ _ Hr Hs). done.
  - intros r. rewrite length_insert. intros Hr. rewrite uses_app, (H3 _ Hr).
    unfold uses. destruct (reaped_counts r t (reapCh tm)) as [-> ->].
    case_decide as Heq; [|done]. subst. apply lookup_lt_Some in Htm. lia.
  - intros r. rewrite invocations_app, reaps_app.
    destruct (reaped_counts r t (reapCh tm)) as [-> ->]. destruct (H4 r).
    case_decide as Heq; [|lia]. subst. rewrite (H2 _ _ Htm Hpending). lia.
Qed.

(** *** The invariant of the runs whose closures run at expiry *)

Lemma ack_ok_init : ack_ok ∅ [] [].
Proof.
  split; try done. intros t. unfold uses, invocations, reaps. simpl. lia.
Qed.

Lemma ack_ok_quiet hs ts log out :
  Forall (λ x, ackFree x = true) out → ack_ok hs ts log → ack_ok hs ts (log ++ out).
Proof.
  intros Hq [H1 H2 H3 H4 H5].
  split; [done|done|..]; intros t; intros;
    rewrite uses_app, (uses_ackFree _ _ Hq), Nat.add_0_r; eauto.
Qed.

Lemma ack_ok_register hs ts log seqNo h ch :
  ack_ok hs ts log →
  ack_ok (<[seqNo := mkAckHandler h (length ts)]> hs)
    (ts ++ [mkReapTimer Armed seqNo ch]) log.
Proof.
  intros [H1 H2 H3 H4 H5]. split; [| | | |done].
  - intros k ah. rewrite lookup_insert. case_decide as Hk.
    + intros [= <-]. subst. exists (mkReapTimer Armed k ch). split; [|done].
      simpl. rewrite lookup_app_r by lia. by rewrite Nat.sub_diag.
    + intros Hah. destruct (H1 _ _ Hah) as (tm & Htm & ? & ?).
      exists tm. split; [|done]. by apply lookup_app_l_Some.
  - intros t tm Ht. apply lookup_app_Some in Ht as [Ht|[_ Ht]]; [eauto|].
    by apply list_lookup_singleton_Some in Ht as [_ <-].
  - intros t tm Ht Ha. apply lookup_app_Some in Ht as [Ht|[Hge _]]; eauto.
  - intros t. rewrite length_app. simpl. intros Ht. apply H4. lia.
Qed.

Lemma ack_ok_invoke hs ts log seqNo ah tm :
  ack_ok hs ts log →
  hs !! seqNo = Some ah → ts !! timer ah = Some tm →
  ack_ok (delete seqNo hs)
    (<[timer ah := mkReapTimer Stopped (reapSeq tm) (reapCh tm)]> ts)
    (log ++ AckInvoked (timer ah) :: runHandler (handler ah)).
Proof.
  intros [H1 H2 H3 H4 H5] Hah Htm.
  destruct (H1 _ _ Hah) as (tm' & Htm' & Harmed & Hseq).
  assert (tm' = tm) as -> by congruence.
  assert (∀ t, uses t (AckInvoked (timer ah) :: runHandler (handler ah))
               = if decide (timer ah = t) then 1%nat else 0%nat) as Hu.
  { intros t. unfold uses. by destruct (invoked_counts t ah) as [-> ->]. }
  split.
  - intros k ah' [Hne Hk]%lookup_delete_Some.
    destruct (H1 _ _ Hk) as (tk & Htk & Hak & Hsk).
    exists tk. split; [|done]. rewrite list_lookup_insert_ne; [done|].
    intros Heq. rewrite Heq in Htm. congruence.
  - intros t tk Htk.
    apply list_lookup_insert_Some in Htk as [(_ & <- & _)|[Hne Htk]]; [done|eauto].
  - intros t tk Htk Hak. rewrite uses_app, Hu.
    apply list_lookup_insert_Some in Htk as [(-> & <- & _)|[Hne Htk]]; [done|].
    case_decide; [done|]. rewrite Nat.add_0_r. eauto.
  - intros t. rewrite length_insert. intros Ht. rewrite uses_app, Hu.
    case_decide as Heq; [|rewrite Nat.add_0_r; eauto].
    subst. apply lookup_lt_Some in Htm. lia.
  - intros t. rewrite uses_app, Hu. case_decide as Heq.
    + subst. rewrite (H3 _ _ Htm Harmed). lia.
    + rewrite Nat.add_0_r. apply H5.
Qed.

Lemma ack_ok_reap hs ts log t tm :
  ack_ok hs ts log →
  ts !! t = Some tm → status tm = Armed →
  ack_ok (delete (reapSeq tm) hs)
    (<[t := mkReapTimer Fired (reapSeq tm) (reapCh tm)]> ts)
    (log ++ AckReaped t ::
       match reapCh tm with Some ch => [TrySend ch false] | None => [] end).
Proof.
  intros [H1 H2 H3 H4 H5] Htm Harmed.
  assert (∀ r, uses r (AckReaped t ::
                 match reapCh tm with Some ch => [TrySend ch false] | None => [] end)
               = if decide (t = r) then 1%nat else 0%nat) as Hu.
  { intros r. unfold uses. by destruct (reaped_counts r t (reapCh tm)) as [-> ->]. }
  split.
  - intros k ah' [Hne Hk]%lookup_delete_Some.
    destruct (H1 _ _ Hk) as (tk & Htk & Hak & Hsk).
    exists tk. split; [|done]. rewrite list_lookup_insert_ne; [done|].
    intros Heq. rewrite Heq in Htm. congruence.
  - intros r tk Htk.
    apply list_lookup_insert_Some in Htk as [(_ & <- & _)|[Hne Htk]]; [done|eauto].
  - intros r tk Htk Hak. rewrite uses_app, Hu.
    apply list_lookup_insert_Some in Htk as [(-> & <- & _)|[Hne Htk]]; [done|].
    case_decide; [done|]. rewrite Nat.add_0_r. eauto.
  - intros r. rewrite length_insert. intros Hr. rewrite uses_app, Hu.
    case_decide as Heq; [|rewrite Nat.add_0_r; eauto].
    subst. apply lookup_lt_Some in Htm. lia.
  - intros r. rewrite uses_app, Hu. case_decide as Heq.
    + subst. rewrite (H3 _ _ Htm Harmed). lia.
    + rewrite Nat.add_0_r. apply H5.
Qed.

(** *** Operations that leave the registry alone *)

Lemma ack_neutral_refl m : ack_neutral m (m, []).
Proof. by split_and!. Qed.

Lemma ack_neutral_trans m r1 r2 :
  ack_neutral m r1 → ack_neutral r1.1 r2 → ack_neutral m (r2.1, r1.2 ++ r2.2).
Proof.
  intros (H1 & H2 & H3) (H4 & H5 & H6). split_and!; simpl; [congruence..|].
  by apply Forall_app.
Qed.

Local Ltac neutral :=
  repeat case_match; simpl; split_and!; simpl;
  try done; repeat constructor.

Lemma aliveNode_neutral e a m : ack_neutral m (aliveNode e a m).
Proof.
  unfold ack_neutral, aliveNode.
  destruct (nodeMap m !! alive.Node a); [neutral|].
  pose proof (create_deref e a m) as Hd.
  assert (ackHandlers (aliveNode_create e a m).2 = ackHandlers m
          ∧ timers (aliveNode_create e a m).2 = timers m) as [Hh Ht] by done.
  destruct (aliveNode_create e a m) as [p m1]. simpl in Hd, Hh, Ht.
  rewrite Hd. neutral.
Qed.

Lemma suspectNode_neutral e s m : ack_neutral m (suspectNode e s m).
Proof. unfold ack_neutral, suspectNode, nextIncarnation. neutral. Qed.

Lemma deadNode_neutral e d m : ack_neutral m (deadNode e d m).
Proof. unfold ack_neutral, deadNode, nextIncarnation. neutral. Qed.

Lemma suspicionFire_neutral e p t m : ack_neutral m (suspicionFire e p t m).
Proof.
  unfold suspicionFire, suspectTimeout.
  repeat case_match; try apply ack_neutral_refl. apply deadNode_neutral.
Qed.

Lemma mergeState_neutral remote m : ack_neutral m (mergeState remote m).
Proof.
  revert m. induction remote as [|[e r] rest IH]; intros m;
    [apply ack_neutral_refl|].
  simpl.
  match goal with |- context [if ?a then (m, []) else ?b] =>
    assert (ack_neutral m (if a then (m, []) else b)) as H1;
    [|destruct (if a then (m, []) else b) as [m1 out1]] end.
  { repeat case_match;
      auto using ack_neutral_refl, aliveNode_neutral, suspectNode_neutral,
        deadNode_neutral. }
  specialize (IH m1). destruct (mergeState rest m1) as [m2 out2].
  apply (ack_neutral_trans m (m1, out1) (m2, out2) H1 IH).
Qed.

Lemma pushPull_neutral picked reply m : ack_neutral m (pushPull picked reply m).
Proof.
  unfold pushPull, pushPullNode.
  destruct picked as [|p ?]; [apply ack_neutral_refl|].
  destruct (deref m p); [|apply ack_neutral_refl].
  destruct reply as [remote|err]; [|apply ack_neutral_refl].
  pose proof (mergeState_neutral remote m). by destruct (mergeState remote m).
Qed.

Lemma probeLoop_acks fuel draws k m m' sel :
  probeLoop fuel draws k m = Some (m', sel) →
  ackHandlers m' = ackHandlers m ∧ timers m' = timers m.
Proof.
  revert k m. induction fuel as [|fuel IH]; intros k m; simpl; [done|].
  repeat case_match; intros ?; simplify_eq; try done.
  all: match goal with H : probeLoop _ _ _ _ = _ |- _ => apply IH in H end; done.
Qed.


(** *** What every invariant of the registry needs from the other events *)

Section registry_invariant.
Variable P : gmap Z ackHandler → list reapTimer → list effect → Prop.
Hypothesis P_quiet : ∀ hs ts log out,
  Forall (λ x, ackFree x = true) out → P hs ts log → P hs ts (log ++ out).
Hypothesis P_register : ∀ hs ts log seqNo h ch,
  P hs ts log →
  P (<[seqNo := mkAckHandler h (length ts)]> hs)
    (ts ++ [mkReapTimer Armed seqNo ch]) log.

Lemma neutral_keeps m r log :
  ack_neutral m r →
  P (ackHandlers m) (timers m) log →
  P (ackHandlers r.1) (timers r.1) (log ++ r.2).
Proof using P_quiet. intros (-> & -> & Hq) Hok. by apply P_quiet. Qed.

Lemma probeNode_keeps pe node m log :
  P (ackHandlers m) (timers m) log →
  P (ackHandlers (probeNode pe node m).1) (timers (probeNode pe node m).1)
    (log ++ (probeNode pe node m).2).
Proof using P_quiet P_register.
  intros Hok. unfold probeNode, nextSeqNo.
  destruct (deref m node) as [target|];
    [|by apply (neutral_keeps m (m, []) log (ack_neutral_refl m))].
  simpl. set (m2 := setAckChannel _ _ _ _).
  assert (P (ackHandlers m2) (timers m2) log) as Hok2
    by (by apply P_register).
  assert (∀ out, Forall (λ x, ackFree x = true) out →
                 P (ackHandlers m2) (timers m2) (log ++ out)) as Hq
    by (intros; by apply P_quiet).
  set (out2 := flat_map _ (kNodes pe)).
  assert (Forall (λ x, ackFree x = true) out2) as Hout2.
  { unfold out2. apply Forall_flat_map, Forall_forall. intros [peer failed] _.
    destruct (deref m peer); [|constructor]. destruct failed; by repeat constructor. }
  destruct (pingFails pe); [apply Hq; by repeat constructor|].
  destruct (directAck pe) as [[]|]; [apply Hq; by repeat constructor|..].
  all: destruct (indirectAck pe); [apply Hq; by constructor|].
  all: destruct (deref m node) as [cur|]; [|apply Hq; by constructor].
  all: pose proof (suspectNode_neutral (penv pe)
         (suspect.mk (Incarnation cur) (Name cur)) m2) as (H3 & H4 & H5).
  all: destruct (suspectNode _ _ m2) as [m3 out3]; simpl in *.
  all: rewrite H3, H4; apply Hq; constructor; [done|by apply Forall_app].
Qed.

(** The events that are no ack and no timer. *)
Lemma other_step_keeps ev m log :
  match ev with
  | InAck _ | ReapTimer _ | TimerExpires _ | ReapRuns _ => False
  | _ => True
  end →
  P (ackHandlers m) (timers m) log →
  P (ackHandlers (step ev m).1) (timers (step ev m).1) (log ++ (step ev m).2).
Proof using P_quiet P_register.
  intros Hev Hok. destruct ev; try done; simpl.
  - by apply (neutral_keeps m); [apply aliveNode_neutral|].
  - by apply (neutral_keeps m); [apply suspectNode_neutral|].
  - by apply (neutral_keeps m); [apply deadNode_neutral|].
  - by apply (neutral_keeps m); [apply mergeState_neutral|].
  - by apply (neutral_keeps m); [apply suspicionFire_neutral|].
  - unfold probe.
    destruct (probeLoop _ _ _ _) as [[m' [node|]]|] eqn:Hl; simpl.
    + apply probeLoop_acks in Hl as [Hh Ht]. apply probeNode_keeps.
      by rewrite Hh, Ht.
    + apply probeLoop_acks in Hl as [-> ->]. by rewrite app_nil_r.
    + by rewrite app_nil_r.
  - by apply (neutral_keeps m); [apply pushPull_neutral|].
  - rewrite app_nil_r. by apply P_register.
  - rewrite app_nil_r. by apply P_register.
  - by rewrite app_nil_r.
  - by rewrite app_nil_r.
  - by rewrite app_nil_r.
Qed.
End registry_invariant.

(** *** Acks and timers *)

Lemma reapFire_armed m t tm :
  timers m !! t = Some tm → status tm = Armed →
  reapFire t m =
    (set_ackHandlers (delete (reapSeq tm) (ackHandlers m))
       (set_timers
          (<[t := mkReapTimer Fired (reapSeq tm) (reapCh tm)]> (timers m)) m),
     AckReaped t ::
       match reapCh tm with Some ch => [TrySend ch false] | None => [] end).
Proof.
  intros Htm Harmed. unfold reapFire, reapClosure, timerExpires.
  rewrite Htm, Harmed. simpl.
  rewrite list_lookup_insert_eq by (by eapply lookup_lt_Some). simpl.
  by rewrite list_insert_insert_eq.
Qed.

Lemma stopTimer_settle t m :
  ackHandlers (stopTimer t m) = ackHandlers m ∧
  timers_settle (timers m) (timers (stopTimer t m)).
Proof.
  unfold stopTimer. destruct (timers m !! t) as [tm|] eqn:Htm;
    [|split; [done|apply timers_settle_refl]].
  destruct (status tm) eqn:Hs; try (split; [done|apply timers_settle_refl]).
  split; [done|]. simpl. apply timers_settle_insert; [done|].
  intros [?|?]; discriminate.
Qed.

Lemma step_ack_sound ev m log :
  ack_sound (ackHandlers m) (timers m) log →
  ack_sound (ackHandlers (step ev m).1) (timers (step ev m).1)
    (log ++ (step ev m).2).
Proof.
  intros Hok.
  destruct ev;
    try (by apply (other_step_keeps ack_sound ack_sound_quiet ack_sound_register)).
  - simpl. unfold invokeAckHandler.
    destruct (ackHandlers m !! seqNo) as [ah|] eqn:Hah; simpl.
    + set (m1 := set_ackHandlers _ m).
      destruct (stopTimer_settle (timer ah) m1) as [-> Hsettle].
      eapply ack_sound_timers; [|exact Hsettle]. simpl.
      by apply ack_sound_invoke.
    + rewrite app_nil_r, delete_id by done. done.
  - simpl. destruct (timers m !! t) as [tm|] eqn:Htm.
    + destruct (status tm) eqn:Hs.
      * rewrite (reapFire_armed m t tm Htm Hs). simpl.
        apply ack_sound_closure; auto.
      * unfold reapFire. rewrite Htm, Hs. simpl. by rewrite app_nil_r.
      * unfold reapFire. rewrite Htm, Hs. simpl. by rewrite app_nil_r.
      * unfold reapFire. rewrite Htm, Hs. simpl. by rewrite app_nil_r.
    + unfold reapFire. rewrite Htm. simpl. by rewrite app_nil_r.
  - simpl. rewrite app_nil_r. unfold timerExpires.
    destruct (timers m !! t) as [tm|] eqn:Htm; [|done].
    destruct (status tm) eqn:Hs; try done. simpl.
    eapply ack_sound_timers; [done|]. apply timers_settle_insert; auto.
  - simpl. unfold reapClosure.
    destruct (timers m !! t) as [tm|] eqn:Htm; simpl; [|by rewrite app_nil_r].
    destruct (status tm) eqn:Hs; simpl; rewrite ?app_nil_r; try done.
    apply ack_sound_closure; auto.
Qed.

Lemma step_ack_ok ev m log :
  prompt ev →
  ack_ok (ackHandlers m) (timers m) log →
  ack_ok (ackHandlers (step ev m).1) (timers (step ev m).1) (log ++ (step ev m).2).
Proof.
  intros Hev Hok.
  destruct ev;
    try (by apply (other_step_keeps ack_ok ack_ok_quiet ack_ok_register)).
  - simpl. unfold invokeAckHandler.
    destruct (ackHandlers m !! seqNo) as [ah|] eqn:Hah; simpl.
    + destruct (ack_entries _ _ _ Hok _ _ Hah) as (tm & Htm & Harmed & _).
      unfold stopTimer. simpl. rewrite Htm, Harmed. simpl.
      by apply ack_ok_invoke.
    + rewrite app_nil_r, delete_id by done. done.
  - simpl. destruct (timers m !! t) as [tm|] eqn:Htm.
    + destruct (status tm) eqn:Hs.
      * rewrite (reapFire_armed m t tm Htm Hs). simpl. by apply ack_ok_reap.
      * unfold reapFire. rewrite Htm, Hs. simpl. by rewrite app_nil_r.
      * unfold reapFire. rewrite Htm, Hs. simpl. by rewrite app_nil_r.
      * unfold reapFire. rewrite Htm, Hs. simpl. by rewrite app_nil_r.
    + unfold reapFire. rewrite Htm. simpl. by rewrite app_nil_r.
  - simpl. unfold reapClosure.
    destruct (timers m !! t) as [tm|] eqn:Htm; simpl; [|by rewrite app_nil_r].
    destruct (status tm) eqn:Hs; simpl; rewrite ?app_nil_r; try done.
    by destruct (ack_prompt _ _ _ Hok _ _ Htm).
Qed.

Lemma run_ack_sound evs m log :
  ack_sound (ackHandlers m) (timers m) log →
  ack_sound (ackHandlers (run evs m).1) (timers (run evs m).1)
    (log ++ (run evs m).2).
Proof.
  revert m log. induction evs as [|ev evs IH]; intros m log Hok; simpl.
  - by rewrite app_nil_r.
  - pose proof (step_ack_sound ev m log Hok) as H1.
    destruct (step ev m) as [m1 out1]. specialize (IH m1 _ H1).
    destruct (run evs m1) as [m2 out2]. simpl in *. by rewrite app_assoc.
Qed.

Lemma run_ack_ok evs m log :
  Forall prompt evs →
  ack_ok (ackHandlers m) (timers m) log →
  ack_ok (ackHandlers (run evs m).1) (timers (run evs m).1) (log ++ (run evs m).2).
Proof.
  intros Hevs. revert m log.
  induction Hevs as [|ev evs Hev _ IH]; intros m log Hok; simpl.
  - by rewrite app_nil_r.
  - pose proof (step_ack_ok ev m log Hev Hok) as H1.
    destruct (step ev m) as [m1 out1]. specialize (IH m1 _ H1).
    destruct (run evs m1) as [m2 out2]. simpl in *. by rewrite app_assoc.
Qed.

(** C8, as amended.  Events are the calls of [state.go], each run as a
    whole.  In every run from a fresh node, for each registration made by
    [setAckChannel] or [setAckHandler], the handler is called at most once
    (only [invokeAckHandler] calls it) and the closure of the reap timer
    runs at most once; and at most one of the two happens as long as every
    closure runs as its timer expires.  [invokeAckHandler] removes the
    entry, stops the timer (an armed timer then never fires) and calls the
    handler; a reap timer that fires removes the entry, after which
    [invokeAckHandler] calls nothing; a second [invokeAckHandler] for the
    same sequence number calls nothing. *)
Theorem ack_at_most_once :
  (∀ c evs reg,
     (invocations reg (run evs (init c)).2 ≤ 1)%nat ∧
     (reaps reg (run evs (init c)).2 ≤ 1)%nat) ∧
  (∀ c evs reg,
     Forall prompt evs →
     (invocations reg (run evs (init c)).2
        + reaps reg (run evs (init c)).2 ≤ 1)%nat) ∧
  (∀ m seqNo ah tm,
     ackHandlers m !! seqNo = Some ah →
     timers m !! timer ah = Some tm → status tm = Armed →
     let r := invokeAckHandler seqNo m in
     r.2 = AckInvoked (timer ah) :: runHandler (handler ah) ∧
     ackHandlers r.1 !! seqNo = None ∧
     status <$> timers r.1 !! timer ah = Some Stopped ∧
     reapFire (timer ah) r.1 = (r.1, []) ∧
     reapClosure (timer ah) (timerExpires (timer ah) r.1) = (r.1, [])) ∧
  (∀ m t tm,
     timers m !! t = Some tm → status tm = Armed →
     let r := reapFire t m in
     r.2 = AckReaped t ::
             match reapCh tm with
             | Some ch => [TrySend ch false]
             | None => []
             end ∧
     ackHandlers r.1 !! reapSeq tm = None ∧
     (invokeAckHandler (reapSeq tm) r.1).2 = []) ∧
  (∀ m seqNo,
     (invokeAckHandler seqNo (invokeAckHandler seqNo m).1).2 = []).
Proof.
  split_and!.
  - intros c evs reg.
    pose proof (run_ack_sound evs (init c) [] ack_sound_init) as Hok.
    apply (sound_once _ _ _ Hok reg).
  - intros c evs reg Hevs.
    pose proof (run_ack_ok evs (init c) [] Hevs ack_ok_init) as Hok.
    apply (ack_once _ _ _ Hok reg).
  - intros m seqNo ah tm Hah Htm Harmed. unfold invokeAckHandler, stopTimer.
    rewrite Hah. simpl. rewrite Htm, Harmed. simpl.
    assert (<[timer ah := mkReapTimer Stopped (reapSeq tm) (reapCh tm)]> (timers m)
              !! timer ah
            = Some (mkReapTimer Stopped (reapSeq tm) (reapCh tm))) as Hst
      by (apply list_lookup_insert_eq; by eapply lookup_lt_Some).
    split_and!; [done|apply lookup_delete_eq|by rewrite Hst| |].
    + unfold reapFire. simpl. by rewrite Hst.
    + unfold reapClosure, timerExpires. simpl. rewrite Hst. simpl. by rewrite Hst.
  - intros m t tm Htm Harmed. simpl. rewrite (reapFire_armed m t tm Htm Harmed).
    simpl. split_and!; [done|apply lookup_delete_eq|].
    unfold invokeAckHandler. simpl. by rewrite lookup_delete_eq.
  - intros m seqNo. unfold invokeAckHandler at 1.
    assert (ackHandlers (invokeAckHandler seqNo m).1 !! seqNo = None) as ->.
    { unfold invokeAckHandler, stopTimer. repeat case_match; simpl;
        apply lookup_delete_eq. }
    done.
Qed.

(** C8 as stated fails.  [Stop] does not cancel a timer that has expired:
    when the ack for sequence number 7 is handled after the reap timer
    expired and before its closure ran, [invokeAckHandler] still finds the
    entry and calls the handler, and the closure runs afterwards: the
    channel is sent [true] and then [false]. *)
Lemma ack_and_reap_both :
  (run exLateAck (init exConfig)).2
    = [AckInvoked 0%nat; TrySend 0%nat true;
       AckReaped 0%nat; TrySend 0%nat false] ∧
  invocations 0%nat (run exLateAck (init exConfig)).2 = 1%nat ∧
  reaps 0%nat (run exLateAck (init exConfig)).2 = 1%nat.
Proof. split_and!; reflexivity. Qed.

(** The theorem applied to [exWaiting]: an ack, or the timeout, not both. *)
Lemma ack_at_most_once_witness :
  (invokeAckHandler 7 exWaiting).2 = [AckInvoked 0%nat; TrySend 0%nat true] ∧
  reapFire 0%nat (invokeAckHandler 7 exWaiting).1
    = ((invokeAckHandler 7 exWaiting).1, []) ∧
  (reapFire 0%nat exWaiting).2 = [AckReaped 0%nat; TrySend 0%nat false] ∧
  (invokeAckHandler 7 (reapFire 0%nat exWaiting).1).2 = [] ∧
  (invocations 0%nat (run [InAck 7; ReapTimer 0%nat; InAck 7] exWaiting).2
   + reaps 0%nat (run [InAck 7; ReapTimer 0%nat; InAck 7] exWaiting).2 ≤ 1)%nat.
Proof.
  destruct ack_at_most_once as (_ & Hrun & Hinv & Hreap & _).
  destruct (Hinv exWaiting 7 (mkAckHandler (SendTrue 0%nat) 0%nat)
              (mkReapTimer Armed 7 (Some 0%nat)))
    as (Hout & _ & _ & Hidle & _); [reflexivity..|].
  destruct (Hreap exWaiting 0%nat (mkReapTimer Armed 7 (Some 0%nat)))
    as (Hsent & _ & Hnone); [reflexivity..|].
  split_and!; [exact Hout | exact Hidle | exact Hsent | exact Hnone |].
  apply (Hrun exConfig
           [AckChannel 7 0%nat 1000; InAck 7; ReapTimer 0%nat; InAck 7] 0%nat).
  by repeat constructor.
Defined.

(** ** Push/pull errors (C9) *)

(** C9, where it fails.  When [sendAndReceiveState] returns an error,
    [pushPullNode] returns [nil] with the table untouched and without writing
    to the log; as it never returns an error, the branch of [pushPull] that
    logs a failed exchange is never taken, and the tick ends without a log
    line. *)
Theorem pushPull_error_dropped :
  (∀ addr err m, pushPullNode addr (inr err) m = (m, [], None)) ∧
  (∀ addr reply m, (pushPullNode addr reply m).2 = None) ∧
  (∀ picked err m, pushPull picked (inr err) m = (m, [])).
Proof.
  split_and!.
  - done.
  - intros addr [remote|err] m; simpl; [|done]. by destruct (mergeState remote m).
  - intros [|p picked] err m; simpl; [done|]. by destruct (deref m p).
Qed.

(** ** A first Alive with incarnation 0 (C10) *)

Lemma store_other m (p q : ptr) (st : NodeState) :
  p ≠ q → deref (store q st m) p = deref m p.
Proof. intros Hne. simpl. by rewrite list_lookup_insert_ne. Qed.

Lemma suspectNode_keeps_dead e s m (p : ptr) (rec : NodeState) :
  deref m p = Some rec → State rec = StateDead →
  deref (suspectNode e s m).1 p = Some rec.
Proof.
  intros Hp Hd. unfold suspectNode, nextIncarnation.
  destruct (nodeMap m !! suspect.Node s) as [q|]; [|done].
  destruct (deref m q) as [st|] eqn:Hq; [|done].
  destruct (decide (p = q)) as [->|Hne].
  - assert (st = rec) as -> by congruence. rewrite Hd.
    by destruct (suspect.Incarnation s <? Incarnation rec).
  - repeat case_match; try done; simpl; by rewrite list_lookup_insert_ne.
Qed.

Lemma deadNode_keeps_dead e d m (p : ptr) (rec : NodeState) :
  deref m p = Some rec → State rec = StateDead →
  deref (deadNode e d m).1 p = Some rec.
Proof.
  intros Hp Hd. unfold deadNode, nextIncarnation.
  destruct (nodeMap m !! dead.Node d) as [q|]; [|done].
  destruct (deref m q) as [st|] eqn:Hq; [|done].
  destruct (decide (p = q)) as [->|Hne].
  - assert (st = rec) as -> by congruence. rewrite Hd.
    by destruct (dead.Incarnation d <? Incarnation rec).
  - repeat case_match; try done; simpl; by rewrite list_lookup_insert_ne.
Qed.

Lemma aliveNode_keeps_dead e a m (p : ptr) (rec : NodeState) :
  Inv m → deref m p = Some rec →
  (alive.Node a = Name rec → alive.Incarnation a ≤ Incarnation rec) →
  deref (aliveNode e a m).1 p = Some rec.
Proof.
  intros HI Hp Hold. unfold aliveNode.
  destruct (nodeMap m !! alive.Node a) as [q|] eqn:Hm.
  - destruct (deref m q) as [st|] eqn:Hq; [|done].
    destruct (decide (p = q)) as [->|Hne].
    + assert (st = rec) as -> by congruence.
      destruct (map_points _ _ _ (inv_I1 _ HI) _ _ Hm) as (st' & Hst' & Hn).
      assert (st' = rec) as -> by congruence.
      destruct (Z.leb_spec (alive.Incarnation a) (Incarnation rec)); [done|].
      specialize (Hold (eq_sym Hn)). lia.
    + case_match; [done|]. simpl. by rewrite list_lookup_insert_ne.
  - pose proof (create_deref e a m) as Hd.
    assert (deref (aliveNode_create e a m).2 p = Some rec) as Hp'
      by (simpl; by apply lookup_app_l_Some).
    assert ((aliveNode_create e a m).1 = length (heap m)) as Hfresh by done.
    destruct (aliveNode_create e a m) as [q m1]. simpl in Hd, Hp', Hfresh.
    rewrite Hd. case_match; [done|]. simpl.
    rewrite list_lookup_insert_ne; [done|].
    apply lookup_lt_Some in Hp. lia.
Qed.

Lemma mergeState_keeps_dead remote m (p : ptr) (rec : NodeState) :
  Inv m → deref m p = Some rec → State rec = StateDead →
  Forall (λ x, pushNodeState.Name x.2 = Name rec →
               pushNodeState.State x.2 = StateAlive →
               pushNodeState.Incarnation x.2 ≤ Incarnation rec) remote →
  deref (mergeState remote m).1 p = Some rec.
Proof.
  intros HI Hp Hd Hq. revert m HI Hp.
  induction Hq as [|[e r] rest Hr _ IH]; intros m HI Hp; [done|].
  simpl in *.
  match goal with |- context [if ?a then (m, []) else ?b] =>
    assert (Inv (if a then (m, []) else b).1
            ∧ deref (if a then (m, []) else b).1 p = Some rec) as [HI1 Hp1];
    [|destruct (if a then (m, []) else b) as [m1 out1]] end.
  { destruct (match nodeMap m !! pushNodeState.Name r with
              | Some p0 => _ | None => _ end); [done|].
    destruct (Z.eqb_spec (pushNodeState.State r) StateAlive) as [Ha|].
    { split; [by apply aliveNode_Inv|]. apply aliveNode_keeps_dead; auto. }
    repeat case_match; simpl;
      auto using suspectNode_Inv, deadNode_Inv, suspectNode_keeps_dead,
        deadNode_keeps_dead. }
  specialize (IH m1 HI1 Hp1). by destruct (mergeState rest m1).
Qed.

Lemma probeNode_keeps_dead pe node m (p : ptr) (rec : NodeState) :
  deref m p = Some rec → State rec = StateDead →
  deref (probeNode pe node m).1 p = Some rec.
Proof.
  intros Hp Hd. unfold probeNode, nextSeqNo.
  destruct (deref m node) as [target|]; [|done]. simpl.
  set (m2 := setAckChannel _ _ _ _).
  destruct (pingFails pe); [done|].
  destruct (directAck pe) as [[]|]; try done.
  all: destruct (indirectAck pe); [done|].
  all: destruct (deref m node) as [cur|]; [|done].
  all: pose proof (suspectNode_keeps_dead (penv pe)
         (suspect.mk (Incarnation cur) (Name cur)) m2 p rec Hp Hd) as H3.
  all: destruct (suspectNode _ _ m2); exact H3.
Qed.

Lemma deref_same m m' (p : ptr) : table_same m m' → deref m' p = deref m p.
Proof. by intros (_ & _ & _ & ->). Qed.

Lemma step_keeps_dead ev m (p : ptr) (rec : NodeState) :
  Inv m → deref m p = Some rec →
  State rec = StateDead → Incarnation rec = 0 →
  ¬ aliveAbout (Name rec) ev →
  deref (step ev m).1 p = Some rec.
Proof.
  intros HI Hp Hd Hz Hq.
  destruct ev; simpl in *;
    try (rewrite <- Hp; apply deref_same; same_table).
  - apply aliveNode_keeps_dead; auto. intros Hn.
    destruct (Z.leb_spec (alive.Incarnation a) (Incarnation rec)); [done|].
    destruct Hq. split; [done|lia].
  - by apply suspectNode_keeps_dead.
  - by apply deadNode_keeps_dead.
  - apply mergeState_keeps_dead; auto.
    apply Forall_forall. intros x Hx Hn Ha.
    destruct (Z.leb_spec (pushNodeState.Incarnation x.2) (Incarnation rec)); [done|].
    destruct Hq. apply Exists_exists. exists x. split_and!; auto. lia.
  - unfold suspicionFire, suspectTimeout.
    repeat case_match; try done. by apply deadNode_keeps_dead.
  - unfold probe.
    destruct (probeLoop _ _ _ _) as [[m' [node|]]|] eqn:Hl; simpl; [..|done].
    + apply probeNode_keeps_dead; [|done].
      by rewrite (probeLoop_heap _ _ _ _ _ _ Hl).
    + by rewrite (probeLoop_heap _ _ _ _ _ _ Hl).
  - unfold pushPull, pushPullNode.
    destruct picked as [|q ?]; [done|]. destruct (deref m q); [|done].
    destruct reply as [remote|err]; [|done].
    assert (deref (mergeState remote m).1 p = Some rec) as Hm.
    { apply mergeState_keeps_dead; auto.
      apply Forall_forall. intros x Hx Hn Ha.
      destruct (Z.leb_spec (pushNodeState.Incarnation x.2) (Incarnation rec)); [done|].
      destruct Hq. apply Exists_exists. exists x. split_and!; auto. lia. }
    by destruct (mergeState remote m).
Qed.

Lemma run_keeps_dead evs m (p : ptr) (rec : NodeState) :
  Inv m → deref m p = Some rec →
  State rec = StateDead → Incarnation rec = 0 →
  Forall (λ ev, ¬ aliveAbout (Name rec) ev) evs →
  deref (run evs m).1 p = Some rec.
Proof.
  intros HI Hp Hd Hz Hq. revert m HI Hp.
  induction Hq as [|ev evs Hev _ IH]; intros m HI Hp; [done|].
  simpl. pose proof (step_Inv ev m HI) as HI1.
  pose proof (step_keeps_dead ev m p rec HI Hp Hd Hz Hev) as Hp1.
  destruct (step ev m) as [m1 out1]. specialize (IH m1 HI1 Hp1).
  by destruct (run evs m1).
Qed.

(** C10.  In a state the node can reach, an Alive with incarnation 0 about
    an unknown name adds one entry to the mapping and one to the sequence
    (appended, then exchanged with the position [randomOffset] picks), for a
    new record in state Dead with incarnation 0 and the message's Addr and
    Meta; nothing is broadcast and nobody is notified.  The record stays as
    it is through every later event that delivers no Alive about that name
    with incarnation [>= 1]. *)
Theorem alive_zero_incarnation e a m :
  reachable m →
  nodeMap m !! alive.Node a = None →
  alive.Incarnation a = 0 →
  let r := aliveNode e a m in
  let p := length (heap m) in
  let rec :=
    mkNodeState (mkNode (alive.Node a) (alive.Addr a) (alive.Meta a))
      0 StateDead 0 in
  r.2 = [] ∧
  nodeMap r.1 = <[alive.Node a := p]> (nodeMap m) ∧
  size (nodeMap r.1) = S (size (nodeMap m)) ∧
  nodes r.1 = swap (nodes m ++ [p])
                (randomOffset (rand e) (length (nodes m))) (length (nodes m)) ∧
  length (nodes r.1) = S (length (nodes m)) ∧
  p ∈ nodes r.1 ∧
  heap r.1 = heap m ++ [rec] ∧
  ∀ evs, Forall (λ ev, ¬ aliveAbout (alive.Node a) ev) evs →
         deref (run evs r.1).1 p = Some rec.
Proof.
  intros Hreach Hnone Hzero r p rec.
  apply reachable_Inv in Hreach as HI.
  assert (r = ((aliveNode_create e a m).2, [])) as Hr.
  { unfold r, aliveNode. rewrite Hnone.
    pose proof (create_deref e a m) as Hd.
    destruct (aliveNode_create e a m) as [q m1]. simpl in Hd. rewrite Hd.
    simpl. by rewrite Hzero. }
  assert (Inv r.1) as HI1 by (by apply aliveNode_Inv).
  assert (nodeMap r.1 = <[alive.Node a := p]> (nodeMap m)) as Hmap
    by (by rewrite Hr).
  assert (nodes r.1 = swap (nodes m ++ [p])
            (randomOffset (rand e) (length (nodes m))) (length (nodes m)))
    as Hnodes by (by rewrite Hr).
  assert (heap r.1 = heap m ++ [rec]) as Hheap by (by rewrite Hr).
  assert (deref r.1 p = Some rec) as Hp.
  { rewrite Hheap. rewrite lookup_app_r by (unfold p; lia).
    unfold p. by rewrite Nat.sub_diag. }
  split_and!; try done.
  - by rewrite Hr.
  - rewrite Hmap. by apply map_size_insert_None.
  - by rewrite Hnodes, swap_length, length_app, Nat.add_1_r.
  - rewrite Hnodes, elem_of_swap, elem_of_app, list_elem_of_singleton. by right.
  - intros evs Hq. by apply run_keeps_dead.
Qed.

(** The theorem applied to [exTwo] and an unknown node ["d"]: a Suspect, a
    Dead and a second Alive with incarnation 0 about ["d"] leave the record
    Dead. *)
Lemma alive_zero_incarnation_witness :
  let r := aliveNode (mkEnv 30 5) (alive.mk 0 "d" [] []) exTwo in
  let rec := mkNodeState (mkNode "d" [] []) 0 StateDead 0 in
  r.2 = [] ∧
  nodeMap r.1 !! "d" = Some 2%nat ∧
  nodes r.1 = [1%nat; 2%nat; 0%nat] ∧
  heap r.1 = heap exTwo ++ [rec] ∧
  deref (run [InSuspect (mkEnv 31 0) (suspect.mk 4 "d");
              InDead (mkEnv 32 0) (dead.mk 4 "d");
              InAlive (mkEnv 33 0) (alive.mk 0 "d" [] []);
              InAlive (mkEnv 34 0) (alive.mk 9 "b" [] [])] r.1).1 2%nat
    = Some rec.
Proof.
  destruct (alive_zero_incarnation (mkEnv 30 5) (alive.mk 0 "d" [] []) exTwo)
    as (Hout & Hmap & _ & Hnodes & _ & _ & Hheap & Hstay).
  - eexists exConfig, _. reflexivity.
  - reflexivity.
  - reflexivity.
  - split_and!; [exact Hout | by rewrite Hmap | exact Hnodes | exact Hheap |].
    apply Hstay. repeat constructor; simpl; try tauto.
    + intros [_ ?]. lia.
    + intros [[=] _].
Defined.

(** ** Further properties of the table *)

Lemma grows_refl self h : grows self h h.
Proof. intros p st Hp. exists st. split_and!; [done..|lia]. Qed.

Lemma grows_trans self h1 h2 h3 :
  grows self h1 h2 → grows self h2 h3 → grows self h1 h3.
Proof.
  intros H12 H23 p st Hp.
  destruct (H12 p st Hp) as (st2 & Hp2 & Hn2 & Hi2).
  destruct (H23 p st2 Hp2) as (st3 & Hp3 & Hn3 & Hi3).
  exists st3. split_and!; [done|congruence|].
  intros Hne. specialize (Hi2 Hne). rewrite <- Hn2 in Hne. specialize (Hi3 Hne). lia.
Qed.

Lemma grows_store self h (p : ptr) (st st' : NodeState) :
  h !! p = Some st → toNode st' = toNode st →
  (Name st ≠ self → Incarnation st ≤ Incarnation st') →
  grows self h (<[p := st']> h).
Proof.
  intros Hp Hn Hi q sq Hq. destruct (decide (p = q)) as [->|Hne].
  - exists st'. rewrite list_lookup_insert_eq by (by eapply lookup_lt_Some).
    simplify_eq. done.
  - exists sq. rewrite list_lookup_insert_ne by done. split_and!; [done..|lia].
Qed.

Lemma grows_app self h l : grows self h (h ++ l).
Proof.
  intros p st Hp. exists st. split_and!; [by apply lookup_app_l_Some|done|lia].
Qed.

Lemma aliveNode_grows e a m :
  grows (Config.Name (config m)) (heap m) (heap (aliveNode e a m).1).
Proof.
  unfold aliveNode.
  destruct (nodeMap m !! alive.Node a) as [p|] eqn:Hm.
  - destruct (deref m p) as [st|] eqn:Hp; [|apply grows_refl].
    destruct (Z.leb_spec (alive.Incarnation a) (Incarnation st));
      [apply grows_refl|]. simpl.
    eapply grows_store; [done|by case_match|].
    intros _. case_match; simpl; lia.
  - pose proof (create_deref e a m) as Hd.
    assert (grows (Config.Name (config m)) (heap m)
              (heap (aliveNode_create e a m).2)) as Hc by apply grows_app.
    destruct (aliveNode_create e a m) as [p m1]. simpl in Hd, Hc.
    rewrite Hd. simpl.
    destruct (Z.leb_spec (alive.Incarnation a) 0); [done|]. simpl.
    apply (grows_trans _ _ _ _ Hc).
    eapply grows_store; [done|done|]. simpl. lia.
Qed.

Lemma suspectNode_grows e s m :
  grows (Config.Name (config m)) (heap m) (heap (suspectNode e s m).1).
Proof.
  unfold suspectNode, nextIncarnation.
  destruct (nodeMap m !! suspect.Node s) as [p|]; [|apply grows_refl].
  destruct (deref m p) as [st|] eqn:Hp; [|apply grows_refl].
  destruct (Z.ltb_spec (suspect.Incarnation s) (Incarnation st));
    [apply grows_refl|].
  destruct (negb (State st =? StateAlive)); [apply grows_refl|].
  destruct (String.eqb_spec (Name st) (Config.Name (config m))); simpl.
  - eapply grows_store; [done|done|]. done.
  - eapply grows_store; [done|done|]. simpl. lia.
Qed.

Lemma deadNode_grows e d m :
  grows (Config.Name (config m)) (heap m) (heap (deadNode e d m).1).
Proof.
  unfold deadNode, nextIncarnation.
  destruct (nodeMap m !! dead.Node d) as [p|]; [|apply grows_refl].
  destruct (deref m p) as [st|] eqn:Hp; [|apply grows_refl].
  destruct (Z.ltb_spec (dead.Incarnation d) (Incarnation st));
    [apply grows_refl|].
  destruct (State st =? StateDead); [apply grows_refl|].
  destruct (String.eqb_spec (Name st) (Config.Name (config m))) as [Heq|Hne];
    [destruct (leave m)|]; simpl.
  - eapply grows_store; [done|done|]. simpl. lia.
  - eapply grows_store; [done|done|]. done.
  - eapply grows_store; [done|done|]. simpl. lia.
Qed.

(** No event changes the configuration. *)
Lemma aliveNode_config e a m : config (aliveNode e a m).1 = config m.
Proof.
  unfold aliveNode. destruct (nodeMap m !! alive.Node a); [by repeat case_match|].
  pose proof (create_deref e a m) as Hd.
  assert (config (aliveNode_create e a m).2 = config m) as Hc by done.
  destruct (aliveNode_create e a m) as [p m1]. simpl in Hd, Hc.
  rewrite Hd. by repeat case_match.
Qed.

Lemma suspectNode_config e s m : config (suspectNode e s m).1 = config m.
Proof. unfold suspectNode, nextIncarnation. by repeat case_match. Qed.

Lemma deadNode_config e d m : config (deadNode e d m).1 = config m.
Proof. unfold deadNode, nextIncarnation. by repeat case_match. Qed.

Lemma mergeState_config remote m : config (mergeState remote m).1 = config m.
Proof.
  revert m. induction remote as [|[e r] rest IH]; intros m; [done|]. simpl.
  match goal with |- context [if ?a then (m, []) else ?b] =>
    assert (config (if a then (m, []) else b).1 = config m) as H1;
    [|destruct (if a then (m, []) else b) as [m1 out1]] end.
  { repeat case_match;
      auto using aliveNode_config, suspectNode_config, deadNode_config. }
  specialize (IH m1). destruct (mergeState rest m1). simpl in *. congruence.
Qed.

Lemma mergeState_grows remote m :
  grows (Config.Name (config m)) (heap m) (heap (mergeState remote m).1).
Proof.
  revert m. induction remote as [|[e r] rest IH]; intros m; [apply grows_refl|].
  simpl.
  match goal with |- context [if ?a then (m, []) else ?b] =>
    assert (grows (Config.Name (config m)) (heap m)
              (heap (if a then (m, []) else b).1)
            ∧ config (if a then (m, []) else b).1 = config m) as [H1 Hc];
    [|destruct (if a then (m, []) else b) as [m1 out1]] end.
  { repeat case_match; simpl;
      auto using grows_refl, aliveNode_grows, suspectNode_grows, deadNode_grows,
        aliveNode_config, suspectNode_config, deadNode_config. }
  specialize (IH m1). destruct (mergeState rest m1). simpl in *.
  rewrite Hc in IH. by eapply grows_trans.
Qed.

Lemma probeLoop_config fuel draws k m m' sel :
  probeLoop fuel draws k m = Some (m', sel) → config m' = config m.
Proof.
  revert k m. induction fuel as [|fuel IH]; intros k m; simpl; [done|].
  repeat case_match; intros ?; simplify_eq; try done.
  all: match goal with H : probeLoop _ _ _ _ = _ |- _ => apply IH in H end; done.
Qed.

Lemma probeNode_grows pe node m :
  grows (Config.Name (config m)) (heap m) (heap (probeNode pe node m).1).
Proof.
  unfold probeNode, nextSeqNo.
  destruct (deref m node) as [target|]; [|apply grows_refl]. simpl.
  set (m2 := setAckChannel _ _ _ _).
  destruct (pingFails pe); [apply grows_refl|].
  destruct (directAck pe) as [[]|]; try apply grows_refl.
  all: destruct (indirectAck pe); [apply grows_refl|].
  all: destruct (deref m node) as [cur|]; [|apply grows_refl].
  all: pose proof (suspectNode_grows (penv pe)
         (suspect.mk (Incarnation cur) (Name cur)) m2) as H3.
  all: destruct (suspectNode _ _ m2); exact H3.
Qed.

Lemma config_same m m' : table_same m m' → config m' = config m.
Proof. by intros (-> & _). Qed.

Lemma step_config ev m : config (step ev m).1 = config m.
Proof.
  destruct ev; simpl; try (apply config_same; same_table).
  - apply aliveNode_config.
  - apply suspectNode_config.
  - apply deadNode_config.
  - apply mergeState_config.
  - unfold suspicionFire, suspectTimeout.
    repeat case_match; try done. apply deadNode_config.
  - unfold probe.
    destruct (probeLoop _ _ _ _) as [[m' [node|]]|] eqn:Hl; simpl; [..|done].
    + destruct (probeNode_frame pe node m') as (-> & _).
      by eapply probeLoop_config.
    + by eapply probeLoop_config.
  - unfold pushPull, pushPullNode.
    destruct picked as [|p ?]; [done|]. destruct (deref m p); [|done].
    destruct reply as [remote|err]; [|done].
    pose proof (mergeState_config remote m). by destruct (mergeState remote m).
Qed.

Lemma grows_same self m m' : table_same m m' → grows self (heap m) (heap m').
Proof. intros (_ & _ & _ & ->). apply grows_refl. Qed.

Lemma step_grows ev m :
  grows (Config.Name (config m)) (heap m) (heap (step ev m).1).
Proof.
  destruct ev; simpl; try (apply grows_same; same_table).
  - apply aliveNode_grows.
  - apply suspectNode_grows.
  - apply deadNode_grows.
  - apply mergeState_grows.
  - unfold suspicionFire, suspectTimeout.
    repeat case_match; try apply grows_refl. apply deadNode_grows.
  - unfold probe.
    destruct (probeLoop _ _ _ _) as [[m' [node|]]|] eqn:Hl; simpl;
      try apply grows_refl.
    + rewrite <- (probeLoop_heap _ _ _ _ _ _ Hl),
        <- (probeLoop_config _ _ _ _ _ _ Hl). apply probeNode_grows.
    + rewrite (probeLoop_heap _ _ _ _ _ _ Hl). apply grows_refl.
  - unfold pushPull, pushPullNode.
    destruct picked as [|p ?]; [apply grows_refl|].
    destruct (deref m p); [|apply grows_refl].
    destruct reply as [remote|err]; [|apply grows_refl].
    pose proof (mergeState_grows remote m). by destruct (mergeState remote m).
Qed.

Lemma run_config evs m : config (run evs m).1 = config m.
Proof.
  revert m. induction evs as [|ev evs IH]; intros m; [done|]. simpl.
  pose proof (step_config ev m) as H1. destruct (step ev m) as [m1 o1].
  specialize (IH m1). destruct (run evs m1). simpl in *. congruence.
Qed.

Lemma run_grows evs m :
  grows (Config.Name (config m)) (heap m) (heap (run evs m).1).
Proof.
  revert m. induction evs as [|ev evs IH]; intros m; [apply grows_refl|]. simpl.
  pose proof (step_grows ev m) as H1. pose proof (step_config ev m) as Hc.
  destruct (step ev m) as [m1 o1]. specialize (IH m1).
  destruct (run evs m1). simpl in *. rewrite Hc in IH. by eapply grows_trans.
Qed.

(** Incarnation monotonicity, for the peers: whatever events follow, a
    record about a node other than the local one stays allocated, keeps its
    name, and its incarnation does not decrease. *)
Theorem peer_incarnation_monotone evs m (p : ptr) (st : NodeState) :
  deref m p = Some st →
  Name st ≠ Config.Name (config m) →
  ∃ st' : NodeState,
    deref (run evs m).1 p = Some st' ∧ Name st' = Name st ∧
    Incarnation st ≤ Incarnation st'.
Proof.
  intros Hp Hne. destruct (run_grows evs m p st Hp) as (st' & Hp' & Hn & Hi).
  exists st'. split_and!; [done|by rewrite Hn|auto].
Qed.

(** The theorem applied to ["b"] of [exPeers], refuted and suspected again. *)
Lemma peer_incarnation_monotone_witness :
  ∃ st' : NodeState,
    deref (run exRefuted exPeers).1 1%nat = Some st' ∧ Name st' = Name exB ∧
    Incarnation exB ≤ Incarnation st'.
Proof.
  apply (peer_incarnation_monotone exRefuted exPeers 1%nat exB);
    [reflexivity | discriminate].
Defined.

(** In every state the node can reach: the table satisfies I1, no record
    with the local node's name is Suspect, and every record is in one of the
    three declared states. *)
Theorem reachable_table_invariants m :
  reachable m →
  I1 m ∧
  (∀ (p : ptr) (st : NodeState),
     deref m p = Some st → Name st = Config.Name (config m) →
     State st ≠ StateSuspect) ∧
  (∀ (p : ptr) (st : NodeState),
     deref m p = Some st →
     State st = StateAlive ∨ State st = StateSuspect ∨ State st = StateDead).
Proof.
  intros [HI Hs Hk]%reachable_Inv. split_and!; [done|exact Hs|exact Hk].
Qed.

(** The theorem applied to the table of the reset scenario. *)
Lemma reachable_table_invariants_witness :
  I1 exSweep ∧
  (∀ (p : ptr) (st : NodeState),
     deref exSweep p = Some st → Name st = Config.Name (config exSweep) →
     State st ≠ StateSuspect) ∧
  (∀ (p : ptr) (st : NodeState),
     deref exSweep p = Some st →
     State st = StateAlive ∨ State st = StateSuspect ∨ State st = StateDead).
Proof.
  apply (reachable_table_invariants exSweep). eexists exConfig, _. reflexivity.
Defined.

(** The loop of [probe] returns after examining at most [len(nodes)]
    positions, and a record it selects stands at [probeIndex] and is neither
    the local node's nor Dead. *)
Theorem probe_tick_bounded draws m :
  ∃ m' sel,
    probeLoop (S (length (nodes m))) draws 0 m = Some (m', sel) ∧
    ∀ node : ptr, sel = Some node →
      nodes m' !! probeIndex m' = Some node ∧
      match deref m' node with
      | Some st => Name st ≠ Config.Name (config m') ∧ State st ≠ StateDead
      | None => True
      end.
Proof.
  destruct (probeLoop_returns (S (length (nodes m))) draws 0%nat m)
    as [[m' sel] Hl]; [lia|].
  exists m', sel. split; [done|]. intros node ->.
  by apply probeLoop_selected in Hl as (_ & ? & ?).
Qed.

(** ** Sequence numbers *)

Lemma drawSeqNos_lookup n m i :
  (i < n)%nat →
  drawSeqNos n m !! i = Some ((sequenceNum m + Z.of_nat i + 1) mod 2 ^ 32).
Proof.
  revert m i. induction n as [|n IH]; intros m i Hi; [lia|].
  simpl. destruct i as [|i]; simpl.
  - unfold uint32_add1. f_equal. f_equal. lia.
  - rewrite IH by lia. simpl. unfold uint32_add1. f_equal.
    rewrite <- Z.add_assoc, Zplus_mod_idemp_l. f_equal. lia.
Qed.

Lemma drawSeqNos_length n m : length (drawSeqNos n m) = n.
Proof. revert m. induction n as [|n IH]; intros m; simpl; [done|]. by rewrite IH. Qed.

(** [nextSeqNo] counts modulo [2^32]: fewer than [2^32 + 1] successive
    calls return pairwise distinct numbers, all of them [uint32] values,
    whatever the counter held before; and the number after [2^32 - 1]
    is [0]. *)
Theorem seqNos_distinct n m :
  Z.of_nat n ≤ 2 ^ 32 →
  NoDup (drawSeqNos n m) ∧
  Forall (λ s, 0 ≤ s < 2 ^ 32) (drawSeqNos n m) ∧
  (sequenceNum m = 2 ^ 32 - 1 → (nextSeqNo m).1 = 0) ∧
  incarnation (nextSeqNo m).2 = incarnation m.
Proof.
  intros Hn. split_and!.
  - apply NoDup_alt. intros i j x Hi Hj.
    pose proof (lookup_lt_Some _ _ _ Hi) as Hil.
    pose proof (lookup_lt_Some _ _ _ Hj) as Hjl.
    rewrite drawSeqNos_length in Hil, Hjl.
    rewrite drawSeqNos_lookup in Hi, Hj by done.
    set (N := 2 ^ 32) in *. assert (0 < N) as HN by (unfold N; lia).
    assert ((sequenceNum m + Z.of_nat i + 1) mod N
            = (sequenceNum m + Z.of_nat j + 1) mod N) as Heq by congruence.
    pose proof (Z.div_mod (sequenceNum m + Z.of_nat i + 1) N) as Hdi.
    pose proof (Z.div_mod (sequenceNum m + Z.of_nat j + 1) N) as Hdj.
    rewrite Heq in Hdi.
    assert (N * ((sequenceNum m + Z.of_nat i + 1) `div` N
                 - (sequenceNum m + Z.of_nat j + 1) `div` N)
            = Z.of_nat i - Z.of_nat j) as Hd by lia.
    assert ((sequenceNum m + Z.of_nat i + 1) `div` N
            - (sequenceNum m + Z.of_nat j + 1) `div` N = 0) as Hz by nia.
    rewrite Hz in Hd. lia.
  - apply Forall_forall. intros s Hs. apply list_elem_of_lookup in Hs as [i Hi].
    pose proof (lookup_lt_Some _ _ _ Hi) as Hil.
    rewrite drawSeqNos_length in Hil.
    rewrite drawSeqNos_lookup in Hi by done. simplify_eq.
    apply Z.mod_pos_bound. lia.
  - intros Hs. simpl. unfold uint32_add1. rewrite Hs. reflexivity.
  - done.
Qed.

(** The theorem applied to a counter two steps before it wraps. *)
Lemma seqNos_distinct_witness :
  NoDup (drawSeqNos 4 (set_sequenceNum (2 ^ 32 - 3) (init exConfig))) ∧
  drawSeqNos 4 (set_sequenceNum (2 ^ 32 - 3) (init exConfig))
    = [2 ^ 32 - 2; 2 ^ 32 - 1; 0; 1].
Proof.
  destruct (seqNos_distinct 4 (set_sequenceNum (2 ^ 32 - 3) (init exConfig)))
    as (Hd & _); [lia|].
  split; [exact Hd | reflexivity].
Defined.

(** ** Messages delivered twice *)

Lemma store_at m (p : ptr) (st st' : NodeState) :
  deref m p = Some st → deref (store p st' m) p = Some st'.
Proof. intros Hp. simpl. apply list_lookup_insert_eq. by eapply lookup_lt_Some. Qed.

(** An Alive about an unknown name first creates the record, then goes on
    as for a known name. *)
Lemma aliveNode_created e a m :
  nodeMap m !! alive.Node a = None →
  aliveNode e a m = aliveNode e a (aliveNode_create e a m).2.
Proof.
  intros Hm. unfold aliveNode at 1. rewrite Hm.
  unfold aliveNode. simpl nodeMap. by rewrite lookup_insert_eq.
Qed.

Lemma aliveNode_again e e' a m :
  aliveNode e' a (aliveNode e a m).1 = ((aliveNode e a m).1, []).
Proof.
  assert (∀ m1 (p : ptr) (st : NodeState),
            nodeMap m1 !! alive.Node a = Some p → deref m1 p = Some st →
            aliveNode e' a (aliveNode e a m1).1 = ((aliveNode e a m1).1, []))
    as Hknown.
  { intros m1 p st Hm Hp. unfold aliveNode at 2 3. rewrite Hm, Hp.
    destruct (Z.leb_spec (alive.Incarnation a) (Incarnation st)) as [Hle|Hlt].
    - simpl. unfold aliveNode. rewrite Hm, Hp.
      by destruct (Z.leb_spec (alive.Incarnation a) (Incarnation st)); [|lia].
    - simpl. unfold aliveNode. simpl nodeMap. rewrite Hm.
      erewrite store_at by done.
      destruct (negb (State st =? StateAlive)); simpl; by rewrite Z.leb_refl. }
  destruct (nodeMap m !! alive.Node a) as [p|] eqn:Hm.
  - destruct (deref m p) as [st|] eqn:Hp; [by eapply Hknown|].
    unfold aliveNode. rewrite Hm, Hp. simpl. by rewrite Hm, Hp.
  - rewrite (aliveNode_created e a m Hm).
    eapply Hknown; [apply lookup_insert_eq|].
    simpl. by rewrite lookup_app_r, Nat.sub_diag.
Qed.

Lemma suspectNode_again e e' s m :
  I1 m → suspect.Node s ≠ Config.Name (config m) →
  suspectNode e' s (suspectNode e s m).1 = ((suspectNode e s m).1, []).
Proof.
  intros HI Hne. unfold suspectNode at 2 3.
  destruct (nodeMap m !! suspect.Node s) as [p|] eqn:Hm;
    [|simpl; unfold suspectNode; by rewrite Hm].
  destruct (map_points _ _ _ HI _ _ Hm) as (st & Hp & Hn). rewrite Hp.
  destruct (Z.ltb_spec (suspect.Incarnation s) (Incarnation st)) as [Hlt|Hge].
  { simpl. unfold suspectNode. rewrite Hm, Hp.
    by destruct (Z.ltb_spec (suspect.Incarnation s) (Incarnation st)); [|lia]. }
  destruct (Z.eqb_spec (State st) StateAlive) as [Ha|Hna]; simpl.
  2:{ unfold suspectNode. rewrite Hm, Hp.
      destruct (Z.ltb_spec (suspect.Incarnation s) (Incarnation st)); [done|].
      by destruct (Z.eqb_spec (State st) StateAlive). }
  destruct (String.eqb_spec (Name st) (Config.Name (config m))) as [He|_];
    [congruence|]. simpl.
  unfold suspectNode. simpl nodeMap. rewrite Hm.
  erewrite store_at by done. simpl.
  by rewrite Z.ltb_irrefl.
Qed.

Lemma deadNode_again e e' d m :
  I1 m → dead.Node d ≠ Config.Name (config m) ∨ leave m = true →
  deadNode e' d (deadNode e d m).1 = ((deadNode e d m).1, []).
Proof.
  intros HI Hne. unfold deadNode at 2 3.
  destruct (nodeMap m !! dead.Node d) as [p|] eqn:Hm;
    [|simpl; unfold deadNode; by rewrite Hm].
  destruct (map_points _ _ _ HI _ _ Hm) as (st & Hp & Hn). rewrite Hp.
  destruct (Z.ltb_spec (dead.Incarnation d) (Incarnation st)) as [Hlt|Hge].
  { simpl. unfold deadNode. rewrite Hm, Hp.
    by destruct (Z.ltb_spec (dead.Incarnation d) (Incarnation st)); [|lia]. }
  destruct (Z.eqb_spec (State st) StateDead) as [Ha|Hna]; simpl.
  { unfold deadNode. rewrite Hm, Hp.
    destruct (Z.ltb_spec (dead.Incarnation d) (Incarnation st)); [done|].
    by destruct (Z.eqb_spec (State st) StateDead). }
  assert (String.eqb (Name st) (Config.Name (config m)) && negb (leave m) = false)
    as ->.
  { destruct Hne as [Hne| ->]; [|by rewrite andb_false_r].
    by destruct (String.eqb_spec (Name st) (Config.Name (config m))); [congruence|]. }
  simpl. unfold deadNode. simpl nodeMap. rewrite Hm.
  erewrite store_at by done. simpl.
  by rewrite Z.ltb_irrefl.
Qed.

(** A message that is delivered a second time is dropped: the second
    delivery changes nothing, queues no broadcast, notifies nobody and arms
    no timer.  For an Alive this holds in every state; for a Suspect or a
    Dead it holds when the message is about another node (or, for a Dead
    about the local node, once the node is leaving), since the local node
    refutes each Suspect or Dead about itself anew. *)
Theorem duplicate_dropped m :
  reachable m →
  (∀ e e' a,
     aliveNode e' a (aliveNode e a m).1 = ((aliveNode e a m).1, [])) ∧
  (∀ e e' s,
     suspect.Node s ≠ Config.Name (config m) →
     suspectNode e' s (suspectNode e s m).1 = ((suspectNode e s m).1, [])) ∧
  (∀ e e' d,
     dead.Node d ≠ Config.Name (config m) ∨ leave m = true →
     deadNode e' d (deadNode e d m).1 = ((deadNode e d m).1, [])).
Proof.
  intros HI%reachable_Inv%inv_I1. split_and!.
  - intros. apply aliveNode_again.
  - intros. by apply suspectNode_again.
  - intros. by apply deadNode_again.
Qed.

(** The theorem applied to [exTwo]: ["b"] is suspected twice. *)
Lemma duplicate_dropped_witness :
  suspectNode (mkEnv 21 0) (suspect.mk 7 "b")
    (suspectNode (mkEnv 20 0) (suspect.mk 7 "b") exTwo).1
  = ((suspectNode (mkEnv 20 0) (suspect.mk 7 "b") exTwo).1, []).
Proof.
  destruct (duplicate_dropped exTwo) as (_ & Hs & _).
  - eexists exConfig, _. reflexivity.
  - apply Hs. discriminate.
Defined.

(** ** A message changes the record of the node it names, and no other *)

Lemma suspectNode_other e s m (q : ptr) (st : NodeState) :
  I1 m → deref m q = Some st → suspect.Node s ≠ Name st →
  deref (suspectNode e s m).1 q = Some st.
Proof.
  intros HI Hq Hne. unfold suspectNode, nextIncarnation.
  destruct (nodeMap m !! suspect.Node s) as [p|] eqn:Hm; [|done].
  destruct (map_points _ _ _ HI _ _ Hm) as (sp & Hp & Hn). rewrite Hp.
  assert (q ≠ p) as Hqp by (intros ->; congruence).
  repeat case_match; try done; simpl; by rewrite list_lookup_insert_ne.
Qed.

Lemma deadNode_other e d m (q : ptr) (st : NodeState) :
  I1 m → deref m q = Some st → dead.Node d ≠ Name st →
  deref (deadNode e d m).1 q = Some st.
Proof.
  intros HI Hq Hne. unfold deadNode, nextIncarnation.
  destruct (nodeMap m !! dead.Node d) as [p|] eqn:Hm; [|done].
  destruct (map_points _ _ _ HI _ _ Hm) as (sp & Hp & Hn). rewrite Hp.
  assert (q ≠ p) as Hqp by (intros ->; congruence).
  repeat case_match; try done; simpl; by rewrite list_lookup_insert_ne.
Qed.

Lemma aliveNode_other e a m (q : ptr) (st : NodeState) :
  Inv m → deref m q = Some st → alive.Node a ≠ Name st →
  deref (aliveNode e a m).1 q = Some st.
Proof. intros HI Hq Hne. apply aliveNode_keeps_dead; auto. congruence. Qed.

Lemma mergeState_other remote m (q : ptr) (st : NodeState) :
  Inv m → deref m q = Some st →
  Forall (λ x, pushNodeState.Name x.2 ≠ Name st) remote →
  deref (mergeState remote m).1 q = Some st.
Proof.
  intros HI Hq Hall. revert m HI Hq.
  induction Hall as [|[e r] rest Hr _ IH]; intros m HI Hq; [done|].
  simpl in *.
  match goal with |- context [if ?a then (m, []) else ?b] =>
    assert (Inv (if a then (m, []) else b).1
            ∧ deref (if a then (m, []) else b).1 q = Some st) as [HI1 Hq1];
    [|destruct (if a then (m, []) else b) as [m1 out1]] end.
  { pose proof (inv_I1 _ HI).
    destruct (match nodeMap m !! pushNodeState.Name r with
              | Some p0 => _ | None => _ end); [done|].
    repeat case_match; simpl; try done;
      (split; [auto using aliveNode_Inv, suspectNode_Inv, deadNode_Inv
              |auto using aliveNode_other, suspectNode_other, deadNode_other]). }
  specialize (IH m1 HI1 Hq1). by destruct (mergeState rest m1).
Qed.

(** A message changes at most the record of the node it names: after an
    Alive, a Suspect or a Dead about one node, and after a state transfer,
    every record of a node that the message does not name is as before, and
    so is the entry of every other name in the mapping. *)
Theorem message_touches_one_record m (q : ptr) (st : NodeState) :
  reachable m → deref m q = Some st →
  (∀ e a, alive.Node a ≠ Name st →
     deref (aliveNode e a m).1 q = Some st ∧
     nodeMap (aliveNode e a m).1 !! Name st = nodeMap m !! Name st) ∧
  (∀ e s, suspect.Node s ≠ Name st →
     deref (suspectNode e s m).1 q = Some st ∧
     nodeMap (suspectNode e s m).1 = nodeMap m) ∧
  (∀ e d, dead.Node d ≠ Name st →
     deref (deadNode e d m).1 q = Some st ∧
     nodeMap (deadNode e d m).1 = nodeMap m) ∧
  (∀ remote, Forall (λ x, pushNodeState.Name x.2 ≠ Name st) remote →
     deref (mergeState remote m).1 q = Some st).
Proof.
  intros HI%reachable_Inv Hq. pose proof (inv_I1 _ HI) as H1. split_and!.
  - intros e a Hne. split; [by apply aliveNode_other|].
    unfold aliveNode. destruct (nodeMap m !! alive.Node a) as [p|] eqn:Hm.
    + by repeat case_match.
    + pose proof (create_deref e a m) as Hd.
      assert (nodeMap (aliveNode_create e a m).2 !! Name st
              = nodeMap m !! Name st) as Hk
        by (simpl; by rewrite lookup_insert_ne).
      destruct (aliveNode_create e a m) as [p m1]. simpl in Hd, Hk.
      rewrite Hd. by repeat case_match.
  - intros e s Hne. split; [by apply suspectNode_other|].
    apply suspectNode_frame.
  - intros e d Hne. split; [by apply deadNode_other|].
    unfold deadNode, nextIncarnation. by repeat case_match.
  - intros remote Hall. by apply mergeState_other.
Qed.

(** The theorem applied to [exTwo]: a Dead about ["b"] leaves the record
    of ["self"] alone. *)
Lemma message_touches_one_record_witness :
  deref (deadNode (mkEnv 20 0) (dead.mk 7 "b") exTwo).1 0%nat
    = Some (mkNodeState (mkNode "self" [] []) 1 StateAlive 10) ∧
  nodeMap (deadNode (mkEnv 20 0) (dead.mk 7 "b") exTwo).1 = nodeMap exTwo.
Proof.
  destruct (message_touches_one_record exTwo 0%nat
              (mkNodeState (mkNode "self" [] []) 1 StateAlive 10))
    as (_ & _ & Hd & _).
  - eexists exConfig, _. reflexivity.
  - reflexivity.
  - apply (Hd (mkEnv 20 0) (dead.mk 7 "b")). discriminate.
Defined.

(** ** Dead records *)

Lemma step_keeps_dead_below ev m (p : ptr) (rec : NodeState) :
  Inv m → deref m p = Some rec → State rec = StateDead →
  ¬ newerAlive (Name rec) (Incarnation rec) ev →
  deref (step ev m).1 p = Some rec.
Proof.
  intros HI Hp Hd Hq.
  destruct ev; simpl in *;
    try (rewrite <- Hp; apply deref_same; same_table).
  - apply aliveNode_keeps_dead; auto. intros Hn.
    destruct (Z.leb_spec (alive.Incarnation a) (Incarnation rec)); [done|].
    destruct Hq. split; [done|lia].
  - by apply suspectNode_keeps_dead.
  - by apply deadNode_keeps_dead.
  - apply mergeState_keeps_dead; auto.
    apply Forall_forall. intros x Hx Hn Ha.
    destruct (Z.leb_spec (pushNodeState.Incarnation x.2) (Incarnation rec)); [done|].
    destruct Hq. apply Exists_exists. exists x. split_and!; auto.
  - unfold suspicionFire, suspectTimeout.
    repeat case_match; try done. by apply deadNode_keeps_dead.
  - unfold probe.
    destruct (probeLoop _ _ _ _) as [[m' [node|]]|] eqn:Hl; simpl; [..|done].
    + apply probeNode_keeps_dead; [|done].
      by rewrite (probeLoop_heap _ _ _ _ _ _ Hl).
    + by rewrite (probeLoop_heap _ _ _ _ _ _ Hl).
  - unfold pushPull, pushPullNode.
    destruct picked as [|q ?]; [done|]. destruct (deref m q); [|done].
    destruct reply as [remote|err]; [|done].
    assert (deref (mergeState remote m).1 p = Some rec) as Hm.
    { apply mergeState_keeps_dead; auto.
      apply Forall_forall. intros x Hx Hn Ha.
      destruct (Z.leb_spec (pushNodeState.Incarnation x.2) (Incarnation rec)); [done|].
      destruct Hq. apply Exists_exists. exists x. split_and!; auto. }
    by destruct (mergeState remote m).
Qed.

(** Only a newer Alive revives a Dead record: through every sequence of
    events that delivers no Alive about its name with a strictly greater
    incarnation, a record in state Dead keeps its incarnation, its state and
    its time of change; Suspect and Dead messages of any incarnation,
    timers, probes and sweeps do not touch it. *)
Theorem dead_stays_dead evs m (p : ptr) (rec : NodeState) :
  reachable m → deref m p = Some rec → State rec = StateDead →
  Forall (λ ev, ¬ newerAlive (Name rec) (Incarnation rec) ev) evs →
  deref (run evs m).1 p = Some rec.
Proof.
  intros HI%reachable_Inv Hp Hd Hq. revert m HI Hp.
  induction Hq as [|ev evs Hev _ IH]; intros m HI Hp; [done|].
  simpl. pose proof (step_Inv ev m HI) as HI1.
  pose proof (step_keeps_dead_below ev m p rec HI Hp Hd Hev) as Hp1.
  destruct (step ev m) as [m1 out1]. specialize (IH m1 HI1 Hp1).
  by destruct (run evs m1).
Qed.

(** The theorem applied to ["x"] of [exSweep], declared dead with
    incarnation 1: a Suspect with incarnation 9 and an Alive with
    incarnation 1 about it change nothing. *)
Lemma dead_stays_dead_witness :
  deref (run [InSuspect (mkEnv 30 0) (suspect.mk 9 "x");
              InAlive (mkEnv 31 0) (alive.mk 1 "x" [] []);
              InDead (mkEnv 32 0) (dead.mk 9 "x")] exSweep).1 1%nat
    = Some (mkNodeState (mkNode "x" [] []) 1 StateDead 15).
Proof.
  apply (dead_stays_dead _ exSweep 1%nat
           (mkNodeState (mkNode "x" [] []) 1 StateDead 15)).
  - eexists exConfig, _. reflexivity.
  - reflexivity.
  - reflexivity.
  - repeat constructor; simpl; try tauto. intros [_ ?]. lia.
Defined.

(** ** The size of the table *)

(** The mapping and the sequence have the same number of entries in every
    state the node can reach. *)
Theorem table_size m :
  reachable m → length (nodes m) = size (nodeMap m).
Proof.
  intros [H1 H2 H3 H4]%reachable_Inv%inv_I1.
  rewrite <- length_map_to_list, <- (length_fmap snd).
  apply Permutation_length, NoDup_Permutation; [done| |].
  - apply NoDup_fmap_2_strong; [|apply NoDup_map_to_list].
    intros [k1 p1] [k2 p2] Hk1%elem_of_map_to_list Hk2%elem_of_map_to_list Heq.
    simpl in Heq. subst.
    destruct (H1 _ _ Hk1) as (s1 & Hs1 & Hn1), (H1 _ _ Hk2) as (s2 & Hs2 & Hn2).
    congruence.
  - intros p. rewrite list_elem_of_fmap. split.
    + intros Hp. destruct (H3 _ Hp) as (st & Hst & Hm).
      exists (Name st, p). split; [done|]. by apply elem_of_map_to_list.
    + intros ([k q] & -> & Hk%elem_of_map_to_list). eauto.
Qed.

(** The theorem applied to the table of the reset scenario. *)
Lemma table_size_witness :
  length (nodes exSweep) = 5%nat ∧ size (nodeMap exSweep) = 5%nat.
Proof.
  assert (length (nodes exSweep) = size (nodeMap exSweep)) as H.
  { apply (table_size exSweep). eexists exConfig, _. reflexivity. }
  split; [reflexivity|]. rewrite <- H. reflexivity.
Defined.

(** ** The local node does not give itself up *)

Lemma keeps_self_alive_refl self h : keeps_self_alive self h h.
Proof. intros p st Hp _ Ha. by exists st. Qed.

Lemma keeps_self_alive_trans self h1 h2 h3 :
  keeps_self_alive self h1 h2 → keeps_self_alive self h2 h3 →
  keeps_self_alive self h1 h3.
Proof.
  intros H12 H23 p st Hp Hn Ha.
  destruct (H12 p st Hp Hn Ha) as (st2 & Hp2 & Hn2 & Ha2).
  destruct (H23 p st2 Hp2) as (st3 & Hp3 & Hn3 & Ha3); [by rewrite Hn2|done|].
  exists st3. split_and!; [done|congruence|done].
Qed.

Lemma keeps_self_alive_store self h (p : ptr) (st st' : NodeState) :
  h !! p = Some st → toNode st' = toNode st →
  (Name st = self → State st = StateAlive → State st' = StateAlive) →
  keeps_self_alive self h (<[p := st']> h).
Proof.
  intros Hp Hn Hs q sq Hq Hself Ha. destruct (decide (p = q)) as [->|Hne].
  - exists st'. rewrite list_lookup_insert_eq by (by eapply lookup_lt_Some).
    simplify_eq. auto.
  - exists sq. by rewrite list_lookup_insert_ne.
Qed.

Lemma keeps_self_alive_app self h l : keeps_self_alive self h (h ++ l).
Proof.
  intros p st Hp _ Ha. exists st. split_and!; [by apply lookup_app_l_Some|done..].
Qed.

Lemma aliveNode_self e a m :
  keeps_self_alive (Config.Name (config m)) (heap m) (heap (aliveNode e a m).1) ∧
  leave (aliveNode e a m).1 = leave m.
Proof.
  assert (∀ m1 (p : ptr) (st : NodeState),
            nodeMap m1 !! alive.Node a = Some p → deref m1 p = Some st →
            keeps_self_alive (Config.Name (config m)) (heap m1)
              (heap (aliveNode e a m1).1) ∧
            leave (aliveNode e a m1).1 = leave m1) as Hknown.
  { intros m1 p st Hm Hp. unfold aliveNode. rewrite Hm, Hp.
    destruct (alive.Incarnation a <=? Incarnation st);
      [split; [apply keeps_self_alive_refl|done]|].
    split; [|done]. simpl.
    eapply keeps_self_alive_store; [done|by case_match|].
    intros _ Ha. rewrite Ha. done. }
  destruct (nodeMap m !! alive.Node a) as [p|] eqn:Hm.
  - destruct (deref m p) as [st|] eqn:Hp; [by eapply Hknown|].
    unfold aliveNode. rewrite Hm, Hp. split; [apply keeps_self_alive_refl|done].
  - rewrite (aliveNode_created e a m Hm).
    destruct (Hknown (aliveNode_create e a m).2 (length (heap m))
                (mkNodeState (mkNode (alive.Node a) (alive.Addr a) (alive.Meta a))
                   0 StateDead 0)) as [Hk Hl].
    { apply lookup_insert_eq. }
    { simpl. by rewrite lookup_app_r, Nat.sub_diag. }
    split; [|by rewrite Hl].
    eapply keeps_self_alive_trans; [|exact Hk]. apply keeps_self_alive_app.
Qed.

Lemma suspectNode_self e s m :
  keeps_self_alive (Config.Name (config m)) (heap m) (heap (suspectNode e s m).1) ∧
  leave (suspectNode e s m).1 = leave m.
Proof.
  unfold suspectNode, nextIncarnation.
  destruct (nodeMap m !! suspect.Node s) as [p|];
    [|split; [apply keeps_self_alive_refl|done]].
  destruct (deref m p) as [st|] eqn:Hp;
    [|split; [apply keeps_self_alive_refl|done]].
  destruct (suspect.Incarnation s <? Incarnation st);
    [split; [apply keeps_self_alive_refl|done]|].
  destruct (negb (State st =? StateAlive));
    [split; [apply keeps_self_alive_refl|done]|].
  destruct (String.eqb_spec (Name st) (Config.Name (config m))); simpl;
    (split; [|done]); (eapply keeps_self_alive_store; [done|done|]); done.
Qed.

Lemma deadNode_self e d m :
  leave m = false →
  keeps_self_alive (Config.Name (config m)) (heap m) (heap (deadNode e d m).1) ∧
  leave (deadNode e d m).1 = leave m.
Proof.
  intros Hl. unfold deadNode, nextIncarnation. rewrite Hl.
  destruct (nodeMap m !! dead.Node d) as [p|];
    [|split; [apply keeps_self_alive_refl|done]].
  destruct (deref m p) as [st|] eqn:Hp;
    [|split; [apply keeps_self_alive_refl|done]].
  destruct (dead.Incarnation d <? Incarnation st);
    [split; [apply keeps_self_alive_refl|done]|].
  destruct (State st =? StateDead);
    [split; [apply keeps_self_alive_refl|done]|].
  destruct (String.eqb_spec (Name st) (Config.Name (config m))); simpl;
    (split; [|done]); (eapply keeps_self_alive_store; [done|done|]); done.
Qed.

Lemma mergeState_self remote m :
  leave m = false →
  keeps_self_alive (Config.Name (config m)) (heap m) (heap (mergeState remote m).1) ∧
  leave (mergeState remote m).1 = leave m.
Proof.
  revert m. induction remote as [|[e r] rest IH]; intros m Hl;
    [split; [apply keeps_self_alive_refl|done]|].
  simpl.
  match goal with |- context [if ?a then (m, []) else ?b] =>
    assert ((keeps_self_alive (Config.Name (config m)) (heap m)
               (heap (if a then (m, []) else b).1)
             ∧ leave (if a then (m, []) else b).1 = leave m)
            ∧ config (if a then (m, []) else b).1 = config m) as [[H1 Hl1] Hc];
    [|destruct (if a then (m, []) else b) as [m1 out1]] end.
  { repeat case_match; simpl;
      auto using keeps_self_alive_refl, aliveNode_self, suspectNode_self,
        deadNode_self, aliveNode_config, suspectNode_config, deadNode_config. }
  destruct (IH m1) as [H2 Hl2]; [simpl in *; congruence|].
  destruct (mergeState rest m1). simpl in *. rewrite Hc in H2.
  split; [by eapply keeps_self_alive_trans|congruence].
Qed.

Lemma probeLoop_leave fuel draws k m m' sel :
  probeLoop fuel draws k m = Some (m', sel) → leave m' = leave m.
Proof.
  revert k m. induction fuel as [|fuel IH]; intros k m; simpl; [done|].
  repeat case_match; intros ?; simplify_eq; try done.
  all: match goal with H : probeLoop _ _ _ _ = _ |- _ => apply IH in H end; done.
Qed.

Lemma probeNode_self pe node m :
  keeps_self_alive (Config.Name (config m)) (heap m) (heap (probeNode pe node m).1) ∧
  leave (probeNode pe node m).1 = leave m.
Proof.
  unfold probeNode, nextSeqNo.
  destruct (deref m node) as [target|];
    [|split; [apply keeps_self_alive_refl|done]]. simpl.
  set (m2 := setAckChannel _ _ _ _).
  destruct (pingFails pe); [split; [apply keeps_self_alive_refl|done]|].
  destruct (directAck pe) as [[]|];
    try (split; [apply keeps_self_alive_refl|done]).
  all: destruct (indirectAck pe); [split; [apply keeps_self_alive_refl|done]|].
  all: destruct (deref m node) as [cur|];
    [|split; [apply keeps_self_alive_refl|done]].
  all: pose proof (suspectNode_self (penv pe)
         (suspect.mk (Incarnation cur) (Name cur)) m2) as H3.
  all: destruct (suspectNode _ _ m2); exact H3.
Qed.

Lemma step_self ev m :
  staying ev → leave m = false →
  keeps_self_alive (Config.Name (config m)) (heap m) (heap (step ev m).1) ∧
  leave (step ev m).1 = leave m.
Proof.
  intros Hev Hl. destruct ev; simpl; try done.
  - apply aliveNode_self.
  - apply suspectNode_self.
  - by apply deadNode_self.
  - by apply mergeState_self.
  - unfold suspicionFire, suspectTimeout.
    repeat case_match; try (split; [apply keeps_self_alive_refl|done]).
    by apply deadNode_self.
  - unfold probe.
    destruct (probeLoop _ _ _ _) as [[m' [node|]]|] eqn:Hl'; simpl;
      try (split; [apply keeps_self_alive_refl|done]).
    + destruct (probeNode_self pe node m') as [H1 H2].
      rewrite (probeLoop_heap _ _ _ _ _ _ Hl'),
        (probeLoop_config _ _ _ _ _ _ Hl') in H1.
      split; [done|]. rewrite H2. by eapply probeLoop_leave.
    + rewrite (probeLoop_heap _ _ _ _ _ _ Hl'). split;
        [apply keeps_self_alive_refl|by eapply probeLoop_leave].
  - unfold pushPull, pushPullNode.
    destruct picked as [|p ?]; [split; [apply keeps_self_alive_refl|done]|].
    destruct (deref m p); [|split; [apply keeps_self_alive_refl|done]].
    destruct reply as [remote|err]; [|split; [apply keeps_self_alive_refl|done]].
    pose proof (mergeState_self remote m Hl). by destruct (mergeState remote m).
  - split; [apply keeps_self_alive_refl|done].
  - split; [apply keeps_self_alive_refl|done].
  - unfold invokeAckHandler, stopTimer.
    repeat case_match; (split; [apply keeps_self_alive_refl|done]).
  - unfold reapFire, reapClosure, timerExpires.
    repeat case_match; (split; [apply keeps_self_alive_refl|done]).
  - unfold timerExpires.
    repeat case_match; (split; [apply keeps_self_alive_refl|done]).
  - unfold reapClosure.
    repeat case_match; (split; [apply keeps_self_alive_refl|done]).
  - split; [apply keeps_self_alive_refl|done].
  - split; [apply keeps_self_alive_refl|done].
Qed.

Lemma run_self evs m :
  Forall staying evs → leave m = false →
  keeps_self_alive (Config.Name (config m)) (heap m) (heap (run evs m).1).
Proof.
  intros Hevs. revert m.
  induction Hevs as [|ev evs Hev _ IH]; intros m Hl;
    [apply keeps_self_alive_refl|]. simpl.
  destruct (step_self ev m Hev Hl) as [H1 Hl1].
  pose proof (step_config ev m) as Hc.
  destruct (step ev m) as [m1 o1]. simpl in *.
  specialize (IH m1). destruct (run evs m1). simpl in *.
  rewrite Hc in IH. eapply keeps_self_alive_trans; [done|]. apply IH. congruence.
Qed.

(** As long as the node is not leaving, it does not give itself up: once
    its own record is Alive, the record stays Alive (and keeps its name,
    address and metadata) through every sequence of events, whatever
    Suspect and Dead messages about the node arrive and whatever timers
    fire. *)
Theorem self_stays_alive evs m (p : ptr) (st : NodeState) :
  deref m p = Some st →
  Name st = Config.Name (config m) → State st = StateAlive →
  leave m = false → Forall staying evs →
  ∃ st' : NodeState,
    deref (run evs m).1 p = Some st' ∧ toNode st' = toNode st ∧
    State st' = StateAlive.
Proof. intros Hp Hn Ha Hl Hevs. by apply (run_self evs m Hevs Hl p st). Qed.

(** The theorem applied to [exStarted]: a Suspect and a Dead about
    ["self"], then a suspicion timer. *)
Lemma self_stays_alive_witness :
  ∃ st' : NodeState,
    deref (run [InSuspect (mkEnv 20 0) (suspect.mk 3 "self");
                InDead (mkEnv 21 0) (dead.mk 9 "self");
                SuspicionTimer (mkEnv 22 0) 0%nat 20] exStarted).1 0%nat
      = Some st' ∧
    toNode st' = mkNode "self" [] [] ∧ State st' = StateAlive.
Proof.
  apply (self_stays_alive _ exStarted 0%nat
           (mkNodeState (mkNode "self" [] []) 1 StateAlive 1));
    [reflexivity..|]. by repeat constructor.
Defined.

(** ** Join and leave notifications take turns *)

Lemma membership_app name b l1 l2 :
  membership name b (l1 ++ l2) = membership name b l1 ≫= λ b', membership name b' l2.
Proof.
  revert b. induction l1 as [|x l1 IH]; intros b; [done|]. simpl.
  destruct (notified name x) as [[]|]; [destruct b; [done|apply IH]
                                       |destruct b; [apply IH|done]|apply IH].
Qed.

Lemma membership_quiet name b l :
  Forall (λ x, notified name x = None) l → membership name b l = Some b.
Proof. induction 1 as [|x l Hx _ IH]; [done|]. simpl. by rewrite Hx. Qed.

Lemma isMember_same name m m' :
  table_same m m' → isMember name m' = isMember name m.
Proof. intros (_ & Hm & _ & Hh). unfold isMember. by rewrite Hm, Hh. Qed.

(** Writing a record that is as dead or as live as before. *)
Lemma isMember_store_live name m (p : ptr) (st st' : NodeState) :
  deref m p = Some st → (State st' =? StateDead) = (State st =? StateDead) →
  isMember name (store p st' m) = isMember name m.
Proof.
  intros Hp Hs. unfold isMember. simpl.
  destruct (nodeMap m !! name) as [q|]; [|done].
  destruct (decide (q = p)) as [->|Hne].
  - rewrite list_lookup_insert_eq by (by eapply lookup_lt_Some).
    by rewrite Hp, Hs.
  - by rewrite list_lookup_insert_ne.
Qed.

(** Writing the record of one node leaves the membership of the others. *)
Lemma isMember_store_other name m (p : ptr) (st st' : NodeState) :
  I1 m → deref m p = Some st → Name st ≠ name →
  isMember name (store p st' m) = isMember name m.
Proof.
  intros HI Hp Hne. unfold isMember. simpl.
  destruct (nodeMap m !! name) as [q|] eqn:Hq; [|done].
  destruct (map_points _ _ _ HI _ _ Hq) as (sq & Hsq & Hn).
  rewrite list_lookup_insert_ne; [done|]. intros ->. congruence.
Qed.

Lemma isMember_store_same m (p : ptr) (st st' : NodeState) :
  nodeMap m !! Name st = Some p → deref m p = Some st →
  isMember (Name st) (store p st' m) = negb (State st' =? StateDead).
Proof.
  intros Hm Hp. unfold isMember. simpl. rewrite Hm.
  by rewrite list_lookup_insert_eq by (by eapply lookup_lt_Some).
Qed.

Lemma aliveNode_member_known name e a m (p : ptr) :
  I1 m → nodeMap m !! alive.Node a = Some p →
  membership name (isMember name m) (aliveNode e a m).2
  = Some (isMember name (aliveNode e a m).1).
Proof.
  intros HI Hm. destruct (map_points _ _ _ HI _ _ Hm) as (st & Hp & Hn).
  unfold aliveNode. rewrite Hm, Hp.
  destruct (alive.Incarnation a <=? Incarnation st); [done|]. simpl.
  set (st2 := if negb (State st =? StateAlive) then _ else _).
  assert (toNode st2 = toNode st) as Hn2 by (unfold st2; by case_match).
  assert (State st2 = StateAlive) as Ha2.
  { unfold st2. destruct (Z.eqb_spec (State st) StateAlive); simpl; done. }
  destruct (decide (Name st = name)) as [Hk|Hk].
  - subst name. rewrite <- Hn in Hm.
    rewrite (isMember_store_same m p st st2 Hm Hp), Ha2. simpl.
    unfold isMember. rewrite Hm, Hp.
    destruct (State st =? StateDead); simpl; [|done].
    by rewrite Hn2, String.eqb_refl.
  - rewrite (isMember_store_other name m p st st2 HI Hp Hk).
    destruct (State st =? StateDead); simpl; [|done]. rewrite Hn2.
    by destruct (String.eqb_spec (Name st) name).
Qed.

Lemma create_member name e a m :
  I1 m → nodeMap m !! alive.Node a = None →
  isMember name (aliveNode_create e a m).2 = isMember name m.
Proof.
  intros HI Hm. unfold isMember. simpl.
  destruct (decide (alive.Node a = name)) as [<-|Hne].
  - rewrite lookup_insert_eq, Hm. by rewrite lookup_app_r, Nat.sub_diag.
  - rewrite lookup_insert_ne by done.
    destruct (nodeMap m !! name) as [q|] eqn:Hq; [|done].
    destruct (map_points _ _ _ HI _ _ Hq) as (sq & Hsq & _).
    by rewrite (lookup_app_l_Some _ _ _ _ Hsq), Hsq.
Qed.

Lemma aliveNode_member name e a m :
  Inv m →
  membership name (isMember name m) (aliveNode e a m).2
  = Some (isMember name (aliveNode e a m).1).
Proof.
  intros HI. destruct (nodeMap m !! alive.Node a) as [p|] eqn:Hm.
  - by eapply aliveNode_member_known; [apply inv_I1|].
  - rewrite (aliveNode_created e a m Hm),
      <- (create_member name e a m (inv_I1 _ HI) Hm).
    eapply aliveNode_member_known;
      [apply inv_I1; by apply Inv_create|apply lookup_insert_eq].
Qed.

Lemma suspectNode_member name e s m :
  membership name (isMember name m) (suspectNode e s m).2
  = Some (isMember name (suspectNode e s m).1).
Proof.
  unfold suspectNode, nextIncarnation.
  destruct (nodeMap m !! suspect.Node s) as [p|]; [|done].
  destruct (deref m p) as [st|] eqn:Hp; [|done].
  destruct (suspect.Incarnation s <? Incarnation st); [done|].
  destruct (Z.eqb_spec (State st) StateAlive) as [Ha|]; [|done]. simpl.
  destruct (String.eqb (Name st) (Config.Name (config m))); simpl; f_equal;
    symmetry.
  - by apply (isMember_store_live name (set_incarnation _ m) p st).
  - apply (isMember_store_live name m p st); [done|]. simpl. by rewrite Ha.
Qed.

Lemma deadNode_member name e d m :
  I1 m →
  membership name (isMember name m) (deadNode e d m).2
  = Some (isMember name (deadNode e d m).1).
Proof.
  intros HI. unfold deadNode, nextIncarnation.
  destruct (nodeMap m !! dead.Node d) as [p|] eqn:Hm; [|done].
  destruct (map_points _ _ _ HI _ _ Hm) as (st & Hp & Hn). rewrite Hp.
  destruct (dead.Incarnation d <? Incarnation st); [done|].
  destruct (Z.eqb_spec (State st) StateDead) as [|Hlive]; [done|].
  destruct (String.eqb (Name st) (Config.Name (config m)) && negb (leave m));
    simpl.
  - f_equal. symmetry.
    by apply (isMember_store_live name (set_incarnation _ m) p st).
  - destruct (String.eqb_spec (Name st) name) as [Hk|Hk].
    + subst name. rewrite <- Hn in Hm.
      rewrite (isMember_store_same m p st _ Hm Hp). simpl.
      unfold isMember. rewrite Hm, Hp.
      by destruct (Z.eqb_spec (State st) StateDead).
    + by rewrite (isMember_store_other name m p st _ HI Hp Hk).
Qed.

Lemma mergeState_member name remote m :
  Inv m →
  membership name (isMember name m) (mergeState remote m).2
  = Some (isMember name (mergeState remote m).1).
Proof.
  revert m. induction remote as [|[e r] rest IH]; intros m HI; [done|].
  simpl.
  match goal with |- context [if ?a then (m, []) else ?b] =>
    assert (Inv (if a then (m, []) else b).1
            ∧ membership name (isMember name m) (if a then (m, []) else b).2
              = Some (isMember name (if a then (m, []) else b).1)) as [HI1 H1];
    [|destruct (if a then (m, []) else b) as [m1 out1]] end.
  { pose proof (inv_I1 _ HI).
    destruct (match nodeMap m !! pushNodeState.Name r with
              | Some p0 => _ | None => _ end); [done|].
    repeat case_match; simpl; try done;
      (split; [auto using aliveNode_Inv, suspectNode_Inv, deadNode_Inv
              |auto using aliveNode_member, suspectNode_member, deadNode_member]). }
  specialize (IH m1 HI1). destruct (mergeState rest m1) as [m2 out2].
  simpl in *. by rewrite membership_app, H1.
Qed.

Lemma resetNodes_member name draws m :
  I1 m → isMember name (resetNodes draws m) = isMember name m.
Proof.
  intros HI. unfold isMember.
  change (heap (resetNodes draws m)) with (heap m).
  destruct (nodeMap m !! name) as [q|] eqn:Hq.
  - destruct (isDead (heap m) q) eqn:Hd.
    + destruct (nodeMap (resetNodes draws m) !! name) as [q'|] eqn:Hq'.
      * apply resetNodes_lookup in Hq' as [Hq' Hl]; [|done]. congruence.
      * unfold isDead in Hd. destruct (deref m q); [by rewrite Hd|done].
    + by rewrite (proj2 (resetNodes_lookup draws m name q HI) (conj Hq Hd)).
  - destruct (nodeMap (resetNodes draws m) !! name) as [q'|] eqn:Hq'; [|done].
    apply resetNodes_lookup in Hq' as [Hq' _]; [|done]. congruence.
Qed.

Lemma probeLoop_member name fuel draws k m m' sel :
  Inv m → probeLoop fuel draws k m = Some (m', sel) →
  isMember name m' = isMember name m.
Proof.
  revert k m. induction fuel as [|fuel IH]; intros k m HI; simpl; [done|].
  repeat case_match; intros ?; simplify_eq; try done.
  - match goal with H : probeLoop _ _ _ _ = _ |- _ => apply IH in H as -> end.
    + apply (resetNodes_member name (draws k) m), HI.
    + eapply Inv_frame; [..|by apply (resetNodes_Inv (draws k))]; done.
  - match goal with H : probeLoop _ _ _ _ = _ |- _ => apply IH in H as -> end;
      [done|by eapply Inv_frame; [..|exact HI]].
  - match goal with H : probeLoop _ _ _ _ = _ |- _ => apply IH in H as -> end;
      [done|by eapply Inv_frame; [..|exact HI]].
Qed.

Lemma probeNode_member name pe node m :
  membership name (isMember name m) (probeNode pe node m).2
  = Some (isMember name (probeNode pe node m).1).
Proof.
  unfold probeNode, nextSeqNo.
  destruct (deref m node) as [target|]; [|done]. simpl.
  set (m2 := setAckChannel _ _ _ _).
  assert (isMember name m2 = isMember name m) as H2 by done.
  set (out2 := flat_map _ (kNodes pe)).
  assert (Forall (λ x, notified name x = None) out2) as Hout2.
  { unfold out2. apply Forall_flat_map, Forall_forall. intros [peer failed] _.
    destruct (deref m peer); [|constructor]. destruct failed; by repeat constructor. }
  assert (∀ b, membership name b
                 (SendPing (Addr target) (uint32_add1 (sequenceNum m)) :: out2)
               = Some b) as Hq
    by (intros b; apply membership_quiet; by constructor).
  destruct (pingFails pe); [done|].
  destruct (directAck pe) as [[]|]; [done|..].
  all: destruct (indirectAck pe); [cbn [fst snd]; by rewrite Hq, H2|].
  all: destruct (deref m node) as [cur|]; [|cbn [fst snd]; by rewrite Hq, H2].
  all: pose proof (suspectNode_member name (penv pe)
         (suspect.mk (Incarnation cur) (Name cur)) m2) as H3.
  all: destruct (suspectNode _ _ m2) as [m3 out3]; cbn [fst snd] in *.
  all: change (SendPing (Addr target) (uint32_add1 (sequenceNum m))
                 :: out2 ++ out3)
         with ((SendPing (Addr target) (uint32_add1 (sequenceNum m)) :: out2)
                 ++ out3).
  all: by rewrite membership_app, Hq, <- H2.
Qed.

Lemma step_member name ev m :
  Inv m →
  membership name (isMember name m) (step ev m).2
  = Some (isMember name (step ev m).1).
Proof.
  intros HI. destruct ev; simpl.
  - by apply aliveNode_member.
  - apply suspectNode_member.
  - apply deadNode_member, HI.
  - by apply mergeState_member.
  - unfold suspicionFire, suspectTimeout.
    repeat case_match; try done. apply deadNode_member, HI.
  - unfold probe.
    destruct (probeLoop _ _ _ _) as [[m' [node|]]|] eqn:Hl; simpl; [..|done].
    + rewrite <- (probeLoop_member name _ _ _ _ _ _ HI Hl).
      apply probeNode_member.
    + by rewrite (probeLoop_member name _ _ _ _ _ _ HI Hl).
  - unfold pushPull, pushPullNode.
    destruct picked as [|p ?]; [done|]. destruct (deref m p); [|done].
    destruct reply as [remote|err]; [|done].
    pose proof (mergeState_member name remote m HI).
    by destruct (mergeState remote m).
  - done.
  - done.
  - rewrite (isMember_same name m _ (invokeAckHandler_same seqNo m)).
    unfold invokeAckHandler. destruct (ackHandlers m !! seqNo) as [ah|]; [|done].
    by destruct (handler ah).
  - rewrite (isMember_same name m _ (reapFire_same t m)).
    unfold reapFire, reapClosure, timerExpires.
    repeat case_match; try done.
  - by rewrite (isMember_same name m _ (timerExpires_same t m)).
  - rewrite (isMember_same name m _ (reapClosure_same t m)).
    unfold reapClosure. repeat case_match; try done.
  - reflexivity.
  - reflexivity.
  - reflexivity.
Qed.

Lemma run_member name evs m :
  Inv m →
  membership name (isMember name m) (run evs m).2
  = Some (isMember name (run evs m).1).
Proof.
  revert m. induction evs as [|ev evs IH]; intros m HI; [done|]. simpl.
  pose proof (step_member name ev m HI) as H1.
  pose proof (step_Inv ev m HI) as HI1.
  destruct (step ev m) as [m1 out1]. specialize (IH m1 HI1).
  destruct (run evs m1) as [m2 out2]. simpl in *.
  by rewrite membership_app, H1.
Qed.

(** Join and leave notifications take turns.  In every run from a state the
    node can reach, the notifications about any one node alternate: a
    notification on [JoinCh] is sent only about a node whose record is Dead
    or missing, a notification on [LeaveCh] only about a node whose record
    is Alive or Suspect, and after the run the last of them tells whether
    the table holds a record of the node that is not Dead.  The sweep that
    forgets Dead records and the re-creation of a record keep this in
    step. *)
Theorem notifications_alternate name evs m :
  reachable m →
  membership name (isMember name m) (run evs m).2
  = Some (isMember name (run evs m).1).
Proof. intros HI%reachable_Inv. by apply run_member. Qed.

(** The theorem applied to a fresh node and [exComeAndGo]: ["b"] joins,
    leaves and joins, and is a member in the end. *)
Lemma notifications_alternate_witness :
  membership "b" false (run exComeAndGo (init exConfig)).2 = Some true ∧
  (run exComeAndGo (init exConfig)).2
  = [Broadcast "b" (aliveMsg (alive.mk 1 "b" [] []));
     Notify JoinCh (mkNode "b" [] []);
     Broadcast "b" (suspectMsg (suspect.mk 1 "b"));
     AfterSuspicion 0%nat 11;
     Broadcast "b" (deadMsg (dead.mk 1 "b"));
     Notify LeaveCh (mkNode "b" [] []);
     Broadcast "b" (aliveMsg (alive.mk 2 "b" [] []));
     Notify JoinCh (mkNode "b" [] [])] ∧
  nodeMap (run exComeAndGo (init exConfig)).1 !! "b" = Some 1%nat.
Proof.
  split_and!; [|reflexivity..].
  apply (notifications_alternate "b" exComeAndGo (init exConfig)).
  by exists exConfig, [].
Defined.

(** ** State transfers *)

(** A state transfer in which every record has the State that the local
    record of the same name has changes nothing and queues nothing,
    whatever incarnations it carries: [mergeState] compares the states only,
    so a higher incarnation of a node that both sides hold in the same state
    is not taken over. *)
Theorem mergeState_agreeing remote m :
  Forall (λ x, agrees m x.2) remote → mergeState remote m = (m, []).
Proof.
  induction 1 as [|[e r] rest (p & local & Hm & Hp & Hs) _ IH]; [done|].
  simpl in *. rewrite Hm, Hp, Hs, Z.eqb_refl, IH. done.
Qed.

(** The theorem applied to [exTwo] and [exRemote]: ["b"] stays at
    incarnation 7. *)
Lemma mergeState_agreeing_witness :
  mergeState exRemote exTwo = (exTwo, []) ∧
  incarnationOf "b" (mergeState exRemote exTwo).1 = Some 7.
Proof.
  assert (mergeState exRemote exTwo = (exTwo, [])) as H.
  { apply (mergeState_agreeing exRemote exTwo).
    repeat constructor.
    - exists 1%nat, (mkNodeState (mkNode "b" [] []) 7 StateAlive 11). by split_and!.
    - exists 0%nat, (mkNodeState (mkNode "self" [] []) 1 StateAlive 10). by split_and!. }
  split; [exact H|]. rewrite H. reflexivity.
Defined.

Lemma run_out_app evs1 evs2 m :
  run (evs1 ++ evs2) m
  = ((run evs2 (run evs1 m).1).1, (run evs1 m).2 ++ (run evs2 (run evs1 m).1).2).
Proof.
  revert m. induction evs1 as [|ev evs1 IH]; intros m; simpl.
  - by destruct (run evs2 m).
  - destruct (step ev m) as [m1 o1]. rewrite (IH m1).
    destruct (run evs1 m1) as [m2 o2]. simpl.
    destruct (run evs2 m2) as [m3 o3]. simpl. by rewrite app_assoc.
Qed.

(** A state transfer is handled record by record, in order: [mergeState]
    on a list of remote records leaves the same table and the same effects
    as [mergeState] on each record by itself, one after the other; and a
    transfer in two parts is as the transfer of the whole. *)
Theorem mergeState_one_by_one remote m :
  mergeState remote m = run ((λ x, InMerge [x]) <$> remote) m ∧
  ∀ remote', run [InMerge remote; InMerge remote'] m
             = run [InMerge (remote ++ remote')] m.
Proof.
  assert (∀ remote m,
            mergeState remote m = run ((λ x, InMerge [x]) <$> remote) m) as Hone.
  { clear. intros remote. induction remote as [|[e r] rest IH]; intros m; [done|].
    cbn [fmap list_fmap run step]. cbn [mergeState].
    match goal with |- context [if ?a then (m, []) else ?b] =>
      destruct (if a then (m, []) else b) as [m1 out1] end.
    rewrite <- (IH m1). destruct (mergeState rest m1) as [m2 out2].
    by rewrite app_nil_r. }
  split; [apply Hone|]. intros remote'.
  change [InMerge remote; InMerge remote'] with ([InMerge remote] ++ [InMerge remote']).
  rewrite run_out_app. cbn [run step].
  rewrite (Hone (remote ++ remote')), fmap_app, run_out_app, <- !Hone.
  destruct (mergeState remote m) as [m1 o1]. cbn [fst snd].
  destruct (mergeState remote' m1) as [m2 o2]. cbn [fst snd].
  by rewrite !app_nil_r.
Qed.

(** ** One probe *)








(** ** A tick with nobody to probe *)

Lemma probeLoop_nodes fuel draws k m m' sel (p : ptr) :
  probeLoop fuel draws k m = Some (m', sel) → p ∈ nodes m' → p ∈ nodes m.
Proof.
  revert k m. induction fuel as [|fuel IH]; intros k m; simpl; [done|].
  repeat case_match; intros ? Hp; simplify_eq; try done.
  - match goal with H : probeLoop _ _ _ _ = _ |- _ => apply IH in H end; [|done].
    change (nodes (wrapAround (draws k) m))
      with (nodes (resetNodes (draws k) m)) in *.
    rewrite resetNodes_nodes in *.
    match goal with H : _ ∈ filter _ _ |- _ =>
      by apply list_elem_of_filter in H as [_ ?] end.
  - match goal with H : probeLoop _ _ _ _ = _ |- _ => by apply IH in H end.
  - match goal with H : probeLoop _ _ _ _ = _ |- _ => by apply IH in H end.
Qed.

(** A node that knows no live peer probes nobody: when every record in the
    sequence is the local node's own or Dead (an empty sequence included),
    [probe] returns without sending anything, taking no sequence number and
    registering no ack handler; records and incarnations stay as they
    are. *)
Theorem probe_nobody draws pe m :
  reachable m →
  (∀ (p : ptr) (st : NodeState), p ∈ nodes m → deref m p = Some st →
     Name st = Config.Name (config m) ∨ State st = StateDead) →
  ∃ m', probe draws pe m = Some (m', []) ∧
        heap m' = heap m ∧ ackHandlers m' = ackHandlers m ∧
        timers m' = timers m.
Proof.
  intros HI%reachable_Inv Hall. unfold probe.
  destruct (probeLoop_returns (S (length (nodes m))) draws 0%nat m)
    as [[m' sel] Hl]; [lia|]. rewrite Hl.
  pose proof (probeLoop_heap _ _ _ _ _ _ Hl) as Hh.
  pose proof (probeLoop_acks _ _ _ _ _ _ Hl) as [Ha Ht].
  destruct sel as [node|]; [exfalso|by exists m'].
  pose proof (probeLoop_Inv _ _ _ _ _ _ HI Hl) as [HI' _ _].
  pose proof (probeLoop_config _ _ _ _ _ _ Hl) as Hc.
  apply probeLoop_selected in Hl as Hsel. destruct Hsel as (_ & Hn & Hst).
  assert (node ∈ nodes m') as Hin by (apply list_elem_of_lookup; eauto).
  destruct (listed_mapped _ _ _ HI' _ Hin) as (st & Hd & _).
  rewrite Hd in Hst. destruct Hst as [Hne Hlive].
  rewrite Hh in Hd. rewrite Hc in Hne.
  destruct (Hall node st); [by eapply probeLoop_nodes|done..].
Qed.

(** The theorem applied to [exStarted], which knows only itself. *)
Lemma probe_nobody_witness :
  ∃ m', probe (λ _ _, 0%nat) exSilent exStarted = Some (m', []) ∧
        heap m' = heap exStarted ∧ ackHandlers m' = ackHandlers exStarted ∧
        timers m' = timers exStarted.
Proof.
  apply (probe_nobody (λ _ _, 0%nat) exSilent exStarted).
  - eexists exConfig, _. reflexivity.
  - intros p st Hp Hst. left.
    apply list_elem_of_singleton in Hp. subst p.
    injection Hst as <-. reflexivity.
Defined.

(** ** Starting and stopping the tickers *)

Lemma schedule_Some m m1 :
  schedule m = Some m1 → m1 = set_tickers (tickers m ++ started (config m)) m.
Proof.
  destruct m as [c lv sq inc nm ns h pi ts ah tm ch].
  unfold schedule, NewTicker, set_tickers, started. simpl.
  destruct (Z.ltb_spec 0 (Config.ProbeInterval c)); simpl;
    destruct (Z.ltb_spec 0 (Config.PushPullInterval c)); simpl;
    destruct (Z.ltb_spec 0 (Config.GossipNodes c)); simpl;
    try (destruct (Z.ltb_spec 0 (Config.GossipInterval c)); simpl);
    intros [= <-]; rewrite <- ?app_assoc, ?app_nil_r; reflexivity.
Qed.

Lemma schedule_again m m1 ts :
  schedule m = Some m1 →
  schedule (set_tickers ts m) = Some (set_tickers (ts ++ started (config m)) m).
Proof.
  destruct m as [c lv sq inc nm ns h pi ts0 ah tm ch].
  unfold schedule, NewTicker, set_tickers, started. simpl.
  destruct (Z.ltb_spec 0 (Config.ProbeInterval c)); simpl;
    destruct (Z.ltb_spec 0 (Config.PushPullInterval c)); simpl;
    destruct (Z.ltb_spec 0 (Config.GossipNodes c)); simpl;
    try (destruct (Z.ltb_spec 0 (Config.GossipInterval c)); simpl);
    intros [= <-]; rewrite <- ?app_assoc, ?app_nil_r; reflexivity.
Qed.

Lemma stopSignals_deschedule m :
  stopSignals (deschedule m).2 = length (tickers m).
Proof.
  unfold deschedule, stopSignals. simpl.
  induction (tickers m) as [|t ts IH]; [done|]. simpl. by rewrite IH.
Qed.

(** Starting and stopping the background work.  [schedule] adds its
    tickers to those that are running, so a second call without
    [deschedule] in between runs every activity twice.  [deschedule] stops
    every ticker, sends one stop signal for each of them (one for each
    goroutine that [schedule] started) and forgets them all; called again,
    it has nothing to stop and sends nothing; and a [schedule] after it
    starts exactly the tickers of one call. *)
Theorem schedule_deschedule m m1 :
  schedule m = Some m1 →
  tickers m1 = tickers m ++ started (config m) ∧
  (∃ m2, schedule m1 = Some m2 ∧
         tickers m2 = tickers m ++ started (config m) ++ started (config m)) ∧
  let r := deschedule m1 in
  tickers r.1 = [] ∧
  stopSignals r.2 = length (tickers m1) ∧
  (∀ t, StopTicker t ∈ r.2 ↔ t ∈ tickers m1) ∧
  deschedule r.1 = (r.1, []) ∧
  ∃ m3, schedule r.1 = Some m3 ∧ tickers m3 = started (config m).
Proof.
  intros Hs. pose proof (schedule_Some m m1 Hs) as ->.
  split; [done|]. split.
  { eexists. split; [by eapply schedule_again|]. simpl. by rewrite <- app_assoc. }
  intros r. unfold r. split_and!.
  - done.
  - apply stopSignals_deschedule.
  - intros t. unfold deschedule. cbn [fst snd].
    generalize (tickers (set_tickers (tickers m ++ started (config m)) m)).
    intros ts. induction ts as [|t' ts IH]; simpl.
    + by rewrite !elem_of_nil.
    + rewrite !elem_of_cons, IH. split.
      * intros [[= ->]|[?|?]]; auto. done.
      * intros [->|?]; auto.
  - done.
  - eexists. split; [apply (schedule_again m _ [] Hs)|done].
Qed.

(** The theorem applied to the example configuration: three tickers, six
    after a second call, three stop signals. *)
Lemma schedule_deschedule_witness :
  ∃ m1 m2,
    schedule (init exConfig) = Some m1 ∧ schedule m1 = Some m2 ∧
    fires <$> tickers m1 = [Probe; PushPull; Gossip] ∧
    fires <$> tickers m2 = [Probe; PushPull; Gossip; Probe; PushPull; Gossip] ∧
    stopSignals (deschedule m1).2 = 3%nat ∧
    stopSignals (deschedule (deschedule m1).1).2 = 0%nat.
Proof.
  destruct (schedule_deschedule (init exConfig)
              (set_tickers (started exConfig) (init exConfig)))
    as (H1 & (m2 & Hm2 & H2) & _ & Hn & _ & Hd & _); [reflexivity|].
  exists (set_tickers (started exConfig) (init exConfig)), m2. split_and!; [reflexivity|exact Hm2| |by rewrite H2|exact Hn|].
  - reflexivity.
  - by rewrite Hd.
Defined.

(** ** No entry outlives its timer *)

Lemma entries_pending_register hs ts seqNo h ch :
  entries_pending hs ts →
  entries_pending (<[seqNo := mkAckHandler h (length ts)]> hs)
    (ts ++ [mkReapTimer Armed seqNo ch]).
Proof.
  intros H1 k ah. rewrite lookup_insert. case_decide as Hk.
  - intros [= <-]. subst. exists (mkReapTimer Armed k ch). simpl.
    rewrite lookup_app_r by lia. rewrite Nat.sub_diag. auto.
  - intros Hah. destruct (H1 _ _ Hah) as (tm & Htm & ? & ?).
    exists tm. split; [|done]. by apply lookup_app_l_Some.
Qed.

(** Changing the timer of one sequence number leaves the entries of the
    others pending. *)
Lemma entries_pending_delete hs ts t tm st :
  entries_pending hs ts → ts !! t = Some tm →
  entries_pending (delete (reapSeq tm) hs)
    (<[t := mkReapTimer st (reapSeq tm) (reapCh tm)]> ts).
Proof.
  intros H1 Htm k ah [Hne Hk]%lookup_delete_Some.
  destruct (H1 _ _ Hk) as (tk & Htk & Hsk & Hpk).
  exists tk. split; [|done].
  rewrite list_lookup_insert_ne; [done|]. intros ->. congruence.
Qed.

Lemma entries_pending_forget hs ts k :
  entries_pending hs ts → entries_pending (delete k hs) ts.
Proof. intros H1 k' ah [_ Hk]%lookup_delete_Some. eauto. Qed.

Lemma step_entries_pending ev m :
  entries_pending (ackHandlers m) (timers m) →
  entries_pending (ackHandlers (step ev m).1) (timers (step ev m).1).
Proof.
  intros Hok.
  destruct ev;
    try (by apply (other_step_keeps (λ hs ts _, entries_pending hs ts)
                     (λ _ _ _ _ _ H, H)
                     (λ hs ts _ seqNo h ch, entries_pending_register hs ts seqNo h ch)
                     _ m []); [done|]).
  - simpl. unfold invokeAckHandler.
    destruct (ackHandlers m !! seqNo) as [ah|] eqn:Hah; simpl;
      [|by rewrite delete_id].
    destruct (Hok _ _ Hah) as (tm & Htm & <- & Hp).
    unfold stopTimer. simpl. rewrite Htm.
    destruct (status tm) eqn:Hs; simpl;
      try (by apply entries_pending_forget).
    by apply entries_pending_delete.
  - simpl. destruct (timers m !! t) as [tm|] eqn:Htm.
    + destruct (status tm) eqn:Hs.
      * rewrite (reapFire_armed m t tm Htm Hs). simpl.
        by apply entries_pending_delete.
      * unfold reapFire. by rewrite Htm, Hs.
      * unfold reapFire. by rewrite Htm, Hs.
      * unfold reapFire. by rewrite Htm, Hs.
    + unfold reapFire. by rewrite Htm.
  - simpl. unfold timerExpires.
    destruct (timers m !! t) as [tm|] eqn:Htm; [|done].
    destruct (status tm) eqn:Hs; try done. simpl.
    intros k ah Hk. destruct (Hok _ _ Hk) as (tk & Htk & Hsk & Hpk).
    destruct (decide (timer ah = t)) as [Heq|Hne].
    + exists (mkReapTimer Expired (reapSeq tm) (reapCh tm)). rewrite Heq in *.
      rewrite list_lookup_insert_eq by (by eapply lookup_lt_Some).
      assert (tk = tm) as -> by congruence. simpl. auto.
    + exists tk. by rewrite list_lookup_insert_ne.
  - simpl. unfold reapClosure.
    destruct (timers m !! t) as [tm|] eqn:Htm; simpl; [|done].
    destruct (status tm) eqn:Hs; simpl; try done.
    by apply entries_pending_delete.
Qed.

Lemma run_entries_pending evs m :
  entries_pending (ackHandlers m) (timers m) →
  entries_pending (ackHandlers (run evs m).1) (timers (run evs m).1).
Proof.
  revert m. induction evs as [|ev evs IH]; intros m Hok; [done|]. simpl.
  pose proof (step_entries_pending ev m Hok) as H1.
  destruct (step ev m) as [m1 out1]. specialize (IH m1 H1).
  by destruct (run evs m1).
Qed.

(** No handler stays in the registry for ever.  In every state the node can
    reach, each entry of the registry has a reap timer that was created for
    the entry's sequence number and that is armed or has expired with its
    closure still to run; when that closure runs, the entry is gone. *)
Theorem registry_never_leaks m seqNo ah :
  reachable m → ackHandlers m !! seqNo = Some ah →
  ∃ tm, timers m !! timer ah = Some tm ∧ reapSeq tm = seqNo ∧
        (status tm = Armed ∨ status tm = Expired) ∧
        ackHandlers (reapClosure (timer ah) (timerExpires (timer ah) m)).1
          !! seqNo = None.
Proof.
  intros (c & evs & ->) Hah.
  assert (entries_pending (ackHandlers (run evs (init c)).1)
            (timers (run evs (init c)).1)) as Hok.
  { apply run_entries_pending. intros k a Hk. done. }
  set (m := (run evs (init c)).1) in *.
  destruct (Hok _ _ Hah) as (tm & Htm & Hseq & Hp).
  exists tm. split_and!; [done..|].
  unfold reapClosure, timerExpires. rewrite Htm.
  destruct Hp as [Hs|Hs]; rewrite Hs; simpl.
  - rewrite list_lookup_insert_eq by (by eapply lookup_lt_Some). simpl.
    rewrite Hseq. apply lookup_delete_eq.
  - rewrite Htm, Hs. simpl. rewrite Hseq. apply lookup_delete_eq.
Qed.

(** The theorem applied to a node that has probed ["c"] of [exThree] and
    not heard back. *)
Lemma registry_never_leaks_witness :
  ∃ tm, timers (run [ProbeTick (λ _ _, 0%nat) exSilent] exThree).1 !! 0%nat
          = Some tm ∧
        reapSeq tm = 1 ∧ (status tm = Armed ∨ status tm = Expired).
Proof.
  destruct (registry_never_leaks
              (run [ProbeTick (λ _ _, 0%nat) exSilent] exThree).1 1
              (mkAckHandler (SendTrue 0%nat) 0%nat))
    as (tm & Htm & Hs & Hp & _).
  - exists exConfig. eexists (_ ++ [ProbeTick (λ _ _, 0%nat) exSilent]).
    rewrite run_app. reflexivity.
  - reflexivity.
  - exists tm. by split_and!.
Defined.

(** ** Two registrations under one sequence number *)

(** A second registration under a sequence number replaces the first, but
    the first registration's reap timer keeps running, and its closure
    deletes by sequence number: an ack calls the second handler only, and
    when the first timer fires before the ack, it removes the second
    registration, whose handler is then not called by a later ack although
    its own timer is still armed. *)
Theorem reregistration m seqNo ch1 ch2 d1 d2 :
  let m2 := setAckChannel seqNo ch2 d2 (setAckChannel seqNo ch1 d1 m) in
  let old := length (timers m) in
  (invokeAckHandler seqNo m2).2 = [AckInvoked (S old); TrySend ch2 true] ∧
  (reapFire old m2).2 = [AckReaped old; TrySend ch1 false] ∧
  ackHandlers (reapFire old m2).1 !! seqNo = None ∧
  (invokeAckHandler seqNo (reapFire old m2).1).2 = [] ∧
  status <$> timers (reapFire old m2).1 !! S old = Some Armed.
Proof.
  intros m2 old.
  assert (timers m2
          = timers m ++ [mkReapTimer Armed seqNo (Some ch1);
                         mkReapTimer Armed seqNo (Some ch2)]) as Ht
    by (simpl; by rewrite <- app_assoc).
  assert (timers m2 !! old = Some (mkReapTimer Armed seqNo (Some ch1))) as Hold.
  { rewrite Ht, lookup_app_r by (unfold old; lia).
    unfold old. by rewrite Nat.sub_diag. }
  assert (timers m2 !! S old = Some (mkReapTimer Armed seqNo (Some ch2))) as Hnew.
  { rewrite Ht, lookup_app_r by (unfold old; lia).
    unfold old. by replace (S (length (timers m)) - length (timers m))%nat
                     with 1%nat by lia. }
  assert (ackHandlers m2 !! seqNo
          = Some (mkAckHandler (SendTrue ch2) (S old))) as Hah.
  { simpl. rewrite lookup_insert_eq. do 3 f_equal.
    rewrite length_app. simpl. unfold old. lia. }
  rewrite (reapFire_armed m2 old _ Hold eq_refl). cbn [fst snd reapSeq reapCh].
  split_and!.
  - unfold invokeAckHandler. by rewrite Hah.
  - done.
  - simpl. apply lookup_delete_eq.
  - unfold invokeAckHandler. simpl. by rewrite lookup_delete_eq.
  - cbn [timers set_ackHandlers set_timers].
    rewrite list_lookup_insert_ne by lia. by rewrite Hnew.
Qed.

(** ** No record changes without a broadcast *)

Lemma aliveNode_quiet e a m (q : ptr) (st : NodeState) :
  Inv m → deref m q = Some st →
  Forall (λ x, broadcastFor (Name st) x = false) (aliveNode e a m).2 →
  deref (aliveNode e a m).1 q = Some st.
Proof.
  intros HI Hq.
  destruct (decide (alive.Node a = Name st)) as [Heq|Hne];
    [|intros _; by apply aliveNode_other].
  assert (∀ m1 (p : ptr),
            nodeMap m1 !! alive.Node a = Some p → deref m1 q = Some st →
            Forall (λ x, broadcastFor (Name st) x = false) (aliveNode e a m1).2 →
            deref (aliveNode e a m1).1 q = Some st) as Hknown.
  { intros m1 p Hm Hq1. unfold aliveNode. rewrite Hm.
    destruct (deref m1 p) as [sp|] eqn:Hp; [|done].
    destruct (alive.Incarnation a <=? Incarnation sp); [done|].
    cbn [fst snd]. intros Hout. apply Forall_cons in Hout as [Hb _].
    simpl in Hb. rewrite Heq, String.eqb_refl in Hb. done. }
  destruct (nodeMap m !! alive.Node a) as [p|] eqn:Hm; [by eapply Hknown|].
  rewrite (aliveNode_created e a m Hm).
  eapply Hknown; [apply lookup_insert_eq|].
  simpl. by apply lookup_app_l_Some.
Qed.

Lemma suspectNode_quiet e s m (q : ptr) (st : NodeState) :
  I1 m → deref m q = Some st →
  Forall (λ x, broadcastFor (Name st) x = false) (suspectNode e s m).2 →
  deref (suspectNode e s m).1 q = Some st.
Proof.
  intros HI Hq.
  destruct (decide (suspect.Node s = Name st)) as [Heq|Hne];
    [|intros _; by apply suspectNode_other].
  unfold suspectNode, nextIncarnation.
  destruct (nodeMap m !! suspect.Node s) as [p|] eqn:Hm; [|done].
  destruct (deref m p) as [sp|] eqn:Hp; [|done].
  repeat case_match; try done; cbn [fst snd];
    intros Hout; apply Forall_cons in Hout as [Hb _];
    simpl in Hb; rewrite Heq, String.eqb_refl in Hb; done.
Qed.

Lemma deadNode_quiet e d m (q : ptr) (st : NodeState) :
  I1 m → deref m q = Some st →
  Forall (λ x, broadcastFor (Name st) x = false) (deadNode e d m).2 →
  deref (deadNode e d m).1 q = Some st.
Proof.
  intros HI Hq.
  destruct (decide (dead.Node d = Name st)) as [Heq|Hne];
    [|intros _; by apply deadNode_other].
  unfold deadNode, nextIncarnation.
  destruct (nodeMap m !! dead.Node d) as [p|] eqn:Hm; [|done].
  destruct (deref m p) as [sp|] eqn:Hp; [|done].
  repeat case_match; try done; cbn [fst snd];
    intros Hout; apply Forall_cons in Hout as [Hb _];
    simpl in Hb; rewrite Heq, String.eqb_refl in Hb; done.
Qed.

Lemma mergeState_quiet remote m (q : ptr) (st : NodeState) :
  Inv m → deref m q = Some st →
  Forall (λ x, broadcastFor (Name st) x = false) (mergeState remote m).2 →
  deref (mergeState remote m).1 q = Some st.
Proof.
  revert m. induction remote as [|[e r] rest IH]; intros m HI Hq; [done|].
  simpl.
  match goal with |- context [if ?a then (m, []) else ?b] =>
    assert (Inv (if a then (m, []) else b).1
            ∧ (Forall (λ x, broadcastFor (Name st) x = false)
                 (if a then (m, []) else b).2 →
               deref (if a then (m, []) else b).1 q = Some st)) as [HI1 H1];
    [|destruct (if a then (m, []) else b) as [m1 out1]] end.
  { pose proof (inv_I1 _ HI).
    destruct (match nodeMap m !! pushNodeState.Name r with
              | Some p0 => _ | None => _ end); [done|].
    repeat case_match; simpl; try done;
      (split; [auto using aliveNode_Inv, suspectNode_Inv, deadNode_Inv
              |auto using aliveNode_quiet, suspectNode_quiet, deadNode_quiet]). }
  specialize (IH m1 HI1). destruct (mergeState rest m1) as [m2 out2].
  cbn [fst snd] in *. intros [Ho1 Ho2]%Forall_app. auto.
Qed.

Lemma probeNode_quiet pe node m (q : ptr) (st : NodeState) :
  I1 m → deref m q = Some st →
  Forall (λ x, broadcastFor (Name st) x = false) (probeNode pe node m).2 →
  deref (probeNode pe node m).1 q = Some st.
Proof.
  intros HI Hq. unfold probeNode, nextSeqNo.
  destruct (deref m node) as [target|]; [|done]. cbn zeta.
  set (m2 := setAckChannel _ _ _ _).
  destruct (pingFails pe); [done|].
  destruct (directAck pe) as [[]|]; [done|..].
  all: destruct (indirectAck pe); [done|].
  all: destruct (deref m2 node) as [cur|]; [|done].
  all: pose proof (suspectNode_quiet (penv pe)
         (suspect.mk (Incarnation cur) (Name cur)) m2 q st HI Hq) as H3.
  all: destruct (suspectNode _ _ m2) as [m3 out3]; cbn [fst snd] in *.
  all: rewrite !Forall_app; intros (_ & _ & Ho); auto.
Qed.

Lemma step_quiet ev m (q : ptr) (st : NodeState) :
  Inv m → deref m q = Some st →
  Forall (λ x, broadcastFor (Name st) x = false) (step ev m).2 →
  deref (step ev m).1 q = Some st.
Proof.
  intros HI Hq.
  destruct ev; simpl;
    try (intros _; rewrite <- Hq; apply deref_same; same_table).
  - by apply aliveNode_quiet.
  - apply suspectNode_quiet; [apply HI|done].
  - apply deadNode_quiet; [apply HI|done].
  - by apply mergeState_quiet.
  - unfold suspicionFire, suspectTimeout.
    repeat case_match; try done. apply deadNode_quiet; [apply HI|done].
  - unfold probe.
    destruct (probeLoop _ _ _ _) as [[m' [node|]]|] eqn:Hl; simpl; [..|done].
    + apply probeNode_quiet; [eapply inv_I1, probeLoop_Inv; eauto|].
      by rewrite (probeLoop_heap _ _ _ _ _ _ Hl).
    + by rewrite (probeLoop_heap _ _ _ _ _ _ Hl).
  - unfold pushPull, pushPullNode.
    destruct picked as [|p ?]; [done|]. destruct (deref m p); [|done].
    destruct reply as [remote|err]; [|done].
    pose proof (mergeState_quiet remote m q st HI Hq).
    by destruct (mergeState remote m).
Qed.

(** No record changes without a broadcast: if a run of events queues no
    broadcast under a node's name, every record of that node is after the
    run exactly as it was before it (state, incarnation and time of
    change). *)
Theorem changes_are_broadcast evs m (q : ptr) (st : NodeState) :
  reachable m → deref m q = Some st →
  Forall (λ x, broadcastFor (Name st) x = false) (run evs m).2 →
  deref (run evs m).1 q = Some st.
Proof.
  intros HI%reachable_Inv. revert m HI.
  induction evs as [|ev evs IH]; intros m HI Hq; [done|]. simpl.
  pose proof (step_quiet ev m q st HI Hq) as H1.
  pose proof (step_Inv ev m HI) as HI1.
  destruct (step ev m) as [m1 out1]. specialize (IH m1 HI1).
  destruct (run evs m1) as [m2 out2]. cbn [fst snd] in *.
  intros [Ho1 Ho2]%Forall_app. auto.
Qed.

(** The theorem applied to ["self"] of [exTwo], while ["b"] is suspected
    and declared dead. *)
Lemma changes_are_broadcast_witness :
  deref (run [InSuspect (mkEnv 20 0) (suspect.mk 7 "b");
              InDead (mkEnv 21 0) (dead.mk 7 "b")] exTwo).1 0%nat
    = Some (mkNodeState (mkNode "self" [] []) 1 StateAlive 10).
Proof.
  apply (changes_are_broadcast _ exTwo 0%nat
           (mkNodeState (mkNode "self" [] []) 1 StateAlive 10)).
  - eexists exConfig, _. reflexivity.
  - reflexivity.
  - by repeat constructor.
Defined.

(** ** Names that nobody announced *)

Lemma aliveNode_unknown name e a m :
  nodeMap m !! name = None → alive.Node a ≠ name →
  nodeMap (aliveNode e a m).1 !! name = None ∧
  Forall (λ x, broadcastFor name x = false) (aliveNode e a m).2.
Proof.
  intros Hname Hne.
  assert (∀ m1 (p : ptr),
            nodeMap m1 !! name = None → nodeMap m1 !! alive.Node a = Some p →
            nodeMap (aliveNode e a m1).1 !! name = None ∧
            Forall (λ x, broadcastFor name x = false) (aliveNode e a m1).2)
    as Hknown.
  { intros m1 p Hn1 Hm. unfold aliveNode. rewrite Hm.
    destruct (deref m1 p) as [sp|] eqn:Hp; [|done].
    destruct (alive.Incarnation a <=? Incarnation sp); [done|].
    cbn [fst snd]. split; [done|]. constructor.
    - simpl. by destruct (String.eqb_spec (alive.Node a) name).
    - case_match; by repeat constructor. }
  destruct (nodeMap m !! alive.Node a) as [p|] eqn:Hm; [by eapply Hknown|].
  rewrite (aliveNode_created e a m Hm).
  eapply Hknown; [|apply lookup_insert_eq]. simpl. by rewrite lookup_insert_ne.
Qed.

Lemma suspectNode_unknown name e s m :
  nodeMap m !! name = None →
  nodeMap (suspectNode e s m).1 !! name = None ∧
  Forall (λ x, broadcastFor name x = false) (suspectNode e s m).2.
Proof.
  intros Hname. unfold suspectNode, nextIncarnation.
  destruct (nodeMap m !! suspect.Node s) as [p|] eqn:Hm; [|done].
  assert (String.eqb (suspect.Node s) name = false) as Hne
    by (destruct (String.eqb_spec (suspect.Node s) name); congruence).
  repeat case_match; cbn [fst snd]; (split; [done|]);
    repeat constructor; done.
Qed.

Lemma deadNode_unknown name e d m :
  nodeMap m !! name = None →
  nodeMap (deadNode e d m).1 !! name = None ∧
  Forall (λ x, broadcastFor name x = false) (deadNode e d m).2.
Proof.
  intros Hname. unfold deadNode, nextIncarnation.
  destruct (nodeMap m !! dead.Node d) as [p|] eqn:Hm; [|done].
  assert (String.eqb (dead.Node d) name = false) as Hne
    by (destruct (String.eqb_spec (dead.Node d) name); congruence).
  repeat case_match; cbn [fst snd]; (split; [done|]);
    repeat constructor; done.
Qed.

Lemma mergeState_unknown name remote m :
  nodeMap m !! name = None →
  Forall (λ x, pushNodeState.Name x.2 = name →
               pushNodeState.State x.2 ≠ StateAlive) remote →
  nodeMap (mergeState remote m).1 !! name = None ∧
  Forall (λ x, broadcastFor name x = false) (mergeState remote m).2.
Proof.
  intros Hname Hall. revert m Hname.
  induction Hall as [|[e r] rest Hr _ IH]; intros m Hname; [done|].
  simpl in *.
  match goal with |- context [if ?a then (m, []) else ?b] =>
    assert (nodeMap (if a then (m, []) else b).1 !! name = None
            ∧ Forall (λ x, broadcastFor name x = false)
                (if a then (m, []) else b).2) as [Hn1 Ho1];
    [|destruct (if a then (m, []) else b) as [m1 out1]] end.
  { destruct (match nodeMap m !! pushNodeState.Name r with
              | Some p0 => _ | None => _ end); [done|].
    destruct (Z.eqb_spec (pushNodeState.State r) StateAlive) as [Ha|].
    { apply aliveNode_unknown; [done|]. simpl. intros Heq. by apply Hr. }
    repeat case_match; simpl;
      auto using suspectNode_unknown, deadNode_unknown. }
  destruct (IH m1 Hn1) as [Hn2 Ho2].
  destruct (mergeState rest m1) as [m2 out2]. cbn [fst snd] in *.
  split; [done|]. by apply Forall_app.
Qed.

Lemma probeLoop_unknown name fuel draws k m m' sel :
  nodeMap m !! name = None → probeLoop fuel draws k m = Some (m', sel) →
  nodeMap m' !! name = None.
Proof.
  revert k m. induction fuel as [|fuel IH]; intros k m Hname; simpl; [done|].
  repeat case_match; intros ?; simplify_eq; try done.
  - match goal with H : probeLoop _ _ _ _ = _ |- _ => apply IH in H end; [done|].
    change (nodeMap (wrapAround (draws k) m))
      with (nodeMap (resetNodes (draws k) m)).
    rewrite resetNodes_nodeMap.
    destruct (deregister _ _ _ !! name) as [q|] eqn:Hq; [|done].
    apply deregister_lookup in Hq as [Hq _]. congruence.
  - match goal with H : probeLoop _ _ _ _ = _ |- _ => by apply IH in H end.
  - match goal with H : probeLoop _ _ _ _ = _ |- _ => by apply IH in H end.
Qed.

Lemma probeNode_unknown name pe node m :
  nodeMap m !! name = None →
  nodeMap (probeNode pe node m).1 !! name = None ∧
  Forall (λ x, broadcastFor name x = false) (probeNode pe node m).2.
Proof.
  intros Hname. unfold probeNode, nextSeqNo.
  destruct (deref m node) as [target|]; [|done]. cbn zeta.
  set (m2 := setAckChannel _ _ _ _).
  set (out2 := flat_map _ (kNodes pe)).
  assert (Forall (λ x, broadcastFor name x = false) out2) as Hout2.
  { unfold out2. apply Forall_flat_map, Forall_forall. intros [peer failed] _.
    destruct (deref m2 peer); [|constructor]. destruct failed; by repeat constructor. }
  destruct (pingFails pe); [split; [done|by repeat constructor]|].
  destruct (directAck pe) as [[]|]; [split; [done|by repeat constructor]|..].
  all: destruct (indirectAck pe); [split; [done|by constructor]|].
  all: destruct (deref m2 node) as [cur|]; [|split; [done|by constructor]].
  all: pose proof (suspectNode_unknown name (penv pe)
         (suspect.mk (Incarnation cur) (Name cur)) m2 Hname) as [H3 H4].
  all: destruct (suspectNode _ _ m2) as [m3 out3]; cbn [fst snd] in *.
  all: split; [done|]; constructor; [done|by apply Forall_app].
Qed.

Lemma step_unknown name ev m :
  nodeMap m !! name = None → (∀ inc, ¬ newerAlive name inc ev) →
  nodeMap (step ev m).1 !! name = None ∧
  Forall (λ x, broadcastFor name x = false) (step ev m).2.
Proof.
  intros Hname Hev. destruct ev; simpl in *.
  - apply aliveNode_unknown; [done|]. intros Heq.
    apply (Hev (alive.Incarnation a - 1)). split; [done|lia].
  - by apply suspectNode_unknown.
  - by apply deadNode_unknown.
  - apply mergeState_unknown; [done|].
    apply Forall_forall. intros x Hx Hn Ha.
    apply (Hev (pushNodeState.Incarnation x.2 - 1)).
    apply Exists_exists. exists x. split_and!; auto. lia.
  - unfold suspicionFire, suspectTimeout.
    repeat case_match; try done. by apply deadNode_unknown.
  - unfold probe.
    destruct (probeLoop _ _ _ _) as [[m' [node|]]|] eqn:Hl; simpl; [..|done].
    + apply probeNode_unknown. by eapply probeLoop_unknown.
    + split; [by eapply probeLoop_unknown|done].
  - unfold pushPull, pushPullNode.
    destruct picked as [|p ?]; [done|]. destruct (deref m p); [|done].
    destruct reply as [remote|err]; [|done].
    assert (nodeMap (mergeState remote m).1 !! name = None
            ∧ Forall (λ x, broadcastFor name x = false) (mergeState remote m).2)
      as Hm.
    { apply mergeState_unknown; [done|].
      apply Forall_forall. intros x Hx Hn Ha.
      apply (Hev (pushNodeState.Incarnation x.2 - 1)).
      apply Exists_exists. exists x. split_and!; auto. lia. }
    by destruct (mergeState remote m).
  - done.
  - done.
  - unfold invokeAckHandler, stopTimer.
    destruct (ackHandlers m !! seqNo) as [ah|]; [|done].
    split; [by repeat case_match|]. destruct (handler ah); by repeat constructor.
  - unfold reapFire, reapClosure, timerExpires.
    repeat case_match; simplify_eq; split; try done; by repeat constructor.
  - unfold timerExpires. by repeat case_match.
  - unfold reapClosure.
    repeat case_match; simplify_eq; split; try done; by repeat constructor.
  - done.
  - done.
  - done.
Qed.

(** Only an Alive makes a node known.  Through every sequence of events
    that delivers no Alive about a name the table does not hold, directly or
    in a state transfer, the name stays out of the table and nothing is
    queued for broadcast under it: Suspect and Dead messages about a node
    never heard of are dropped without being passed on. *)
Theorem unknown_stays_unknown name evs m :
  nodeMap m !! name = None →
  Forall (λ ev, ∀ inc, ¬ newerAlive name inc ev) evs →
  nodeMap (run evs m).1 !! name = None ∧
  Forall (λ x, broadcastFor name x = false) (run evs m).2.
Proof.
  intros Hname Hevs. revert m Hname.
  induction Hevs as [|ev evs Hev _ IH]; intros m Hname; [done|]. simpl.
  destruct (step_unknown name ev m Hname Hev) as [H1 Ho1].
  destruct (step ev m) as [m1 out1]. cbn [fst snd] in *.
  destruct (IH m1 H1) as [H2 Ho2].
  destruct (run evs m1) as [m2 out2]. cbn [fst snd] in *.
  split; [done|]. by apply Forall_app.
Qed.

(** The theorem applied to [exTwo] and the unknown name ["d"]. *)
Lemma unknown_stays_unknown_witness :
  nodeMap (run [InSuspect (mkEnv 20 0) (suspect.mk 3 "d");
                InDead (mkEnv 21 0) (dead.mk 3 "d");
                InAlive (mkEnv 22 0) (alive.mk 8 "b" [] [])] exTwo).1 !! "d"
    = None ∧
  (run [InSuspect (mkEnv 20 0) (suspect.mk 3 "d");
        InDead (mkEnv 21 0) (dead.mk 3 "d");
        InAlive (mkEnv 22 0) (alive.mk 8 "b" [] [])] exTwo).2
    = [Broadcast "b" (aliveMsg (alive.mk 8 "b" [] []))].
Proof.
  destruct (unknown_stays_unknown "d"
              [InSuspect (mkEnv 20 0) (suspect.mk 3 "d");
               InDead (mkEnv 21 0) (dead.mk 3 "d");
               InAlive (mkEnv 22 0) (alive.mk 8 "b" [] [])] exTwo)
    as [Hn _].
  - reflexivity.
  - repeat constructor; simpl; try tauto. intros inc [[=] _].
  - split; [exact Hn | reflexivity].
Defined.

(** ** Gossip *)

Lemma gossipLoop_sends port pending fails i0 ks :
  ∃ j, (j ≤ length ks)%nat ∧
       sends (gossipLoop port pending fails i0 ks)
         = imap (λ i (st : NodeState), (Addr st, pending (i0 + i)%nat)) (take j ks) ∧
       (∀ i, (i < j)%nat → pending (i0 + i)%nat ≠ []) ∧
       ((j < length ks)%nat → pending (i0 + j)%nat = []) ∧
       Forall (λ x, match x with
                    | RawSend _ p msgs => p = port ∧ msgs ≠ []
                    | GossipLog _ => True
                    end) (gossipLoop port pending fails i0 ks).
Proof.
  revert i0. induction ks as [|st ks IH]; intros i0; simpl.
  - exists 0%nat. split_and!; [done|done|lia|lia|done].
  - destruct (pending i0) as [|b bs] eqn:Hp; simpl.
    + exists 0%nat. split_and!; [lia|done|lia| |done].
      intros _. by rewrite Nat.add_0_r.
    + destruct (IH (S i0)) as (j & Hj & Hs & Hne & Hstop & Hall).
      exists (S j). split_and!.
      * lia.
      * simpl. rewrite Nat.add_0_r, Hp. f_equal.
        assert (sends ((if fails i0
                        then [GossipLog "[ERR] Failed to send gossip"] else [])
                       ++ gossipLoop port pending fails (S i0) ks)
                = sends (gossipLoop port pending fails (S i0) ks)) as ->
          by (by destruct (fails i0)).
        rewrite Hs. apply imap_ext. intros i x _. simpl. do 2 f_equal. lia.
      * intros [|i] Hi; [by rewrite Nat.add_0_r, Hp|].
        replace (i0 + S i)%nat with (S i0 + i)%nat by lia. apply Hne. lia.
      * intros Hlt. replace (i0 + S j)%nat with (S i0 + j)%nat by lia.
        apply Hstop. lia.
      * constructor; [done|]. apply Forall_app. split; [|done].
        destruct (fails i0); by repeat constructor.
Qed.

(** [gossip] sends to the picked nodes in their order, each the compound of
    what [getBroadcasts] returned for it, to the node's address and the
    configured port, until [getBroadcasts] returns nothing: then it returns
    and the remaining nodes get nothing in this round.  It never sends an
    empty compound message, and a send that fails is logged without ending
    the round. *)
Theorem gossip_until_empty kNodes pending fails m :
  ∃ j, (j ≤ length kNodes)%nat ∧
       sends (gossip kNodes pending fails m)
         = imap (λ i (st : NodeState), (Addr st, pending i)) (take j kNodes) ∧
       (∀ i, (i < j)%nat → pending i ≠ []) ∧
       ((j < length kNodes)%nat → pending j = []) ∧
       Forall (λ x, match x with
                    | RawSend _ p msgs =>
                        p = Config.UDPPort (config m) ∧ msgs ≠ []
                    | GossipLog _ => True
                    end) (gossip kNodes pending fails m).
Proof.
  destruct (gossipLoop_sends (Config.UDPPort (config m)) pending fails 0 kNodes)
    as (j & ?). by exists j.
Qed.

(** ** Addresses *)

(** A record keeps the address and the metadata it was created with: no
    event frees a record or changes its name, address or metadata.  An
    Alive about a known node that carries another address raises the
    incarnation and leaves the address as it was. *)
Theorem identity_fixed evs m (p : ptr) (st : NodeState) :
  deref m p = Some st →
  ∃ st' : NodeState,
    deref (run evs m).1 p = Some st' ∧
    Name st' = Name st ∧ Addr st' = Addr st ∧ Meta st' = Meta st.
Proof.
  intros Hp. destruct (run_grows evs m p st Hp) as (st' & Hp' & Hn & _).
  exists st'. by rewrite Hn.
Qed.

(** The theorem applied to ["b"] of [exTwo] and an Alive about ["b"] that
    carries the address 10.0.0.9. *)
Lemma identity_fixed_witness :
  ∃ st' : NodeState,
    deref (run [InAlive (mkEnv 20 0)
                  (alive.mk 9 "b" [Byte.x0a; Byte.x00; Byte.x00; Byte.x09] [])]
             exTwo).1 1%nat = Some st' ∧
    Name st' = "b" ∧ Addr st' = [] ∧ Meta st' = [].
Proof.
  apply (identity_fixed _ exTwo 1%nat
           (mkNodeState (mkNode "b" [] []) 7 StateAlive 11)).
  reflexivity.
Defined.

(** ** A suspicion that runs out *)

Lemma owned_store m (k : string) (p : ptr) (st st' : NodeState) :
  I1 m → owned m → nodeMap m !! k = Some p → deref m p = Some st →
  toNode st' = toNode st → owned (store p st' m).
Proof.
  intros HI Ho Hk Hp Hn q sq Hq Hlive. simpl in *.
  destruct (map_points _ _ _ HI _ _ Hk) as (st0 & Hst0 & Hn0).
  assert (st0 = st) as -> by congruence.
  apply list_lookup_insert_Some in Hq as [(-> & -> & _)|[Hne Hq]]; [|eauto].
  rewrite Hn. congruence.
Qed.

Lemma owned_frame m m' :
  nodeMap m' = nodeMap m → heap m' = heap m → owned m → owned m'.
Proof. intros Hm Hh Ho p st. rewrite Hm, Hh. apply Ho. Qed.

Lemma owned_create e a m :
  owned m → nodeMap m !! alive.Node a = None →
  owned (aliveNode_create e a m).2.
Proof.
  intros Ho Hnone q sq Hq Hlive. simpl in *.
  apply lookup_app_Some in Hq as [Hq|[_ Hq]].
  - pose proof (Ho _ _ Hq Hlive) as Hm.
    rewrite lookup_insert_ne; [done|]. intros Heq. congruence.
  - apply list_lookup_singleton_Some in Hq as [_ <-]. done.
Qed.

Lemma aliveNode_owned e a m : Inv m → owned m → owned (aliveNode e a m).1.
Proof.
  intros HI Ho.
  assert (∀ m1 (p : ptr),
            Inv m1 → owned m1 → nodeMap m1 !! alive.Node a = Some p →
            owned (aliveNode e a m1).1) as Hknown.
  { intros m1 p HI1 Ho1 Hm. unfold aliveNode. rewrite Hm.
    destruct (deref m1 p) as [sp|] eqn:Hp; [|done].
    destruct (alive.Incarnation a <=? Incarnation sp); [done|]. simpl fst.
    eapply owned_store; [apply HI1|done..|by case_match]. }
  destruct (nodeMap m !! alive.Node a) as [p|] eqn:Hm; [by eapply Hknown|].
  rewrite (aliveNode_created e a m Hm).
  eapply Hknown; [by apply Inv_create|by apply owned_create|apply lookup_insert_eq].
Qed.

Lemma suspectNode_owned e s m : Inv m → owned m → owned (suspectNode e s m).1.
Proof.
  intros HI Ho. unfold suspectNode, nextIncarnation.
  destruct (nodeMap m !! suspect.Node s) as [p|] eqn:Hm; [|done].
  destruct (deref m p) as [st|] eqn:Hp; [|done].
  repeat case_match; try done; simpl fst.
  - eapply (owned_store (set_incarnation _ m)); [apply HI|done..].
  - eapply owned_store; [apply HI|done..].
Qed.

Lemma deadNode_owned e d m : Inv m → owned m → owned (deadNode e d m).1.
Proof.
  intros HI Ho. unfold deadNode, nextIncarnation.
  destruct (nodeMap m !! dead.Node d) as [p|] eqn:Hm; [|done].
  destruct (deref m p) as [st|] eqn:Hp; [|done].
  repeat case_match; try done; simpl fst.
  - eapply (owned_store (set_incarnation _ m)); [apply HI|done..].
  - eapply owned_store; [apply HI|done..].
Qed.

Lemma mergeState_owned remote m : Inv m → owned m → owned (mergeState remote m).1.
Proof.
  revert m. induction remote as [|[e r] rest IH]; intros m HI Ho; [done|].
  simpl.
  match goal with |- context [if ?a then (m, []) else ?b] =>
    assert (Inv (if a then (m, []) else b).1
            ∧ owned (if a then (m, []) else b).1) as [HI1 Ho1];
    [|destruct (if a then (m, []) else b) as [m1 out1]] end.
  { destruct (match nodeMap m !! pushNodeState.Name r with
              | Some p0 => _ | None => _ end); [done|].
    repeat case_match; simpl; try done;
      (split; [auto using aliveNode_Inv, suspectNode_Inv, deadNode_Inv
              |auto using aliveNode_owned, suspectNode_owned, deadNode_owned]). }
  specialize (IH m1 HI1 Ho1). by destruct (mergeState rest m1).
Qed.

Lemma resetNodes_owned draws m : I1 m → owned m → owned (resetNodes draws m).
Proof.
  intros HI Ho p st Hp Hlive.
  change (heap (resetNodes draws m)) with (heap m) in Hp.
  apply resetNodes_lookup; [done|]. split; [by apply Ho|].
  unfold isDead. rewrite Hp. by destruct (Z.eqb_spec (State st) StateDead).
Qed.

Lemma probeLoop_owned fuel draws k m m' sel :
  Inv m → owned m → probeLoop fuel draws k m = Some (m', sel) → owned m'.
Proof.
  revert k m. induction fuel as [|fuel IH]; intros k m HI Ho; simpl; [done|].
  repeat case_match; intros ?; simplify_eq; try done.
  - eapply IH; [| |done].
    + eapply Inv_frame; [..|by apply (resetNodes_Inv (draws k))]; done.
    + eapply owned_frame; [..|apply (resetNodes_owned (draws k) m)];
        [done|done|apply HI|done].
  - eapply IH; [| |done]; [by eapply Inv_frame; [..|exact HI]|].
    by eapply owned_frame; [..|exact Ho].
  - eapply IH; [| |done]; [by eapply Inv_frame; [..|exact HI]|].
    by eapply owned_frame; [..|exact Ho].
Qed.

Lemma probeNode_owned pe node m : Inv m → owned m → owned (probeNode pe node m).1.
Proof.
  intros HI Ho. unfold probeNode, nextSeqNo.
  destruct (deref m node) as [target|]; [|done]. cbn zeta.
  set (m2 := setAckChannel _ _ _ _).
  assert (Inv m2) as HI2 by (by eapply Inv_frame; [..|exact HI]).
  assert (owned m2) as Ho2 by (by eapply owned_frame; [..|exact Ho]).
  destruct (pingFails pe); [done|].
  destruct (directAck pe) as [[]|]; try done.
  all: destruct (indirectAck pe); [exact Ho2|].
  all: destruct (deref m2 node) as [cur|]; [|exact Ho2].
  all: pose proof (suspectNode_owned (penv pe)
         (suspect.mk (Incarnation cur) (Name cur)) m2 HI2 Ho2) as H3.
  all: destruct (suspectNode _ _ m2); exact H3.
Qed.

Lemma owned_same m m' : table_same m m' → owned m → owned m'.
Proof. intros (_ & Hm & _ & Hh). by apply owned_frame. Qed.

Lemma step_owned ev m : Inv m → owned m → owned (step ev m).1.
Proof.
  intros HI Ho. destruct ev; simpl; try (apply (owned_same m); [same_table|done]).
  - by apply aliveNode_owned.
  - by apply suspectNode_owned.
  - by apply deadNode_owned.
  - by apply mergeState_owned.
  - unfold suspicionFire, suspectTimeout.
    repeat case_match; try done. by apply deadNode_owned.
  - unfold probe.
    destruct (probeLoop _ _ _ _) as [[m' [node|]]|] eqn:Hl; simpl; [..|done].
    + apply probeNode_owned; [by eapply probeLoop_Inv|by eapply probeLoop_owned].
    + by eapply probeLoop_owned.
  - unfold pushPull, pushPullNode.
    destruct picked as [|p ?]; [done|]. destruct (deref m p); [|done].
    destruct reply as [remote|err]; [|done].
    pose proof (mergeState_owned remote m HI Ho).
    by destruct (mergeState remote m).
Qed.

Lemma reachable_owned m : reachable m → owned m.
Proof.
  intros (c & evs & ->).
  assert (∀ m, Inv m → owned m → owned (run evs m).1) as Hrun.
  { induction evs as [|ev evs IH]; intros m HI Ho; [done|]. simpl.
    pose proof (step_Inv ev m HI) as HI1.
    pose proof (step_owned ev m HI Ho) as Ho1.
    destruct (step ev m) as [m1 out1]. specialize (IH m1 HI1 Ho1).
    by destruct (run evs m1). }
  apply Hrun; [apply Inv_init|]. intros p st Hp. done.
Qed.

(** A suspicion that is not answered ends in Dead.  In every state the node
    can reach, when the suspicion timer of a record fires and the record is
    still Suspect with the time of change captured at arming, the record
    becomes Dead at the incarnation it has, with the time of the call as its
    time of change; the Dead is queued for broadcast under the node's name
    and [LeaveCh] is notified.  The record is still in the table at that
    moment, whatever sweeps ran in between. *)
Theorem suspicion_runs_out e (p : ptr) t m (st : NodeState) :
  reachable m → deref m p = Some st →
  State st = StateSuspect → StateChange st = t →
  nodeMap m !! Name st = Some p ∧
  suspicionFire e p t m
  = (store p (mkNodeState (toNode st) (Incarnation st) StateDead (now e)) m,
     [Broadcast (Name st) (deadMsg (dead.mk (Incarnation st) (Name st)));
      Notify LeaveCh (toNode st)]).
Proof.
  intros Hr Hp Hs Ht. pose proof (reachable_Inv m Hr) as HI.
  assert (nodeMap m !! Name st = Some p) as Hm.
  { apply (reachable_owned m Hr p st Hp). by rewrite Hs. }
  split; [done|].
  unfold suspicionFire, suspectTimeout, deadNode. rewrite Hp, Hs, Ht.
  rewrite !Z.eqb_refl. cbn [andb dead.Node dead.Incarnation].
  rewrite Hm, Hp, Z.ltb_irrefl, Hs. cbn [Z.eqb StateSuspect StateDead].
  destruct (String.eqb_spec (Name st) (Config.Name (config m))) as [Hself|_];
    [|done].
  by destruct (inv_self _ HI p st Hp Hself).
Qed.

(** The theorem applied to ["c"] of [exSweep], suspected at time 17. *)
Lemma suspicion_runs_out_witness :
  suspicionFire (mkEnv 40 0) 4%nat 17 exSweep
  = (store 4%nat (mkNodeState (mkNode "c" [] []) 1 StateDead 40) exSweep,
     [Broadcast "c" (deadMsg (dead.mk 1 "c"));
      Notify LeaveCh (mkNode "c" [] [])]).
Proof.
  destruct (suspicion_runs_out (mkEnv 40 0) 4%nat 17 exSweep
              (mkNodeState (mkNode "c" [] []) 1 StateSuspect 17))
    as [_ H]; [|reflexivity..|exact H].
  eexists exConfig, _. reflexivity.
Defined.

(** ** Joining, and joining again after the sweep *)

Lemma aliveNode_joins e a m :
  nodeMap m !! alive.Node a = None → 1 ≤ alive.Incarnation a →
  let nd := mkNode (alive.Node a) (alive.Addr a) (alive.Meta a) in
  let p := length (heap m) in
  aliveNode e a m
  = (store p (mkNodeState nd (alive.Incarnation a) StateAlive (now e))
       (aliveNode_create e a m).2,
     [Broadcast (alive.Node a) (aliveMsg a); Notify JoinCh nd]).
Proof.
  intros Hm Hinc nd p. unfold aliveNode. rewrite Hm.
  pose proof (create_deref e a m) as Hd.
  assert ((aliveNode_create e a m).1 = p) as Hp by done.
  destruct (aliveNode_create e a m) as [q m1]. simpl in Hd, Hp. subst q.
  rewrite Hd. cbn [Incarnation State].
  destruct (Z.leb_spec (alive.Incarnation a) 0); [lia|]. reflexivity.
Qed.

(** The sweep forgets the incarnation a node died with.  While the Dead
    record of a node is in the table, an Alive about the node that does not
    carry a greater incarnation changes nothing.  Once [resetNodes] has
    dropped the record, the same Alive (any incarnation of at least 1) is
    taken as the first word about the node: a new record is created, it is
    Alive with the message's incarnation, address and metadata, the Alive is
    queued for broadcast and [JoinCh] is notified. *)
Theorem sweep_forgets_incarnation draws e a m (q : ptr) (st : NodeState) :
  reachable m →
  nodeMap m !! alive.Node a = Some q → deref m q = Some st →
  State st = StateDead →
  1 ≤ alive.Incarnation a ≤ Incarnation st →
  let nd := mkNode (alive.Node a) (alive.Addr a) (alive.Meta a) in
  let swept := resetNodes draws m in
  let r := aliveNode e a swept in
  aliveNode e a m = (m, []) ∧
  nodeMap swept !! alive.Node a = None ∧
  nodeMap r.1 !! alive.Node a = Some (length (heap m)) ∧
  deref r.1 (length (heap m))
    = Some (mkNodeState nd (alive.Incarnation a) StateAlive (now e)) ∧
  r.2 = [Broadcast (alive.Node a) (aliveMsg a); Notify JoinCh nd] ∧
  deref r.1 q = Some st.
Proof.
  intros HI%reachable_Inv%inv_I1 Hm Hq Hd Hinc nd swept r.
  assert (nodeMap swept !! alive.Node a = None) as Hnone.
  { destruct (nodeMap swept !! alive.Node a) as [q'|] eqn:Hq'; [|done].
    apply resetNodes_lookup in Hq' as [Hq' Hl]; [|done].
    assert (q' = q) as -> by congruence.
    unfold isDead in Hl. rewrite Hq, Hd in Hl. done. }
  unfold r. rewrite (aliveNode_joins e a swept Hnone) by lia.
  change (heap swept) with (heap m). cbn [fst snd].
  split_and!.
  - unfold aliveNode. rewrite Hm, Hq.
    by destruct (Z.leb_spec (alive.Incarnation a) (Incarnation st)); [|lia].
  - done.
  - simpl. apply lookup_insert_eq.
  - simpl. rewrite list_lookup_insert_eq by (rewrite length_app; simpl; lia).
    done.
  - done.
  - simpl. rewrite list_lookup_insert_ne
      by (apply lookup_lt_Some in Hq; lia).
    by apply lookup_app_l_Some.
Qed.

(** The theorem applied to ["x"] of [exSweep], dead at incarnation 1, and
    an Alive about ["x"] with incarnation 1. *)
Lemma sweep_forgets_incarnation_witness :
  aliveNode (mkEnv 50 0) (alive.mk 1 "x" [] []) exSweep = (exSweep, []) ∧
  (aliveNode (mkEnv 50 0) (alive.mk 1 "x" [] [])
     (resetNodes (λ _, 0%nat) exSweep)).2
  = [Broadcast "x" (aliveMsg (alive.mk 1 "x" [] []));
     Notify JoinCh (mkNode "x" [] [])].
Proof.
  destruct (sweep_forgets_incarnation (λ _, 0%nat) (mkEnv 50 0)
              (alive.mk 1 "x" [] []) exSweep 1%nat
              (mkNodeState (mkNode "x" [] []) 1 StateDead 15))
    as (Hstay & _ & _ & _ & Hout & _).
  - eexists exConfig, _. reflexivity.
  - reflexivity.
  - reflexivity.
  - reflexivity.
  - simpl. lia.
  - split; [exact Hstay | exact Hout].
Defined.

(** ** Live records are in the table *)

(** The sweep drops Dead records only: in every state the node can reach,
    a record that is Alive or Suspect is the mapping's entry for its name
    and stands in the sequence. *)
Theorem live_records_listed m (p : ptr) (st : NodeState) :
  reachable m → deref m p = Some st → State st ≠ StateDead →
  nodeMap m !! Name st = Some p ∧ p ∈ nodes m.
Proof.
  intros Hr Hp Hlive. pose proof (reachable_owned m Hr p st Hp Hlive) as Hm.
  split; [done|]. eapply map_listed; [apply inv_I1, reachable_Inv, Hr|done].
Qed.

(** The theorem applied to ["c"] of [exSweep], which is Suspect. *)
Lemma live_records_listed_witness :
  nodeMap exSweep !! "c" = Some 4%nat ∧ 4%nat ∈ nodes exSweep.
Proof.
  apply (live_records_listed exSweep 4%nat
           (mkNodeState (mkNode "c" [] []) 1 StateSuspect 17)).
  - eexists exConfig, _. reflexivity.
  - reflexivity.
  - discriminate.
Defined.

(** ** A probe and its ack *)



